(** * A set-associative cache simulator (cachesim.c)

    Shallow embedding of the cache model of [cachesim.c] and the
    properties of its replacement policies, access protocol and
    statistics counters.

    Conventions of the embedding:
    - [unsigned long] is a [Z] in [0, 2^64); every [++], [<<] and [-] on it
      is written with its wrap-around ([add64], [shl64], [sub64]);
    - [int] values (geometry, indices, flags) are [Z]; the flags [valid]
      and [prefetch] are tested against [0] as C does;
    - the 2D array [lines] is a list of rows; an access outside a row or
      outside the array of rows is undefined behaviour in C and makes the
      embedded function return [None];
    - loops run over a [nat] counter from [0] to [set_lines - 1]. *)

From Stdlib Require Import ZArith Lia Bool Ascii String.
From stdpp Require Import base option list.

Local Open Scope Z_scope.

(** ** Machine arithmetic *)

Definition wrap64 (x : Z) : Z := x mod 2 ^ 64.
Definition add64 (x y : Z) : Z := wrap64 (x + y).
Definition sub64 (x y : Z) : Z := wrap64 (x - y).
Definition shl64 (x n : Z) : Z := wrap64 (Z.shiftl x n).

Definition INT_MAX : Z := 2 ^ 31 - 1.
Definition INT_MIN : Z := - 2 ^ 31.
Definition in_int (x : Z) : bool := (INT_MIN <=? x) && (x <=? INT_MAX).

(** ** Data model *)

Record CacheLine : Type := mkLine {
  valid : Z;
  tag : Z;
  age : Z
}.

Record Cache : Type := mkCache {
  sets_num : Z;
  set_lines : Z;
  block_size : Z;
  block_bits : Z;
  set_bits : Z;
  policy : Z;
  lines : list (list CacheLine);
  hits : Z;
  misses : Z;
  reads : Z;
  writes : Z
}.

Definition POLICY_FIFO : Z := 0.
Definition POLICY_LRU : Z := 1.

(** Field updates, written [c->f = v] or [c->f++] in the source. *)

Definition with_lines (c : Cache) (ls : list (list CacheLine)) : Cache :=
  mkCache (sets_num c) (set_lines c) (block_size c) (block_bits c)
          (set_bits c) (policy c) ls (hits c) (misses c) (reads c) (writes c).

Definition incr_hits (c : Cache) : Cache :=
  mkCache (sets_num c) (set_lines c) (block_size c) (block_bits c)
          (set_bits c) (policy c) (lines c)
          (add64 (hits c) 1) (misses c) (reads c) (writes c).

Definition incr_misses (c : Cache) : Cache :=
  mkCache (sets_num c) (set_lines c) (block_size c) (block_bits c)
          (set_bits c) (policy c) (lines c)
          (hits c) (add64 (misses c) 1) (reads c) (writes c).

Definition incr_reads (c : Cache) : Cache :=
  mkCache (sets_num c) (set_lines c) (block_size c) (block_bits c)
          (set_bits c) (policy c) (lines c)
          (hits c) (misses c) (add64 (reads c) 1) (writes c).

Definition incr_writes (c : Cache) : Cache :=
  mkCache (sets_num c) (set_lines c) (block_size c) (block_bits c)
          (set_bits c) (policy c) (lines c)
          (hits c) (misses c) (reads c) (add64 (writes c) 1).

Definition set_age (l : CacheLine) (a : Z) : CacheLine :=
  mkLine (valid l) (tag l) a.

(** ** Configuration helpers *)

(** [is_power_of_two]: [x != 0 && (x & (x - 1)) == 0]. *)
Definition is_power_of_two (x : Z) : bool :=
  negb (x =? 0) && (Z.land x (sub64 x 1) =? 0).

(** [log2_int]: [while (x > 1) { x >>= 1; count++; }].  A 64-bit value
    leaves the loop after at most 63 rounds, so 64 rounds of fuel never
    run out. *)
Fixpoint log2_loop (fuel : nat) (x count : Z) : Z :=
  match fuel with
  | O => count
  | S fuel' =>
      if x >? 1 then log2_loop fuel' (Z.shiftr x 1) (count + 1) else count
  end.

Definition log2_int (x : Z) : Z := log2_loop 64 x 0.

Definition empty_line : CacheLine := mkLine 0 0 0.

(** [create_cache].  The [int] product and quotient are undefined when
    they divide by zero or leave the [int] range; the conversion of an
    [int] to the [unsigned long] parameter of [log2_int] is [wrap64].
    Allocation is taken to succeed (the [exit(1)] paths after a failed
    [malloc] are not part of the model). *)
Definition create_cache (cache_size associativity block_size policy : Z)
  : option Cache :=
  let d := associativity * block_size in
  if (d =? 0) || negb (in_int d) then None
  else
    let sn := Z.quot cache_size d in
    if negb (in_int sn) then None
    else
      Some (mkCache sn associativity block_size
              (log2_int (wrap64 block_size))
              (log2_int (wrap64 sn))
              policy
              (replicate (Z.to_nat sn)
                 (replicate (Z.to_nat associativity) empty_line))
              0 0 0 0).

(** ** Address decomposition *)

Definition get_block_id (c : Cache) (address : Z) : Z :=
  Z.shiftr address (block_bits c).

Definition get_set_index (c : Cache) (address : Z) : Z :=
  let block_id := get_block_id c address in
  let mask := if set_bits c =? 0 then 0
              else sub64 (shl64 1 (set_bits c)) 1 in
  Z.land block_id mask.

Definition get_tag (c : Cache) (address : Z) : Z :=
  Z.shiftr address (block_bits c + set_bits c).

(** ** Lookup *)

Definition line_at (ls : list (list CacheLine)) (set_idx : Z) (i : nat)
  : option CacheLine :=
  s ← ls !! Z.to_nat set_idx; s !! i.

(** The scan of [find_line]: [n] rounds remain, [i] is the loop index. *)
Fixpoint find_line_loop (ls : list (list CacheLine)) (set_idx tg : Z)
    (n i : nat) : option Z :=
  match n with
  | O => Some (-1)
  | S n' =>
      l ← line_at ls set_idx i;
      if negb (valid l =? 0) && (tag l =? tg) then Some (Z.of_nat i)
      else find_line_loop ls set_idx tg n' (S i)
  end.

(** [find_line] returns the line index (or [-1]) together with the value
    stored through [set_idx_out]. *)
Definition find_line (c : Cache) (address : Z) : option (Z * Z) :=
  let set_idx := get_set_index c address in
  let tg := get_tag c address in
  i ← find_line_loop (lines c) set_idx tg (Z.to_nat (set_lines c)) 0%nat;
  Some (i, set_idx).

(** ** Replacement *)

(** The body shared by the aging loops of [update_lru_on_access] and
    [load_block]: skip an invalid line, reset the line [idx], increment
    every other valid line. *)
Fixpoint age_loop (s : list CacheLine) (idx : Z) (n i : nat)
  : option (list CacheLine) :=
  match n with
  | O => Some s
  | S n' =>
      l ← s !! i;
      if valid l =? 0 then age_loop s idx n' (S i)
      else if Z.of_nat i =? idx
           then age_loop (<[i := set_age l 0]> s) idx n' (S i)
           else age_loop (<[i := set_age l (add64 (age l) 1)]> s) idx n' (S i)
  end.

Definition update_lru_on_access (c : Cache) (set_idx line_idx : Z)
  : option Cache :=
  if negb (policy c =? POLICY_LRU) then Some c
  else if set_lines c <=? 0 then Some c
  else
    s ← lines c !! Z.to_nat set_idx;
    s' ← age_loop s line_idx (Z.to_nat (set_lines c)) 0%nat;
    Some (with_lines c (<[Z.to_nat set_idx := s']> (lines c))).

(** The slot-selection scan of [load_block]; [replace_idx] and [max_age]
    are the two locals, the result is the final [replace_idx]. *)
Fixpoint select_loop (s : list CacheLine) (n i : nat)
    (replace_idx max_age : Z) : option Z :=
  match n with
  | O => Some replace_idx
  | S n' =>
      l ← s !! i;
      if valid l =? 0 then Some (Z.of_nat i)
      else if age l >=? max_age
           then select_loop s n' (S i) (Z.of_nat i) (age l)
           else select_loop s n' (S i) replace_idx max_age
  end.

Definition select_slot (s : list CacheLine) (n : nat) : option Z :=
  select_loop s n 0%nat (-1) 0.

Definition load_block (c : Cache) (address : Z) : option Cache :=
  let set_idx := get_set_index c address in
  let tg := get_tag c address in
  s ← lines c !! Z.to_nat set_idx;
  replace_idx ← select_slot s (Z.to_nat (set_lines c));
  if replace_idx <? 0 then None
  else
    l ← s !! Z.to_nat replace_idx;
    let s1 := <[Z.to_nat replace_idx := mkLine 1 tg (age l)]> s in
    s2 ← age_loop s1 replace_idx (Z.to_nat (set_lines c)) 0%nat;
    Some (with_lines c (<[Z.to_nat set_idx := s2]> (lines c))).

(** ** Access protocol *)

Definition prefetch_next (c : Cache) (address : Z) : option Cache :=
  let block_id := get_block_id c address in
  let next_address := shl64 (add64 block_id 1) (block_bits c) in
  '(line_idx, _) ← find_line c next_address;
  if line_idx =? -1 then load_block (incr_reads c) next_address
  else Some c.

Definition simulate_read (c : Cache) (address prefetch : Z) : option Cache :=
  '(line_idx, set_idx) ← find_line c address;
  if negb (line_idx =? -1) then
    update_lru_on_access (incr_hits c) set_idx line_idx
  else
    c1 ← load_block (incr_reads (incr_misses c)) address;
    if negb (prefetch =? 0) then prefetch_next c1 address else Some c1.

Definition simulate_write (c : Cache) (address prefetch : Z) : option Cache :=
  '(line_idx, set_idx) ← find_line c address;
  if negb (line_idx =? -1) then
    update_lru_on_access (incr_writes (incr_hits c)) set_idx line_idx
  else
    c1 ← load_block (incr_reads (incr_misses c)) address;
    let c2 := incr_writes c1 in
    if negb (prefetch =? 0) then prefetch_next c2 address else Some c2.

(** ** Trace replay

    [main] hands every parsed record to [simulate_read] (operation [R]) or
    [simulate_write] (operation [W]) of each of its two caches, one with
    [prefetch = 0] and one with [prefetch = 1]. *)

Inductive Op : Type := R | W.

Definition access : Type := (Op * Z)%type.

Definition simulate (prefetch : Z) (c : Cache) (x : access) : option Cache :=
  match x with
  | (R, a) => simulate_read c a prefetch
  | (W, a) => simulate_write c a prefetch
  end.

Fixpoint run (prefetch : Z) (c : Cache) (trace : list access)
  : option Cache :=
  match trace with
  | [] => Some c
  | x :: trace' => c' ← simulate prefetch c x; run prefetch c' trace'
  end.

(** A whole simulation: construction, then replay with one prefetch flag. *)
Definition simulation (cache_size associativity block_size policy : Z)
    (prefetch : Z) (trace : list access) : option Cache :=
  c ← create_cache cache_size associativity block_size policy;
  run prefetch c trace.

Definition stats (c : Cache) : Z * Z * Z * Z :=
  (hits c, misses c, reads c, writes c).

(** ** Insertion stamps

    Auxiliary state that observes a run without influencing it: a clock
    that counts the calls of [load_block], and for every line the clock
    value at which [load_block] last filled it.  The functions below
    repeat the access protocol and thread this state along;
    [run_stamped_erase] shows that they compute the same caches. *)

Record Ghost : Type := mkGhost {
  clock : nat;
  stamp : nat -> nat -> nat
}.

Definition ghost0 : Ghost := mkGhost 0 (fun _ _ => 0%nat).

Definition stamp_slot (g : Ghost) (i k : nat) : Ghost :=
  mkGhost (S (clock g))
          (fun i' j => if decide (i' = i /\ j = k) then clock g
                       else stamp g i' j).

(** The slot [load_block] is about to fill. *)
Definition victim (c : Cache) (address : Z) : option Z :=
  s ← lines c !! Z.to_nat (get_set_index c address);
  select_slot s (Z.to_nat (set_lines c)).

Definition load_block_stamped (c : Cache) (g : Ghost) (address : Z)
  : option (Cache * Ghost) :=
  k ← victim c address;
  c' ← load_block c address;
  Some (c', stamp_slot g (Z.to_nat (get_set_index c address)) (Z.to_nat k)).

Definition prefetch_next_stamped (c : Cache) (g : Ghost) (address : Z)
  : option (Cache * Ghost) :=
  let block_id := get_block_id c address in
  let next_address := shl64 (add64 block_id 1) (block_bits c) in
  '(line_idx, _) ← find_line c next_address;
  if line_idx =? -1 then load_block_stamped (incr_reads c) g next_address
  else Some (c, g).

Definition simulate_read_stamped (c : Cache) (g : Ghost)
    (address prefetch : Z) : option (Cache * Ghost) :=
  '(line_idx, set_idx) ← find_line c address;
  if negb (line_idx =? -1) then
    c' ← update_lru_on_access (incr_hits c) set_idx line_idx; Some (c', g)
  else
    '(c1, g1) ← load_block_stamped (incr_reads (incr_misses c)) g address;
    if negb (prefetch =? 0) then prefetch_next_stamped c1 g1 address
    else Some (c1, g1).

Definition simulate_write_stamped (c : Cache) (g : Ghost)
    (address prefetch : Z) : option (Cache * Ghost) :=
  '(line_idx, set_idx) ← find_line c address;
  if negb (line_idx =? -1) then
    c' ← update_lru_on_access (incr_writes (incr_hits c)) set_idx line_idx;
    Some (c', g)
  else
    '(c1, g1) ← load_block_stamped (incr_reads (incr_misses c)) g address;
    let c2 := incr_writes c1 in
    if negb (prefetch =? 0) then prefetch_next_stamped c2 g1 address
    else Some (c2, g1).

Definition simulate_stamped (prefetch : Z) (cg : Cache * Ghost) (x : access)
  : option (Cache * Ghost) :=
  match x with
  | (R, a) => simulate_read_stamped cg.1 cg.2 a prefetch
  | (W, a) => simulate_write_stamped cg.1 cg.2 a prefetch
  end.

Fixpoint run_stamped (prefetch : Z) (cg : Cache * Ghost)
    (trace : list access) : option (Cache * Ghost) :=
  match trace with
  | [] => Some cg
  | x :: trace' =>
      cg' ← simulate_stamped prefetch cg x; run_stamped prefetch cg' trace'
  end.

(** A run of insertions alone: the addresses that successive misses load. *)
Fixpoint load_blocks_stamped (cg : Cache * Ghost) (addresses : list Z)
  : option (Cache * Ghost) :=
  match addresses with
  | [] => Some cg
  | a :: rest =>
      cg' ← load_block_stamped cg.1 cg.2 a; load_blocks_stamped cg' rest
  end.

Definition simulation_stamped (cache_size associativity block_size policy : Z)
    (prefetch : Z) (trace : list access) : option (Cache * Ghost) :=
  c ← create_cache cache_size associativity block_size policy;
  run_stamped prefetch (c, ghost0) trace.

(** ** The log of insertions

    A second observer: the list of the calls of [load_block] a run
    makes, in order, each with the cache and the stamps it was called
    on and the address it was called with.  A miss logs the call that
    loads the block; a prefetch whose block is absent logs the call
    that loads the following block.  [run_logged_erase] shows that the
    functions below compute the same caches and stamps. *)

Record Load : Type := mkLoad {
  load_cache : Cache;
  load_ghost : Ghost;
  load_address : Z
}.

Definition load_block_logged (c : Cache) (g : Ghost) (log : list Load)
    (address : Z) : option (Cache * Ghost * list Load) :=
  '(c', g') ← load_block_stamped c g address;
  Some (c', g', log ++ [mkLoad c g address]).

Definition prefetch_next_logged (c : Cache) (g : Ghost) (log : list Load)
    (address : Z) : option (Cache * Ghost * list Load) :=
  let block_id := get_block_id c address in
  let next_address := shl64 (add64 block_id 1) (block_bits c) in
  '(line_idx, _) ← find_line c next_address;
  if line_idx =? -1
  then load_block_logged (incr_reads c) g log next_address
  else Some (c, g, log).

Definition simulate_read_logged (c : Cache) (g : Ghost) (log : list Load)
    (address prefetch : Z) : option (Cache * Ghost * list Load) :=
  '(line_idx, set_idx) ← find_line c address;
  if negb (line_idx =? -1) then
    c' ← update_lru_on_access (incr_hits c) set_idx line_idx;
    Some (c', g, log)
  else
    '(c1, g1, log1) ←
      load_block_logged (incr_reads (incr_misses c)) g log address;
    if negb (prefetch =? 0) then prefetch_next_logged c1 g1 log1 address
    else Some (c1, g1, log1).

Definition simulate_write_logged (c : Cache) (g : Ghost) (log : list Load)
    (address prefetch : Z) : option (Cache * Ghost * list Load) :=
  '(line_idx, set_idx) ← find_line c address;
  if negb (line_idx =? -1) then
    c' ← update_lru_on_access (incr_writes (incr_hits c)) set_idx line_idx;
    Some (c', g, log)
  else
    '(c1, g1, log1) ←
      load_block_logged (incr_reads (incr_misses c)) g log address;
    let c2 := incr_writes c1 in
    if negb (prefetch =? 0) then prefetch_next_logged c2 g1 log1 address
    else Some (c2, g1, log1).

Definition simulate_logged (prefetch : Z) (st : Cache * Ghost * list Load)
    (x : access) : option (Cache * Ghost * list Load) :=
  match x with
  | (R, a) => simulate_read_logged st.1.1 st.1.2 st.2 a prefetch
  | (W, a) => simulate_write_logged st.1.1 st.1.2 st.2 a prefetch
  end.

Fixpoint run_logged (prefetch : Z) (st : Cache * Ghost * list Load)
    (trace : list access) : option (Cache * Ghost * list Load) :=
  match trace with
  | [] => Some st
  | x :: trace' =>
      st' ← simulate_logged prefetch st x; run_logged prefetch st' trace'
  end.

Definition simulation_logged (cache_size associativity block_size policy : Z)
    (prefetch : Z) (trace : list access)
  : option (Cache * Ghost * list Load) :=
  c ← create_cache cache_size associativity block_size policy;
  run_logged prefetch (c, ghost0, []) trace.

(** * Specification vocabulary *)

(** ** Well-formed caches

    What [create_cache] establishes for a sensible geometry and every
    operation preserves: shift amounts below the word size, a positive
    [int] number of lines per set, every set index inside the array of
    rows, every row of [set_lines] lines, every age a 64-bit value. *)

Definition line_ok (l : CacheLine) : Prop := 0 <= age l < 2 ^ 64.

Definition row_ok (n : Z) (s : list CacheLine) : Prop :=
  length s = Z.to_nat n /\ Forall line_ok s.

Record wf (c : Cache) : Prop := mkWf {
  wf_block_bits : 0 <= block_bits c;
  wf_set_bits : 0 <= set_bits c;
  wf_bits : block_bits c + set_bits c < 64;
  wf_set_lines : 0 < set_lines c <= INT_MAX;
  wf_sets : Z.of_nat (length (lines c)) = sets_num c;
  wf_index : 2 ^ set_bits c <= sets_num c;
  wf_rows : Forall (row_ok (set_lines c)) (lines c)
}.

(** The geometries [create_cache] accepts without undefined behaviour
    and for which every set index has a row: positive sizes with at
    least one set.  The power-of-two sizes [main] lets through are among
    them whenever [associativity * block_size <= cache_size]. *)
Definition valid_geometry (cache_size associativity block_size : Z) : Prop :=
  0 < associativity /\ 0 < block_size /\
  associativity * block_size <= cache_size /\ cache_size <= INT_MAX.

(** ** Rows *)

(** The test of [find_line] on one line: valid and holding the tag. *)
Definition matches (tg : Z) (l : CacheLine) : bool :=
  negb (valid l =? 0) && (tag l =? tg).

(** No line of the row at index [i] or above holds the tag. *)
Definition absent_from (i : nat) (tg : Z) (s : list CacheLine) : Prop :=
  forall j l, (i <= j)%nat -> s !! j = Some l -> matches tg l = false.

(** Line [k] is the first line at index [i] or above that holds the tag. *)
Definition first_match (i k : nat) (tg : Z) (s : list CacheLine) : Prop :=
  (i <= k)%nat /\
  (exists l, s !! k = Some l /\ matches tg l = true) /\
  forall j l, (i <= j < k)%nat -> s !! j = Some l -> matches tg l = false.

(** What one round of the aging loop does to line [j]. *)
Definition aged (idx : Z) (j : nat) (l : CacheLine) : CacheLine :=
  if valid l =? 0 then l
  else if Z.of_nat j =? idx then set_age l 0
  else set_age l (add64 (age l) 1).

(** Line [k] is the first invalid line at index [i] or above. *)
Definition invalid_first (i k : nat) (s : list CacheLine) : Prop :=
  (i <= k)%nat /\
  (exists l, s !! k = Some l /\ valid l = 0) /\
  forall j l, (i <= j < k)%nat -> s !! j = Some l -> valid l <> 0.

Definition all_valid_from (i : nat) (s : list CacheLine) : Prop :=
  forall j l, (i <= j)%nat -> s !! j = Some l -> valid l <> 0.

(** Line [k] holds the largest age among the lines at index [i] or above,
    and every line after it is strictly younger. *)
Definition oldest_last_from (i k : nat) (s : list CacheLine) : Prop :=
  (i <= k)%nat /\
  exists lk, s !! k = Some lk /\
    (forall j l, (i <= j)%nat -> s !! j = Some l -> age l <= age lk) /\
    (forall j l, (k < j)%nat -> s !! j = Some l -> age l < age lk).

(** The slot the scan selects in a non-empty row of 64-bit ages: the
    first invalid line, or else the last line of largest age. *)
Definition selected (k : nat) (s : list CacheLine) : Prop :=
  invalid_first 0 k s \/ (all_valid_from 0 s /\ oldest_last_from 0 k s).

(** An insertion ages every valid line it does not fill. *)
Definition bump (l : CacheLine) : CacheLine :=
  if valid l =? 0 then l else set_age l (add64 (age l) 1).

(** The row after a block with tag [tg] went into slot [k]. *)
Definition loaded (s : list CacheLine) (k : nat) (tg : Z) : list CacheLine :=
  imap (fun j l => if decide (j = k) then mkLine 1 tg 0 else bump l) s.

(** ** Outcomes of one access

    The paths through [simulate_read] and [simulate_write], as relations
    between the cache (and its stamps) before and after. *)

Definition next_block (c : Cache) (address : Z) : Z :=
  shl64 (add64 (get_block_id c address) 1) (block_bits c).

(** The cache after [load_block] filled slot [k] of the row [s]. *)
Definition fill_set (c : Cache) (address : Z) (s : list CacheLine) (k : nat)
  : Cache :=
  with_lines c (<[Z.to_nat (get_set_index c address) :=
                   loaded s k (get_tag c address)]> (lines c)).

(** The cache after [update_lru_on_access] on line [k] of the row [s]. *)
Definition touch (c : Cache) (set_idx : Z) (s : list CacheLine) (k : nat)
  : Cache :=
  if policy c =? POLICY_LRU
  then with_lines c (<[Z.to_nat set_idx := imap (aged (Z.of_nat k)) s]>
                       (lines c))
  else c.

Inductive inserts (c : Cache) (g : Ghost) (a : Z) : Cache -> Ghost -> Prop :=
| inserts_at s k :
    lines c !! Z.to_nat (get_set_index c a) = Some s ->
    row_ok (set_lines c) s ->
    (k < length s)%nat ->
    selected k s ->
    inserts c g a (fill_set c a s k)
            (stamp_slot g (Z.to_nat (get_set_index c a)) k).

Inductive prefetch_outcome (c : Cache) (g : Ghost) (a : Z)
  : Cache -> Ghost -> Prop :=
| prefetch_present s k :
    lines c !! Z.to_nat (get_set_index c (next_block c a)) = Some s ->
    first_match 0 k (get_tag c (next_block c a)) s ->
    prefetch_outcome c g a c g
| prefetch_absent s c' g' :
    lines c !! Z.to_nat (get_set_index c (next_block c a)) = Some s ->
    absent_from 0 (get_tag c (next_block c a)) s ->
    inserts (incr_reads c) g (next_block c a) c' g' ->
    prefetch_outcome c g a c' g'.

Inductive miss_tail (p : Z) (c : Cache) (g : Ghost) (a : Z)
  : Cache -> Ghost -> Prop :=
| tail_plain : p = 0 -> miss_tail p c g a c g
| tail_prefetch c' g' :
    p <> 0 -> prefetch_outcome c g a c' g' -> miss_tail p c g a c' g'.

Inductive access_outcome (p : Z) (c : Cache) (g : Ghost)
  : access -> Cache -> Ghost -> Prop :=
| read_hit a s k :
    lines c !! Z.to_nat (get_set_index c a) = Some s ->
    first_match 0 k (get_tag c a) s ->
    access_outcome p c g (R, a)
                   (touch (incr_hits c) (get_set_index c a) s k) g
| read_miss a s c1 g1 c2 g2 :
    lines c !! Z.to_nat (get_set_index c a) = Some s ->
    absent_from 0 (get_tag c a) s ->
    inserts (incr_reads (incr_misses c)) g a c1 g1 ->
    miss_tail p c1 g1 a c2 g2 ->
    access_outcome p c g (R, a) c2 g2
| write_hit a s k :
    lines c !! Z.to_nat (get_set_index c a) = Some s ->
    first_match 0 k (get_tag c a) s ->
    access_outcome p c g (W, a)
                   (touch (incr_writes (incr_hits c)) (get_set_index c a) s k)
                   g
| write_miss a s c1 g1 c2 g2 :
    lines c !! Z.to_nat (get_set_index c a) = Some s ->
    absent_from 0 (get_tag c a) s ->
    inserts (incr_reads (incr_misses c)) g a c1 g1 ->
    miss_tail p (incr_writes c1) g1 a c2 g2 ->
    access_outcome p c g (W, a) c2 g2.

(** ** Recombining an address *)

(** The low [block_bits] bits of an address. *)
Definition block_offset (c : Cache) (address : Z) : Z :=
  Z.land address (sub64 (shl64 1 (block_bits c)) 1).

Definition recombine (c : Cache) (address : Z) : Z :=
  Z.lor (Z.lor (shl64 (get_tag c address) (block_bits c + set_bits c))
               (shl64 (get_set_index c address) (block_bits c)))
        (block_offset c address).

(** ** Counting *)

(** The [writes] counter after an access of kind [o]. *)
Definition op_writes (o : Op) (w : Z) : Z :=
  match o with R => w | W => add64 w 1 end.

(** ** Tie-breaking, as the specification words it *)


(** ** Concrete caches used in examples *)

(** [create_cache 32 1 4 POLICY_FIFO]: eight sets of one line. *)
Definition direct_mapped : Cache :=
  mkCache 8 1 4 2 3 POLICY_FIFO (replicate 8 [empty_line]) 0 0 0 0.

(** One set of two lines under LRU, after read 0x0 and read 0x4. *)
Definition lru_pair : Cache :=
  mkCache 1 2 4 2 0 POLICY_LRU [[mkLine 1 0 1; mkLine 1 1 0]] 0 2 2 0.

(** One set of two valid lines of equal age. *)
Definition tie_cache : Cache :=
  mkCache 1 2 4 2 0 POLICY_FIFO [[mkLine 1 7 5; mkLine 1 9 5]] 0 0 0 0.

(** The number of write records of a trace. *)
Fixpoint count_writes (trace : list access) : Z :=
  match trace with
  | [] => 0
  | (W, _) :: trace' => count_writes trace' + 1
  | (R, _) :: trace' => count_writes trace'
  end.

(** The counters of a cache that has processed [trace] from zeroed
    counters, none of them having wrapped. *)
Definition tally (trace : list access) (c : Cache) : Prop :=
  hits c + misses c = Z.of_nat (length trace) /\
  0 <= hits c /\ 0 <= misses c /\
  writes c = count_writes trace /\
  misses c <= reads c <= 2 * misses c.

(** ** Tag uniqueness *)

Definition unique_tags (s : list CacheLine) : Prop :=
  forall i j li lj,
    s !! i = Some li -> s !! j = Some lj ->
    valid li <> 0 -> valid lj <> 0 -> tag li = tag lj -> i = j.

Definition all_unique (c : Cache) : Prop :=
  forall i s, lines c !! i = Some s -> unique_tags s.

(** ** Insertion order *)

(** Among the valid lines of row [i], a line was filled earlier exactly
    when its age is larger, and no two lines were filled at the same
    time. *)
Definition stamps_order (g : Ghost) (i : nat) (s : list CacheLine) : Prop :=
  forall j1 j2 l1 l2,
    s !! j1 = Some l1 -> s !! j2 = Some l2 ->
    valid l1 <> 0 -> valid l2 <> 0 ->
    ((stamp g i j1 < stamp g i j2)%nat <-> age l2 < age l1) /\
    (stamp g i j1 = stamp g i j2 -> j1 = j2).

(** Every valid line of row [i] was filled before the current clock. *)
Definition stamps_past (g : Ghost) (i : nat) (s : list CacheLine) : Prop :=
  forall j l, s !! j = Some l -> valid l <> 0 -> (stamp g i j < clock g)%nat.

(** The shape of a row of [n] lines under FIFO after [T] insertions:
    the insertions went round the row in index order, so the first [T]
    lines are valid and the age of line [j] is the number of insertions
    since the last one that landed on [j]. *)
Definition fifo_row (n T : Z) (s : list CacheLine) : Prop :=
  forall j l, s !! j = Some l ->
    (valid l <> 0 <-> Z.of_nat j < T) /\
    (Z.of_nat j < T -> age l = (T - 1 - Z.of_nat j) mod n).

Definition fifo_inv (c : Cache) (g : Ghost) : Prop :=
  policy c <> POLICY_LRU /\
  forall i s, lines c !! i = Some s ->
    (exists T, 0 <= T /\ fifo_row (set_lines c) T s) /\
    stamps_order g i s /\ stamps_past g i s.

(** ** The line hit last under LRU

    [protects i k T0 s1 m c g]: in set [i] of [c], as long as line [k]
    has not been refilled since clock [T0] it is valid and strictly
    younger than every valid line that has not been refilled since
    [T0] either; the lines that were valid in [s1] (the row at clock
    [T0]) stay valid until they are refilled; and once line [k] has been
    refilled, every other line that was valid in [s1] has been refilled
    too.  [m] more increments keep every age of the row below the
    64-bit limit. *)
Definition protects (i k T0 : nat) (s1 : list CacheLine) (m : Z)
    (c : Cache) (g : Ghost) : Prop :=
  (T0 <= clock g)%nat /\
  exists s, lines c !! i = Some s /\
    (forall j l, s !! j = Some l -> age l + m < 2 ^ 64 - 1) /\
    (forall j l1, j <> k -> s1 !! j = Some l1 -> valid l1 <> 0 ->
       (T0 <= stamp g i j)%nat \/ exists l, s !! j = Some l /\ valid l <> 0) /\
    ((stamp g i k < T0)%nat ->
       exists lk, s !! k = Some lk /\ valid lk <> 0 /\
         forall j l, j <> k -> s !! j = Some l -> valid l <> 0 ->
                     (stamp g i j < T0)%nat -> age lk < age l) /\
    ((T0 <= stamp g i k)%nat ->
       forall j l1, j <> k -> s1 !! j = Some l1 -> valid l1 <> 0 ->
                    (T0 <= stamp g i j)%nat).


(** * Further vocabulary

    Definitions used by the properties of the remaining code. *)

(** Two addresses of the same block. *)
Definition same_block (c : Cache) (a a' : Z) : Prop :=
  get_block_id c a = get_block_id c a'.

(** The block of an address is in the cache: its set holds a valid line
    with its tag. *)
Definition present (c : Cache) (a : Z) : Prop :=
  exists s j l,
    lines c !! Z.to_nat (get_set_index c a) = Some s /\
    s !! j = Some l /\ valid l <> 0 /\ tag l = get_tag c a.

(** [create_cache 4 1 4 POLICY_FIFO]: one set of one line. *)
Definition one_line : Cache :=
  mkCache 1 1 4 2 0 POLICY_FIFO [[empty_line]] 0 0 0 0.

(** The valid lines of a row are exactly its first [m] lines. *)
Definition valid_prefix (m : nat) (s : list CacheLine) : Prop :=
  (m <= length s)%nat /\
  forall j l, s !! j = Some l -> (valid l <> 0 <-> (j < m)%nat).

Definition all_prefixes (c : Cache) : Prop :=
  forall i s, lines c !! i = Some s -> exists m, valid_prefix m s.

(** No two valid lines of a row have the same age. *)
Definition distinct_ages (s : list CacheLine) : Prop :=
  forall j1 j2 l1 l2,
    s !! j1 = Some l1 -> s !! j2 = Some l2 ->
    valid l1 <> 0 -> valid l2 <> 0 -> age l1 = age l2 -> j1 = j2.

(** Every row has distinct ages, and [m] more increments keep every age
    below the 64-bit limit. *)
Definition spread (m : Z) (c : Cache) : Prop :=
  forall i s, lines c !! i = Some s ->
    distinct_ages s /\ forall j l, s !! j = Some l -> age l + m < 2 ^ 64 - 1.

(** ** [main]

    The command line is the list [argv] of C strings; the C library
    calls are modelled by what the C standard says they return.  The
    trace file enters as the list of its lines after [fgets], [strncmp]
    and [sscanf] have classified them. *)

(** [isspace] and [isdigit] in the C locale. *)
Definition isspace (ch : ascii) : bool :=
  let n := nat_of_ascii ch in
  (n =? 32)%nat || ((9 <=? n)%nat && (n <=? 13)%nat).

Definition isdigit (ch : ascii) : bool :=
  let n := nat_of_ascii ch in (48 <=? n)%nat && (n <=? 57)%nat.

Fixpoint skip_spaces (s : string) : string :=
  match s with
  | String ch rest => if isspace ch then skip_spaces rest else s
  | EmptyString => s
  end.

(** The value of the longest prefix of decimal digits. *)
Fixpoint digits_value (s : string) (acc : Z) : Z :=
  match s with
  | String ch rest =>
      if isdigit ch
      then digits_value rest (10 * acc + (Z.of_nat (nat_of_ascii ch) - 48))
      else acc
  | EmptyString => acc
  end.

(** [atoi]: leading white space, an optional sign, then decimal digits
    (0 when there is none).  The C standard leaves the behaviour
    undefined when the value is not an [int]. *)
Definition atoi (s : string) : option Z :=
  let s1 := skip_spaces s in
  let '(negative, s2) :=
    match s1 with
    | String "-"%char rest => (true, rest)
    | String "+"%char rest => (false, rest)
    | _ => (false, s1)
    end in
  let v := digits_value s2 0 in
  let r := if negative then - v else v in
  if in_int r then Some r else None.

(** The ways [main] gives up before the simulation, one per message. *)
Inductive Failure : Type :=
| UsageError
| SizeNotPowerOfTwo
| InvalidPolicy
| AssociativityNotPowerOfTwo
| InvalidAssociativity
| CannotOpenTrace.

Record Config : Type := mkConfig {
  cfg_cache_size : Z;
  cfg_associativity : Z;
  cfg_policy : Z;
  cfg_block_size : Z
}.

(** The argument handling of [main], up to the calls of [create_cache].
    [strcmp(s, t) == 0] is [String.eqb], [strncmp(s, "assoc:", 6) == 0]
    is [prefix], [assoc_str + 6] drops six characters.  An [int]
    argument of [is_power_of_two] is converted to [unsigned long]. *)
Definition main_configuration (argv : list string)
  : option (Failure + Config) :=
  match argv with
  | [_; arg1; assoc_str; policy_str; arg4; _] =>
      cache_size ← atoi arg1;
      block_size ← atoi arg4;
      if negb (is_power_of_two (wrap64 cache_size))
         || negb (is_power_of_two (wrap64 block_size))
      then Some (inl SizeNotPowerOfTwo)
      else
        let policy :=
          if String.eqb policy_str "fifo"%string then Some POLICY_FIFO
          else if String.eqb policy_str "lru"%string then Some POLICY_LRU
          else None in
        match policy with
        | None => Some (inl InvalidPolicy)
        | Some policy =>
            if String.eqb assoc_str "direct"%string then
              Some (inr (mkConfig cache_size 1 policy block_size))
            else if String.eqb assoc_str "assoc"%string then
              if block_size =? 0 then None
              else Some (inr (mkConfig cache_size
                                (Z.quot cache_size block_size)
                                policy block_size))
            else if String.prefix "assoc:"%string assoc_str then
              associativity ← atoi (substring 6 (String.length assoc_str - 6)
                                      assoc_str);
              if negb (is_power_of_two (wrap64 associativity))
              then Some (inl AssociativityNotPowerOfTwo)
              else Some (inr (mkConfig cache_size associativity policy
                                block_size))
            else Some (inl InvalidAssociativity)
        end
  | _ => Some (inl UsageError)
  end.

(** A line of the trace file as the loop of [main] sees it: it starts
    with [#eof], or [sscanf] read a program counter, an operation
    character and an address from it, or [sscanf] did not. *)
Inductive TraceLine : Type :=
| EofLine
| Parsed (pc : Z) (op : ascii) (address : Z)
| Unparsed.

(** The replay loop of [main] over the two caches. *)
Fixpoint main_replay (trace_lines : list TraceLine)
    (cache_no_prefetch cache_prefetch : Cache) : option (Cache * Cache) :=
  match trace_lines with
  | [] => Some (cache_no_prefetch, cache_prefetch)
  | EofLine :: _ => Some (cache_no_prefetch, cache_prefetch)
  | Parsed _ op address :: rest =>
      if Ascii.eqb op "R"%char then
        c0 ← simulate_read cache_no_prefetch address 0;
        c1 ← simulate_read cache_prefetch address 1;
        main_replay rest c0 c1
      else if Ascii.eqb op "W"%char then
        c0 ← simulate_write cache_no_prefetch address 0;
        c1 ← simulate_write cache_prefetch address 1;
        main_replay rest c0 c1
      else main_replay rest cache_no_prefetch cache_prefetch
  | Unparsed :: rest => main_replay rest cache_no_prefetch cache_prefetch
  end.

(** [main] from the command line to the two caches it reports:
    [trace_lines] is [None] when [fopen] fails. *)
Definition main (argv : list string) (trace_lines : option (list TraceLine))
  : option (Failure + Cache * Cache) :=
  r ← main_configuration argv;
  match r with
  | inl failure => Some (inl failure)
  | inr cfg =>
      cache_no_prefetch ← create_cache (cfg_cache_size cfg)
                            (cfg_associativity cfg) (cfg_block_size cfg)
                            (cfg_policy cfg);
      cache_prefetch ← create_cache (cfg_cache_size cfg)
                         (cfg_associativity cfg) (cfg_block_size cfg)
                         (cfg_policy cfg);
      match trace_lines with
      | None => Some (inl CannotOpenTrace)
      | Some ls =>
          caches ← main_replay ls cache_no_prefetch cache_prefetch;
          Some (inr caches)
      end
  end.

(** The accesses a trace file amounts to: the read and write records
    before the first [#eof] line. *)
Fixpoint accesses (trace_lines : list TraceLine) : list access :=
  match trace_lines with
  | [] => []
  | EofLine :: _ => []
  | Parsed _ op address :: rest =>
      if Ascii.eqb op "R"%char then (R, address) :: accesses rest
      else if Ascii.eqb op "W"%char then (W, address) :: accesses rest
      else accesses rest
  | Unparsed :: rest => accesses rest
  end.

(** ** The insertions of one access *)



(** ** Eviction, as the specification words it *)


(** The address and the selected slot of each logged call. *)
Definition selections (log : list Load) : list (Z * option Z) :=
  map (fun e => (load_address e, victim (load_cache e) (load_address e))) log.
(** * Properties *)

(** ** Machine arithmetic *)

Lemma wrap64_range x : 0 <= wrap64 x < 2 ^ 64.
Proof. unfold wrap64. apply Z.mod_pos_bound. lia. Qed.

Lemma wrap64_small x : 0 <= x < 2 ^ 64 -> wrap64 x = x.
Proof. intros H. unfold wrap64. now apply Z.mod_small. Qed.

Lemma add64_range x y : 0 <= add64 x y < 2 ^ 64.
Proof. apply wrap64_range. Qed.

Lemma add64_small x : 0 <= x < 2 ^ 64 - 1 -> add64 x 1 = x + 1.
Proof. intros H. unfold add64. apply wrap64_small. lia. Qed.

(** [log2_int] is the floor of the binary logarithm. *)
Lemma log2_loop_spec fuel : forall x count,
  0 <= x < 2 ^ Z.of_nat fuel -> log2_loop fuel x count = count + Z.log2 x.
Proof.
  induction fuel as [|fuel IH]; intros x count Hx.
  - simpl in *. assert (x = 0) by lia. subst. simpl. lia.
  - cbn [log2_loop]. destruct (x >? 1) eqn:E.
    + apply Z.gtb_lt in E.
      rewrite IH.
      * rewrite Z.log2_shiftr by lia.
        assert (0 < Z.log2 x) by (apply Z.log2_pos; lia). lia.
      * rewrite Z.shiftr_div_pow2 by lia.
        rewrite Nat2Z.inj_succ, Z.pow_succ_r in Hx by lia.
        change (2 ^ 1) with 2. split.
        -- apply Z.div_pos; lia.
        -- apply Z.div_lt_upper_bound; lia.
    + assert (x <= 1) by (rewrite Z.gtb_ltb in E; apply Z.ltb_ge in E; lia).
      assert (Hc : x = 0 \/ x = 1) by lia.
      destruct Hc; subst; simpl; lia.
Qed.

Lemma log2_int_spec x : 0 <= x < 2 ^ 64 -> log2_int x = Z.log2 x.
Proof. intros H. unfold log2_int. now rewrite log2_loop_spec. Qed.

(** ** Construction

    [create_cache] returns on every valid geometry, and the cache it
    returns is well-formed, empty and has zeroed counters. *)

Lemma create_cache_wf cs assoc bs pol :
  valid_geometry cs assoc bs ->
  exists c, create_cache cs assoc bs pol = Some c /\ wf c /\
            policy c = pol /\ stats c = (0, 0, 0, 0) /\
            Forall (Forall (fun l => valid l = 0)) (lines c).
Proof.
  intros (Ha & Hb & Hle & Hmax).
  unfold INT_MAX in Hmax.
  assert (Hd : 0 < assoc * bs) by nia.
  assert (Hq : 1 <= Z.quot cs (assoc * bs) <= cs).
  { rewrite Z.quot_div_nonneg by lia. split.
    - apply Z.div_le_lower_bound; lia.
    - apply Z.div_le_upper_bound; nia. }
  unfold create_cache.
  assert (E1 : (assoc * bs =? 0) || negb (in_int (assoc * bs)) = false).
  { apply orb_false_iff. split; [apply Z.eqb_neq; lia|].
    apply negb_false_iff. unfold in_int, INT_MIN, INT_MAX.
    apply andb_true_iff. split; apply Z.leb_le; lia. }
  assert (E2 : negb (in_int (Z.quot cs (assoc * bs))) = false).
  { apply negb_false_iff. unfold in_int, INT_MIN, INT_MAX.
    apply andb_true_iff. split; apply Z.leb_le; lia. }
  rewrite E1, E2. eexists. split; [reflexivity|].
  set (sn := Z.quot cs (assoc * bs)) in *.
  assert (Hbs : bs < 2 ^ 31) by nia.
  assert (Hlb : log2_int (wrap64 bs) = Z.log2 bs).
  { rewrite wrap64_small by lia. apply log2_int_spec. lia. }
  assert (Hls : log2_int (wrap64 sn) = Z.log2 sn).
  { rewrite wrap64_small by lia. apply log2_int_spec. lia. }
  assert (Z.log2 bs < 31) by (apply Z.log2_lt_pow2; lia).
  assert (Z.log2 sn < 31) by (apply Z.log2_lt_pow2; lia).
  split; [|split; [reflexivity|split; [reflexivity|]]].
  - constructor; cbn [block_bits set_bits set_lines lines sets_num].
    + rewrite Hlb. apply Z.log2_nonneg.
    + rewrite Hls. apply Z.log2_nonneg.
    + rewrite Hlb, Hls. lia.
    + unfold INT_MAX. nia.
    + rewrite length_replicate. lia.
    + rewrite Hls. apply Z.log2_spec. lia.
    + apply Forall_replicate. split.
      * apply length_replicate.
      * apply Forall_replicate. unfold line_ok. simpl. lia.
  - cbn [lines]. apply Forall_replicate, Forall_replicate. reflexivity.
Qed.

(** ** Set indices *)

Lemma get_set_index_range c a :
  wf c -> 0 <= get_set_index c a < sets_num c.
Proof.
  intros Hwf. destruct Hwf as [Hb Hs Hbits Hl Hsets Hidx Hrows].
  unfold get_set_index. destruct (set_bits c =? 0) eqn:E.
  - apply Z.eqb_eq in E. rewrite E in Hidx. rewrite Z.land_0_r.
    change (2 ^ 0) with 1 in Hidx. lia.
  - apply Z.eqb_neq in E.
    assert (Hp : 0 < 2 ^ set_bits c) by (apply Z.pow_pos_nonneg; lia).
    assert (Hlt : 2 ^ set_bits c < 2 ^ 64) by (apply Z.pow_lt_mono_r; lia).
    unfold sub64, shl64. rewrite Z.shiftl_1_l.
    rewrite (wrap64_small (2 ^ set_bits c)) by lia.
    rewrite wrap64_small by lia.
    replace (2 ^ set_bits c - 1) with (Z.ones (set_bits c))
      by (rewrite Z.ones_equiv; lia).
    rewrite Z.land_ones by lia.
    pose proof (Z.mod_pos_bound (get_block_id c a) (2 ^ set_bits c) Hp). lia.
Qed.

Lemma lookup_set c a :
  wf c ->
  exists s, lines c !! Z.to_nat (get_set_index c a) = Some s /\
            row_ok (set_lines c) s.
Proof.
  intros Hwf. pose proof (get_set_index_range c a Hwf) as Hr.
  destruct (lookup_lt_is_Some_2 (lines c) (Z.to_nat (get_set_index c a)))
    as [s Hs].
  { pose proof (wf_sets c Hwf). lia. }
  exists s. split; [exact Hs|].
  exact (proj1 (Forall_lookup _ _) (wf_rows c Hwf) _ _ Hs).
Qed.

(** ** The lookup scan *)

Lemma matches_true tg l : matches tg l = true <-> valid l <> 0 /\ tag l = tg.
Proof.
  unfold matches. rewrite andb_true_iff, negb_true_iff, Z.eqb_neq, Z.eqb_eq.
  tauto.
Qed.

Lemma find_line_loop_spec ls set_idx s tg :
  ls !! Z.to_nat set_idx = Some s ->
  forall n i, (i + n = length s)%nat ->
    (exists k, find_line_loop ls set_idx tg n i = Some (Z.of_nat k) /\
               first_match i k tg s) \/
    (find_line_loop ls set_idx tg n i = Some (-1) /\ absent_from i tg s).
Proof.
  intros Hs. induction n as [|n IH]; intros i Hlen.
  - right. split; [reflexivity|]. intros j l Hj Hl.
    apply lookup_lt_Some in Hl. lia.
  - cbn [find_line_loop]. unfold line_at. rewrite Hs. cbn [mbind option_bind].
    destruct (lookup_lt_is_Some_2 s i) as [l Hl]; [lia|].
    rewrite Hl. cbn [mbind option_bind].
    fold (matches tg l). destruct (matches tg l) eqn:Em.
    + left. exists i. split; [reflexivity|]. split; [lia|]. split.
      * exists l. auto.
      * intros j l' Hj. lia.
    + destruct (IH (S i)) as [(k & Hk & Hle & Hm & Hbefore)|[Hk Habs]]; [lia| |].
      * left. exists k. split; [exact Hk|]. split; [lia|]. split; [exact Hm|].
        intros j l' Hj Hl'. destruct (decide (j = i)) as [->|Hne].
        -- congruence.
        -- apply (Hbefore j); [lia|exact Hl'].
      * right. split; [exact Hk|]. intros j l' Hj Hl'.
        destruct (decide (j = i)) as [->|Hne].
        -- congruence.
        -- apply (Habs j); [lia|exact Hl'].
Qed.

(** [find_line] on a well-formed cache: a hit on the first matching line
    of the target set, or a miss when no line of the set matches. *)
Lemma find_line_spec c a :
  wf c ->
  exists s, lines c !! Z.to_nat (get_set_index c a) = Some s /\
    row_ok (set_lines c) s /\
    ((exists k, find_line c a = Some (Z.of_nat k, get_set_index c a) /\
                first_match 0 k (get_tag c a) s) \/
     (find_line c a = Some (-1, get_set_index c a) /\
      absent_from 0 (get_tag c a) s)).
Proof.
  intros Hwf. destruct (lookup_set c a Hwf) as (s & Hs & Hrow).
  exists s. split; [exact Hs|]. split; [exact Hrow|].
  unfold find_line.
  destruct (find_line_loop_spec (lines c) _ s (get_tag c a) Hs
              (Z.to_nat (set_lines c)) 0%nat) as [(k & Hk & Hm)|[Hk Habs]].
  - destruct Hrow as [Hlen _]. lia.
  - left. exists k. rewrite Hk. split; [reflexivity|exact Hm].
  - right. rewrite Hk. split; [reflexivity|exact Habs].
Qed.

(** ** The aging pass *)

Lemma age_loop_step s idx n i l :
  s !! i = Some l ->
  age_loop s idx (S n) i = age_loop (<[i := aged idx i l]> s) idx n (S i).
Proof.
  intros Hl. cbn [age_loop]. rewrite Hl. cbn [mbind option_bind].
  unfold aged. destruct (valid l =? 0).
  - now rewrite list_insert_id.
  - destruct (Z.of_nat i =? idx); reflexivity.
Qed.

Lemma age_loop_lookup idx : forall n s i,
  (i + n <= length s)%nat ->
  exists s', age_loop s idx n i = Some s' /\ length s' = length s /\
    forall j, s' !! j =
      if bool_decide (i <= j < i + n)%nat then aged idx j <$> s !! j
      else s !! j.
Proof.
  induction n as [|n IH]; intros s i Hlen.
  - exists s. split; [reflexivity|]. split; [reflexivity|].
    intros j. rewrite bool_decide_eq_false_2 by lia. reflexivity.
  - destruct (lookup_lt_is_Some_2 s i) as [l Hl]; [lia|].
    rewrite (age_loop_step _ _ _ _ _ Hl).
    destruct (IH (<[i := aged idx i l]> s) (S i)) as (s' & Hs' & Hlen' & Hlk).
    { rewrite length_insert. lia. }
    exists s'. split; [exact Hs'|]. split.
    { rewrite Hlen'. apply length_insert. }
    intros j. rewrite Hlk. destruct (decide (j = i)) as [->|Hne].
    + rewrite bool_decide_eq_false_2 by lia.
      rewrite bool_decide_eq_true_2 by lia.
      rewrite list_lookup_insert_eq by lia. now rewrite Hl.
    + rewrite list_lookup_insert_ne by congruence.
      destruct (decide (S i <= j < S i + n)%nat).
      * rewrite !bool_decide_eq_true_2 by lia. reflexivity.
      * rewrite !bool_decide_eq_false_2 by lia. reflexivity.
Qed.

(** Over a whole row the aging loop is a map with index. *)
Lemma age_loop_full s idx :
  age_loop s idx (length s) 0 = Some (imap (aged idx) s).
Proof.
  destruct (age_loop_lookup idx (length s) s 0%nat) as (s' & Hs' & Hlen & Hlk);
    [lia|].
  rewrite Hs'. f_equal. apply list_eq. intros j.
  rewrite Hlk, list_lookup_imap.
  destruct (decide (j < length s)%nat).
  - rewrite bool_decide_eq_true_2 by lia. reflexivity.
  - rewrite bool_decide_eq_false_2 by lia.
    rewrite lookup_ge_None_2 by lia. reflexivity.
Qed.

(** ** The slot-selection scan *)

Lemma select_loop_spec s : forall n i r m,
  (i + n = length s)%nat ->
  exists r', select_loop s n i r m = Some r' /\
    ((exists k, r' = Z.of_nat k /\ invalid_first i k s) \/
     (all_valid_from i s /\
      ((r' = r /\ forall j l, (i <= j)%nat -> s !! j = Some l -> age l < m) \/
       (exists k lk, r' = Z.of_nat k /\ s !! k = Some lk /\ m <= age lk /\
                     oldest_last_from i k s)))).
Proof.
  induction n as [|n IH]; intros i r m Hlen.
  - exists r. split; [reflexivity|]. right. split.
    + intros j l Hj Hl. apply lookup_lt_Some in Hl. lia.
    + left. split; [reflexivity|]. intros j l Hj Hl.
      apply lookup_lt_Some in Hl. lia.
  - cbn [select_loop].
    destruct (lookup_lt_is_Some_2 s i) as [l Hl]; [lia|].
    rewrite Hl. cbn [mbind option_bind].
    destruct (valid l =? 0) eqn:Ev.
    { apply Z.eqb_eq in Ev. exists (Z.of_nat i). split; [reflexivity|].
      left. exists i. split; [reflexivity|]. split; [lia|]. split.
      - exists l. auto.
      - intros j l' Hj. lia. }
    apply Z.eqb_neq in Ev.
    assert (Hext : forall (P : nat -> CacheLine -> Prop),
              P i l ->
              (forall j l', (S i <= j)%nat -> s !! j = Some l' -> P j l') ->
              forall j l', (i <= j)%nat -> s !! j = Some l' -> P j l').
    { intros P Hi Hrest j l' Hj Hl'. destruct (decide (j = i)) as [->|Hne].
      - assert (l' = l) by congruence. subst. exact Hi.
      - apply Hrest; [lia|exact Hl']. }
    destruct (age l >=? m) eqn:Ea.
    + assert (m <= age l) by (rewrite Z.geb_leb in Ea; now apply Z.leb_le in Ea).
      destruct (IH (S i) (Z.of_nat i) (age l)) as (r' & Hr' & Hcase); [lia|].
      exists r'. split; [exact Hr'|].
      destruct Hcase as [(k & -> & Hle & Hk & Hbefore)|[Hall Hcase]].
      * left. exists k. split; [reflexivity|]. split; [lia|]. split; [exact Hk|].
        intros j l' [Hj1 Hj2] Hl'.
        refine (Hext (fun j l' => (j < k)%nat -> valid l' <> 0) _ _
                  j l' Hj1 Hl' Hj2); [auto|].
        intros j0 l0 Hj0 Hl0 Hlt. apply (Hbefore j0); [lia|exact Hl0].
      * right. split.
        { exact (Hext (fun _ l' => valid l' <> 0) Ev Hall). }
        right. destruct Hcase as [[-> Hlt]|(k & lk & -> & Hk & Hm & Hle & Hold)].
        -- exists i, l. split; [reflexivity|]. split; [exact Hl|].
           split; [lia|]. split; [lia|]. exists l. split; [exact Hl|]. split.
           ++ apply (Hext (fun _ l' => age l' <= age l)); [lia|].
              intros j l' Hj Hl'. specialize (Hlt j l' Hj Hl'). lia.
           ++ intros j l' Hj Hl'. apply (Hlt j); [lia|exact Hl'].
        -- exists k, lk. split; [reflexivity|]. split; [exact Hk|].
           split; [lia|]. split; [lia|].
           destruct Hold as (lk' & Hk' & Hmax & Hafter).
           assert (lk' = lk) by congruence. subst lk'.
           exists lk. split; [exact Hk|]. split; [|exact Hafter].
           apply (Hext (fun _ l' => age l' <= age lk)); [lia|exact Hmax].
    + assert (age l < m)
        by (rewrite Z.geb_leb in Ea; apply Z.leb_gt in Ea; lia).
      destruct (IH (S i) r m) as (r' & Hr' & Hcase); [lia|].
      exists r'. split; [exact Hr'|].
      destruct Hcase as [(k & -> & Hle & Hk & Hbefore)|[Hall Hcase]].
      * left. exists k. split; [reflexivity|]. split; [lia|]. split; [exact Hk|].
        intros j l' [Hj1 Hj2] Hl'.
        refine (Hext (fun j l' => (j < k)%nat -> valid l' <> 0) _ _
                  j l' Hj1 Hl' Hj2); [auto|].
        intros j0 l0 Hj0 Hl0 Hlt. apply (Hbefore j0); [lia|exact Hl0].
      * right. split.
        { exact (Hext (fun _ l' => valid l' <> 0) Ev Hall). }
        destruct Hcase as [[-> Hlt]|(k & lk & -> & Hk & Hm & Hle & Hold)].
        -- left. split; [reflexivity|].
           apply (Hext (fun _ l' => age l' < m)); [lia|exact Hlt].
        -- right. exists k, lk. split; [reflexivity|]. split; [exact Hk|].
           split; [lia|]. split; [lia|].
           destruct Hold as (lk' & Hk' & Hmax & Hafter).
           assert (lk' = lk) by congruence. subst lk'.
           exists lk. split; [exact Hk|]. split; [|exact Hafter].
           apply (Hext (fun _ l' => age l' <= age lk)); [lia|exact Hmax].
Qed.

Lemma select_slot_spec s :
  (0 < length s)%nat -> Forall line_ok s ->
  exists k, select_slot s (length s) = Some (Z.of_nat k) /\
            (k < length s)%nat /\ selected k s.
Proof.
  intros Hne Hok. unfold select_slot.
  destruct (select_loop_spec s (length s) 0%nat (-1) 0) as (r' & Hr' & Hcase);
    [lia|].
  rewrite Hr'.
  destruct Hcase as [(k & -> & Hk)|[Hall [[-> Hlt]|(k & lk & -> & Hk & _ & Hold)]]].
  - exists k. split; [reflexivity|]. split; [|left; exact Hk].
    destruct Hk as (_ & (l & Hl & _) & _). now apply lookup_lt_Some in Hl.
  - exfalso. destruct (lookup_lt_is_Some_2 s 0%nat) as [l Hl]; [lia|].
    specialize (Hlt 0%nat l (Nat.le_refl _) Hl).
    pose proof (proj1 (Forall_lookup _ _) Hok _ _ Hl) as Hage.
    unfold line_ok in Hage. lia.
  - exists k. split; [reflexivity|]. split; [|right; split; assumption].
    now apply lookup_lt_Some in Hk.
Qed.

(** ** Insertion *)

Lemma loaded_aged s k tg l :
  s !! k = Some l ->
  imap (aged (Z.of_nat k)) (<[k := mkLine 1 tg (age l)]> s) = loaded s k tg.
Proof.
  intros Hl. apply list_eq. intros j. unfold loaded.
  rewrite !list_lookup_imap. destruct (decide (j = k)) as [->|Hne].
  - rewrite list_lookup_insert_eq by (now apply lookup_lt_Some in Hl).
    rewrite Hl. cbn. unfold aged. cbn. now rewrite Z.eqb_refl.
  - rewrite list_lookup_insert_ne by congruence.
    destruct (s !! j) as [l'|]; [|reflexivity]. cbn. f_equal.
    unfold aged, bump. destruct (valid l' =? 0); [reflexivity|].
    assert (E : (Z.of_nat j =? Z.of_nat k) = false) by (apply Z.eqb_neq; lia).
    now rewrite E.
Qed.

Lemma loaded_lookup s k tg j :
  loaded s k tg !! j =
  (fun l => if decide (j = k) then mkLine 1 tg 0 else bump l) <$> s !! j.
Proof. unfold loaded. apply list_lookup_imap. Qed.

Lemma bump_ok l : line_ok l -> line_ok (bump l).
Proof.
  unfold bump, line_ok. intros H. destruct (valid l =? 0); [exact H|].
  cbn. apply add64_range.
Qed.

Lemma aged_ok idx j l : line_ok l -> line_ok (aged idx j l).
Proof.
  unfold aged, line_ok. intros H. destruct (valid l =? 0); [exact H|].
  destruct (Z.of_nat j =? idx); cbn; [lia|apply add64_range].
Qed.

Lemma loaded_row_ok n s k tg : row_ok n s -> row_ok n (loaded s k tg).
Proof.
  intros [Hlen Hok]. split.
  - unfold loaded. now rewrite length_imap.
  - apply Forall_lookup. intros j l Hl. rewrite loaded_lookup in Hl.
    destruct (s !! j) as [l0|] eqn:E; [|discriminate]. cbn in Hl.
    injection Hl as <-. destruct (decide (j = k)).
    + unfold line_ok. cbn. lia.
    + apply bump_ok. exact (proj1 (Forall_lookup _ _) Hok _ _ E).
Qed.

Lemma aged_row_ok n s idx : row_ok n s -> row_ok n (imap (aged idx) s).
Proof.
  intros [Hlen Hok]. split.
  - now rewrite length_imap.
  - apply Forall_lookup. intros j l Hl. rewrite list_lookup_imap in Hl.
    destruct (s !! j) as [l0|] eqn:E; [|discriminate]. cbn in Hl.
    injection Hl as <-. apply aged_ok.
    exact (proj1 (Forall_lookup _ _) Hok _ _ E).
Qed.

(** ** The operations on a well-formed cache *)

Lemma wf_with_lines c i s :
  wf c -> row_ok (set_lines c) s -> wf (with_lines c (<[i := s]> (lines c))).
Proof.
  intros [Hb Hs Hbits Hl Hsets Hidx Hrows] Hrow.
  constructor; cbn; try assumption.
  - now rewrite length_insert.
  - apply Forall_insert; assumption.
Qed.

Lemma wf_incr_hits c : wf c -> wf (incr_hits c).
Proof. intros []; constructor; assumption. Qed.

Lemma wf_incr_misses c : wf c -> wf (incr_misses c).
Proof. intros []; constructor; assumption. Qed.

Lemma wf_incr_reads c : wf c -> wf (incr_reads c).
Proof. intros []; constructor; assumption. Qed.

Lemma wf_incr_writes c : wf c -> wf (incr_writes c).
Proof. intros []; constructor; assumption. Qed.

Create HintDb wfdb.

#[local] Hint Resolve wf_incr_hits wf_incr_misses wf_incr_reads
  wf_incr_writes : wfdb.

(** [load_block] never leaves the row: it fills the slot the scan
    selected and ages the rest of the row. *)
Lemma load_block_spec c a :
  wf c ->
  exists s k,
    lines c !! Z.to_nat (get_set_index c a) = Some s /\
    row_ok (set_lines c) s /\
    (k < length s)%nat /\
    select_slot s (Z.to_nat (set_lines c)) = Some (Z.of_nat k) /\
    selected k s /\
    load_block c a =
      Some (with_lines c (<[Z.to_nat (get_set_index c a) :=
                             loaded s k (get_tag c a)]> (lines c))).
Proof.
  intros Hwf. destruct (lookup_set c a Hwf) as (s & Hs & Hrow).
  pose proof Hrow as [Hlen Hok].
  pose proof (wf_set_lines c Hwf) as Hpos.
  destruct (select_slot_spec s) as (k & Hsel & Hk & Hselected); [lia|exact Hok|].
  exists s, k. rewrite <- Hlen.
  repeat (split; [assumption|]).
  unfold load_block. rewrite Hs. cbn [mbind option_bind].
  rewrite <- Hlen, Hsel. cbn [mbind option_bind].
  assert (E : (Z.of_nat k <? 0) = false) by (apply Z.ltb_ge; lia).
  rewrite E, Nat2Z.id.
  destruct (lookup_lt_is_Some_2 s k Hk) as [l Hl].
  rewrite Hl. cbn [mbind option_bind].
  replace (length s) with (length (<[k := mkLine 1 (get_tag c a) (age l)]> s))
    by apply length_insert.
  rewrite age_loop_full. cbn [mbind option_bind].
  now rewrite (loaded_aged _ _ _ _ Hl).
Qed.

Lemma load_block_wf c a :
  wf c -> exists c', load_block c a = Some c' /\ wf c'.
Proof.
  intros Hwf.
  destruct (load_block_spec c a Hwf) as (s & k & Hs & Hrow & Hk & _ & _ & Hload).
  eexists. split; [exact Hload|].
  apply wf_with_lines; [exact Hwf|]. now apply loaded_row_ok.
Qed.

(** [update_lru_on_access] on a row of the cache: nothing under FIFO, the
    aging pass under LRU. *)
Lemma update_lru_on_access_spec c set_idx line_idx s :
  wf c ->
  lines c !! Z.to_nat set_idx = Some s ->
  update_lru_on_access c set_idx line_idx =
    Some (if policy c =? POLICY_LRU
          then with_lines c (<[Z.to_nat set_idx := imap (aged line_idx) s]>
                               (lines c))
          else c).
Proof.
  intros Hwf Hs. unfold update_lru_on_access.
  destruct (policy c =? POLICY_LRU); [|reflexivity]. cbn [negb].
  pose proof (wf_set_lines c Hwf) as Hpos.
  assert (E : (set_lines c <=? 0) = false) by (apply Z.leb_gt; lia).
  rewrite E, Hs. cbn [mbind option_bind].
  pose proof (proj1 (Forall_lookup _ _) (wf_rows c Hwf) _ _ Hs) as [Hlen _].
  rewrite <- Hlen, age_loop_full. reflexivity.
Qed.

Lemma update_lru_on_access_wf c set_idx line_idx s :
  wf c ->
  lines c !! Z.to_nat set_idx = Some s ->
  exists c', update_lru_on_access c set_idx line_idx = Some c' /\ wf c'.
Proof.
  intros Hwf Hs. rewrite (update_lru_on_access_spec _ _ _ _ Hwf Hs).
  eexists. split; [reflexivity|].
  destruct (policy c =? POLICY_LRU); [|exact Hwf].
  apply wf_with_lines; [exact Hwf|]. apply aged_row_ok.
  exact (proj1 (Forall_lookup _ _) (wf_rows c Hwf) _ _ Hs).
Qed.

(** ** The stamped functions compute the same caches *)

Lemma load_block_stamped_erase c g a :
  fst <$> load_block_stamped c g a = load_block c a.
Proof.
  unfold load_block_stamped, victim, load_block.
  destruct (lines c !! Z.to_nat (get_set_index c a)) as [s|]; [|reflexivity].
  cbn [mbind option_bind].
  destruct (select_slot s (Z.to_nat (set_lines c))) as [k|]; [|reflexivity].
  cbn [mbind option_bind].
  destruct (k <? 0); [reflexivity|].
  destruct (s !! Z.to_nat k) as [l|]; [|reflexivity].
  cbn [mbind option_bind].
  destruct (age_loop _ _ _ _); reflexivity.
Qed.

Lemma prefetch_next_stamped_erase c g a :
  fst <$> prefetch_next_stamped c g a = prefetch_next c a.
Proof.
  unfold prefetch_next_stamped, prefetch_next.
  destruct (find_line c _) as [[line_idx set_idx]|]; [|reflexivity].
  cbn [mbind option_bind].
  destruct (line_idx =? -1); [|reflexivity].
  apply load_block_stamped_erase.
Qed.

Lemma simulate_stamped_erase p c g x :
  fst <$> simulate_stamped p (c, g) x = simulate p c x.
Proof.
  destruct x as [[|] a]; cbn [simulate_stamped simulate fst snd];
    [unfold simulate_read_stamped, simulate_read
    |unfold simulate_write_stamped, simulate_write].
  all: destruct (find_line c a) as [[line_idx set_idx]|]; [|reflexivity].
  all: cbn [mbind option_bind].
  all: destruct (negb (line_idx =? -1)).
  all: try (destruct (update_lru_on_access _ _ _); reflexivity).
  all: rewrite <- (load_block_stamped_erase _ g).
  all: destruct (load_block_stamped _ g a) as [[c1 g1]|]; [|reflexivity].
  all: cbn [fmap option_fmap option_map mbind option_bind fst].
  all: destruct (negb (p =? 0)); [apply prefetch_next_stamped_erase|reflexivity].
Qed.

Lemma run_stamped_erase p trace : forall c g,
  fst <$> run_stamped p (c, g) trace = run p c trace.
Proof.
  induction trace as [|x trace IH]; intros c g; [reflexivity|].
  cbn [run_stamped run]. rewrite <- (simulate_stamped_erase p c g x).
  destruct (simulate_stamped p (c, g) x) as [[c' g']|]; [|reflexivity].
  cbn [fmap option_fmap option_map mbind option_bind]. apply IH.
Qed.

(** ** Every access of a well-formed cache has an outcome *)

Lemma inserts_wf c g a c' g' : wf c -> inserts c g a c' g' -> wf c'.
Proof.
  intros Hwf H. destruct H as [s k Hs Hrow Hk Hsel].
  apply wf_with_lines; [exact Hwf|]. now apply loaded_row_ok.
Qed.

Lemma load_block_stamped_inserts c g a :
  wf c ->
  exists c' g', load_block_stamped c g a = Some (c', g') /\
                load_block c a = Some c' /\
                inserts c g a c' g'.
Proof.
  intros Hwf.
  destruct (load_block_spec c a Hwf)
    as (s & k & Hs & Hrow & Hk & Hsel & Hselected & Hload).
  exists (fill_set c a s k), (stamp_slot g (Z.to_nat (get_set_index c a)) k).
  split; [|split; [exact Hload|now constructor]].
  unfold load_block_stamped, victim. rewrite Hs. cbn [mbind option_bind].
  rewrite Hsel. cbn [mbind option_bind]. rewrite Hload.
  cbn [mbind option_bind]. now rewrite Nat2Z.id.
Qed.

Lemma prefetch_next_stamped_outcome c g a :
  wf c ->
  exists c' g', prefetch_next_stamped c g a = Some (c', g') /\
                prefetch_outcome c g a c' g'.
Proof.
  intros Hwf. unfold prefetch_next_stamped. fold (next_block c a).
  destruct (find_line_spec c (next_block c a) Hwf)
    as (s & Hs & Hrow & [(k & Hfind & Hm)|[Hfind Habs]]);
    rewrite Hfind; cbn [mbind option_bind].
  - assert (E : (Z.of_nat k =? -1) = false) by (apply Z.eqb_neq; lia).
    rewrite E. exists c, g. split; [reflexivity|].
    now apply (prefetch_present c g a s k).
  - rewrite Z.eqb_refl.
    destruct (load_block_stamped_inserts (incr_reads c) g (next_block c a))
      as (c' & g' & Hl & _ & Hins); [auto with wfdb|].
    exists c', g'. split; [exact Hl|].
    now apply (prefetch_absent c g a s).
Qed.

Lemma miss_tail_total p c g a :
  wf c ->
  exists c' g',
    (if negb (p =? 0) then prefetch_next_stamped c g a else Some (c, g))
      = Some (c', g') /\
    miss_tail p c g a c' g'.
Proof.
  intros Hwf. destruct (p =? 0) eqn:E; cbn [negb].
  - apply Z.eqb_eq in E. exists c, g. split; [reflexivity|now constructor].
  - apply Z.eqb_neq in E.
    destruct (prefetch_next_stamped_outcome c g a Hwf) as (c' & g' & H1 & H2).
    exists c', g'. split; [exact H1|now constructor].
Qed.

Lemma simulate_stamped_outcome p c g x :
  wf c ->
  exists c' g', simulate_stamped p (c, g) x = Some (c', g') /\
                access_outcome p c g x c' g'.
Proof.
  intros Hwf. destruct x as [[|] a]; cbn [simulate_stamped fst snd];
    [unfold simulate_read_stamped|unfold simulate_write_stamped].
  all: destruct (find_line_spec c a Hwf)
         as (s & Hs & Hrow & [(k & Hfind & Hm)|[Hfind Habs]]);
       rewrite Hfind; cbn [mbind option_bind].
  all: try (assert (E : (Z.of_nat k =? -1) = false)
              by (apply Z.eqb_neq; lia); rewrite E; cbn [negb]).
  all: try (rewrite Z.eqb_refl; cbn [negb]).
  - rewrite (update_lru_on_access_spec (incr_hits c) _ _ s);
      [|auto with wfdb|exact Hs].
    cbn [mbind option_bind]. eexists _, g. split; [reflexivity|].
    now apply (read_hit p c g a s k).
  - destruct (load_block_stamped_inserts (incr_reads (incr_misses c)) g a)
      as (c1 & g1 & Hl & _ & Hins); [auto with wfdb|].
    rewrite Hl. cbn [mbind option_bind].
    destruct (miss_tail_total p c1 g1 a) as (c2 & g2 & Ht & Htail).
    { eapply inserts_wf; [|exact Hins]. auto with wfdb. }
    exists c2, g2. split; [exact Ht|].
    now apply (read_miss p c g a s c1 g1).
  - rewrite (update_lru_on_access_spec (incr_writes (incr_hits c)) _ _ s);
      [|auto with wfdb|exact Hs].
    cbn [mbind option_bind]. eexists _, g. split; [reflexivity|].
    now apply (write_hit p c g a s k).
  - destruct (load_block_stamped_inserts (incr_reads (incr_misses c)) g a)
      as (c1 & g1 & Hl & _ & Hins); [auto with wfdb|].
    rewrite Hl. cbn [mbind option_bind].
    destruct (miss_tail_total p (incr_writes c1) g1 a) as (c2 & g2 & Ht & Htail).
    { apply wf_incr_writes. eapply inserts_wf; [|exact Hins]. auto with wfdb. }
    exists c2, g2. split; [exact Ht|].
    now apply (write_miss p c g a s c1 g1).
Qed.

Lemma touch_wf c set_idx s k :
  wf c -> lines c !! Z.to_nat set_idx = Some s -> wf (touch c set_idx s k).
Proof.
  intros Hwf Hs. unfold touch. destruct (policy c =? POLICY_LRU); [|exact Hwf].
  apply wf_with_lines; [exact Hwf|]. apply aged_row_ok.
  exact (proj1 (Forall_lookup _ _) (wf_rows c Hwf) _ _ Hs).
Qed.

Lemma prefetch_outcome_wf c g a c' g' :
  wf c -> prefetch_outcome c g a c' g' -> wf c'.
Proof.
  intros Hwf [s k Hs Hm|s c1 g1 Hs Habs Hins]; [exact Hwf|].
  eapply inserts_wf; [|exact Hins]. auto with wfdb.
Qed.

Lemma miss_tail_wf p c g a c' g' : wf c -> miss_tail p c g a c' g' -> wf c'.
Proof.
  intros Hwf [Hp|c1 g1 Hp Hpre]; [exact Hwf|].
  eapply prefetch_outcome_wf; eassumption.
Qed.

Lemma access_outcome_wf p c g x c' g' :
  wf c -> access_outcome p c g x c' g' -> wf c'.
Proof.
  intros Hwf H.
  destruct H as [a s k Hs Hm|a s c1 g1 c2 g2 Hs Habs Hins Htail
                |a s k Hs Hm|a s c1 g1 c2 g2 Hs Habs Hins Htail].
  - apply touch_wf; [auto with wfdb|exact Hs].
  - eapply miss_tail_wf; [|exact Htail].
    eapply inserts_wf; [|exact Hins]. auto with wfdb.
  - apply touch_wf; [auto with wfdb|exact Hs].
  - eapply miss_tail_wf; [|exact Htail]. apply wf_incr_writes.
    eapply inserts_wf; [|exact Hins]. auto with wfdb.
Qed.

Lemma simulate_outcome p c x :
  wf c ->
  exists c' g', simulate p c x = Some c' /\ wf c' /\
                access_outcome p c ghost0 x c' g'.
Proof.
  intros Hwf.
  destruct (simulate_stamped_outcome p c ghost0 x Hwf) as (c' & g' & Hs & Ho).
  exists c', g'. rewrite <- (simulate_stamped_erase p c ghost0 x), Hs.
  split; [reflexivity|]. split; [|exact Ho].
  eapply access_outcome_wf; eassumption.
Qed.

Lemma first_match_not_absent k tg s :
  first_match 0 k tg s -> absent_from 0 tg s -> False.
Proof.
  intros (_ & (l & Hl & Hm) & _) Habs.
  rewrite (Habs k l (Nat.le_0_l _) Hl) in Hm. discriminate.
Qed.

(** ** Invariants of a run

    A property of the cache and its stamps that every outcome of an
    access preserves holds after every trace; the run itself never
    leaves the defined behaviour. *)

Section Invariant.
Variable Inv : Cache -> Ghost -> Prop.

Hypothesis Inv_outcome : forall p c g x c' g',
  wf c -> Inv c g -> access_outcome p c g x c' g' -> Inv c' g'.

Lemma run_stamped_invariant p trace : forall c g,
  wf c -> Inv c g ->
  exists c' g', run_stamped p (c, g) trace = Some (c', g') /\
                wf c' /\ Inv c' g'.
Proof.
  induction trace as [|x trace IH]; intros c g Hwf HI.
  - exists c, g. auto.
  - destruct (simulate_stamped_outcome p c g x Hwf) as (c1 & g1 & Hs & Ho).
    cbn [run_stamped]. rewrite Hs. cbn [mbind option_bind].
    apply IH.
    + eapply access_outcome_wf; eassumption.
    + eapply Inv_outcome; eassumption.
Qed.

Lemma run_invariant p trace c g :
  wf c -> Inv c g ->
  exists c' g', run p c trace = Some c' /\ wf c' /\ Inv c' g'.
Proof.
  intros Hwf HI.
  destruct (run_stamped_invariant p trace c g Hwf HI)
    as (c' & g' & Hr & Hwf' & HI').
  exists c', g'. rewrite <- (run_stamped_erase p trace c g), Hr. auto.
Qed.
End Invariant.

(** An invariant follows from its preservation by the three kinds of
    update an access is made of: a counter increment, the aging pass of
    a hit, an insertion after a lookup that found nothing. *)
Section Pieces.
Variable Inv : Cache -> Ghost -> Prop.

Hypothesis Inv_hits : forall c g, Inv c g -> Inv (incr_hits c) g.
Hypothesis Inv_misses : forall c g, Inv c g -> Inv (incr_misses c) g.
Hypothesis Inv_reads : forall c g, Inv c g -> Inv (incr_reads c) g.
Hypothesis Inv_writes : forall c g, Inv c g -> Inv (incr_writes c) g.
Hypothesis Inv_touch : forall c g set_idx s k tg,
  wf c -> Inv c g ->
  lines c !! Z.to_nat set_idx = Some s -> first_match 0 k tg s ->
  Inv (touch c set_idx s k) g.
Hypothesis Inv_inserts : forall c g a s c' g',
  wf c -> Inv c g ->
  lines c !! Z.to_nat (get_set_index c a) = Some s ->
  absent_from 0 (get_tag c a) s ->
  inserts c g a c' g' -> Inv c' g'.

Lemma pieces_prefetch c g a c' g' :
  wf c -> Inv c g -> prefetch_outcome c g a c' g' -> Inv c' g'.
Proof.
  intros Hwf HI [s k Hs Hm|s c1 g1 Hs Habs Hins]; [exact HI|].
  eapply (Inv_inserts (incr_reads c)); eauto with wfdb.
Qed.

Lemma pieces_tail p c g a c' g' :
  wf c -> Inv c g -> miss_tail p c g a c' g' -> Inv c' g'.
Proof.
  intros Hwf HI [Hp|c1 g1 Hp Hpre]; [exact HI|].
  eapply pieces_prefetch; eassumption.
Qed.

Lemma pieces_outcome p c g x c' g' :
  wf c -> Inv c g -> access_outcome p c g x c' g' -> Inv c' g'.
Proof.
  intros Hwf HI H.
  destruct H as [a s k Hs Hm|a s c1 g1 c2 g2 Hs Habs Hins Htail
                |a s k Hs Hm|a s c1 g1 c2 g2 Hs Habs Hins Htail].
  - eapply Inv_touch; eauto with wfdb.
  - eapply pieces_tail; [|
      eapply (Inv_inserts (incr_reads (incr_misses c))); eauto with wfdb
      |exact Htail].
    eapply inserts_wf; [|exact Hins]. auto with wfdb.
  - eapply Inv_touch; eauto with wfdb.
  - eapply pieces_tail; [| |exact Htail].
    + apply wf_incr_writes. eapply inserts_wf; [|exact Hins].
      auto with wfdb.
    + apply Inv_writes.
      eapply (Inv_inserts (incr_reads (incr_misses c))); eauto with wfdb.
Qed.
End Pieces.

(** ** Counters *)

Lemma inserts_stats c g a c' g' : inserts c g a c' g' -> stats c' = stats c.
Proof. intros []. reflexivity. Qed.

Lemma touch_stats c set_idx s k : stats (touch c set_idx s k) = stats c.
Proof. unfold touch. destruct (policy c =? POLICY_LRU); reflexivity. Qed.

(** A prefetch leaves [hits], [misses] and [writes] alone and counts at
    most one read. *)
Lemma prefetch_outcome_stats c g a c' g' :
  prefetch_outcome c g a c' g' ->
  hits c' = hits c /\ misses c' = misses c /\ writes c' = writes c /\
  (reads c' = reads c \/ reads c' = add64 (reads c) 1).
Proof.
  intros [s k Hs Hm|s c1 g1 Hs Habs Hins]; [tauto|].
  apply inserts_stats in Hins. unfold stats in Hins. cbn in Hins.
  injection Hins as -> -> -> ->. tauto.
Qed.

Lemma miss_tail_stats p c g a c' g' :
  miss_tail p c g a c' g' ->
  hits c' = hits c /\ misses c' = misses c /\ writes c' = writes c /\
  (reads c' = reads c \/ (p <> 0 /\ reads c' = add64 (reads c) 1)).
Proof.
  intros [Hp|c1 g1 Hp Hpre]; [tauto|].
  destruct (prefetch_outcome_stats _ _ _ _ _ Hpre) as (-> & -> & -> & [->| ->]);
    tauto.
Qed.

(** The counters after one access: a hit counts itself (and its write),
    a miss counts itself, its fetch (and its write), and one more read
    when the prefetch loads the next block. *)
Lemma access_outcome_stats p c g o a c' g' :
  access_outcome p c g (o, a) c' g' ->
  writes c' = op_writes o (writes c) /\
  ((hits c' = add64 (hits c) 1 /\ misses c' = misses c /\ reads c' = reads c)
   \/
   (hits c' = hits c /\ misses c' = add64 (misses c) 1 /\
    (reads c' = add64 (reads c) 1 \/
     (p <> 0 /\ reads c' = add64 (add64 (reads c) 1) 1)))).
Proof.
  intros H. inversion H as [a0 s k Hs Hm|a0 s c1 g1 c2 g2 Hs Habs Hins Htail
                           |a0 s k Hs Hm|a0 s c1 g1 c2 g2 Hs Habs Hins Htail];
    subst.
  - pose proof (touch_stats (incr_hits c) (get_set_index c a) s k) as E.
    unfold stats in E. cbn in E. injection E as -> -> -> ->. cbn. tauto.
  - apply inserts_stats in Hins. unfold stats in Hins. cbn in Hins.
    injection Hins as E1 E2 E3 E4.
    destruct (miss_tail_stats _ _ _ _ _ _ Htail) as (-> & -> & -> & Hr).
    rewrite E1, E2, E4. cbn. split; [reflexivity|]. right.
    split; [reflexivity|]. split; [reflexivity|].
    destruct Hr as [->|[Hp ->]]; rewrite E3; tauto.
  - pose proof (touch_stats (incr_writes (incr_hits c)) (get_set_index c a) s k)
      as E.
    unfold stats in E. cbn in E. injection E as -> -> -> ->. cbn. tauto.
  - apply inserts_stats in Hins. unfold stats in Hins. cbn in Hins.
    injection Hins as E1 E2 E3 E4.
    destruct (miss_tail_stats _ _ _ _ _ _ Htail) as (-> & -> & -> & Hr).
    cbn. rewrite E1, E2, E4. split; [reflexivity|]. right.
    split; [reflexivity|]. split; [reflexivity|].
    destruct Hr as [->|[Hp ->]]; cbn; rewrite E3; tauto.
Qed.

(** ** The logged functions compute the same caches and stamps *)

Lemma load_block_logged_erase c g log a :
  fst <$> load_block_logged c g log a = load_block_stamped c g a.
Proof.
  unfold load_block_logged.
  destruct (load_block_stamped c g a) as [[c' g']|]; reflexivity.
Qed.

Lemma prefetch_next_logged_erase c g log a :
  fst <$> prefetch_next_logged c g log a = prefetch_next_stamped c g a.
Proof.
  unfold prefetch_next_logged, prefetch_next_stamped.
  destruct (find_line c _) as [[line_idx set_idx]|]; [|reflexivity].
  cbn [mbind option_bind].
  destruct (line_idx =? -1); [|reflexivity].
  apply load_block_logged_erase.
Qed.

Lemma simulate_logged_erase p c g log x :
  fst <$> simulate_logged p (c, g, log) x = simulate_stamped p (c, g) x.
Proof.
  destruct x as [[|] a]; cbn [simulate_logged simulate_stamped fst snd];
    [unfold simulate_read_logged, simulate_read_stamped
    |unfold simulate_write_logged, simulate_write_stamped].
  all: destruct (find_line c a) as [[line_idx set_idx]|]; [|reflexivity].
  all: cbn [mbind option_bind].
  all: destruct (negb (line_idx =? -1)).
  all: try (destruct (update_lru_on_access _ _ _); reflexivity).
  all: rewrite <- (load_block_logged_erase _ g log).
  all: destruct (load_block_logged _ g log a) as [[[c1 g1] log1]|];
         [|reflexivity].
  all: cbn [fmap option_fmap option_map mbind option_bind fst].
  all: destruct (negb (p =? 0)); [apply prefetch_next_logged_erase|reflexivity].
Qed.

Lemma run_logged_erase p trace : forall c g log,
  fst <$> run_logged p (c, g, log) trace = run_stamped p (c, g) trace.
Proof.
  induction trace as [|x trace IH]; intros c g log; [reflexivity|].
  cbn [run_logged run_stamped]. rewrite <- (simulate_logged_erase p c g log x).
  destruct (simulate_logged p (c, g, log) x) as [[[c' g'] log']|];
    [|reflexivity].
  cbn [fmap option_fmap option_map mbind option_bind fst]. apply IH.
Qed.

(** ** What one access adds to the log *)





(** ** Invariants with a budget, along a logged run

    [Inv m c g] may depend on the rows and the stamps only, allows [m]
    more age increments, and survives every access that satisfies the
    side condition [Ok].  It then holds at every logged call of
    [load_block] as well as at the end of the run. *)

Section LoggedInvariant.
Variable Inv : Z -> Cache -> Ghost -> Prop.
Variable Ok : Cache -> access -> Prop.

Hypothesis Inv_weaken : forall m m' c g, m' <= m -> Inv m c g -> Inv m' c g.
Hypothesis Inv_rows : forall m c c' g,
  lines c' = lines c -> Inv m c g -> Inv m c' g.
Hypothesis Inv_inserts : forall m c g a c' g',
  wf c -> 0 < m -> Inv m c g -> inserts c g a c' g' -> Inv (m - 1) c' g'.
Hypothesis Inv_outcome : forall m p c g x c' g',
  wf c -> 1 < m -> Inv m c g -> Ok c x ->
  access_outcome p c g x c' g' -> Inv (m - 2) c' g'.


End LoggedInvariant.

(** * The claims *)

Ltac wf_by_computation :=
  constructor; cbn; unfold INT_MAX;
  [lia | lia | lia | lia | reflexivity | lia |
   repeat (apply Forall_cons_2;
           [split; [reflexivity
                   |repeat (apply Forall_cons_2;
                            [unfold line_ok; cbn; lia|]); apply Forall_nil_2]
           |]); apply Forall_nil_2].

Lemma direct_mapped_wf : wf direct_mapped.
Proof. wf_by_computation. Defined.

Lemma tie_cache_wf : wf tie_cache.
Proof. wf_by_computation. Defined.

Lemma direct_mapped_created :
  create_cache 32 1 4 POLICY_FIFO = Some direct_mapped.
Proof. reflexivity. Qed.

Lemma lru_pair_reached :
  simulation 8 2 4 POLICY_LRU 0 [(R, 0); (R, 4)] = Some lru_pair.
Proof. vm_compute. reflexivity. Qed.

(** ** Address decomposition *)

Lemma low_mask n : 0 <= n < 64 -> sub64 (shl64 1 n) 1 = Z.ones n.
Proof.
  intros Hn. unfold sub64, shl64. rewrite Z.shiftl_1_l.
  assert (0 < 2 ^ n) by (apply Z.pow_pos_nonneg; lia).
  assert (2 ^ n < 2 ^ 64) by (apply Z.pow_lt_mono_r; lia).
  rewrite (wrap64_small (2 ^ n)) by lia.
  rewrite wrap64_small by lia. rewrite Z.ones_equiv. lia.
Qed.

Lemma set_mask c :
  0 <= set_bits c < 64 ->
  (if set_bits c =? 0 then 0 else sub64 (shl64 1 (set_bits c)) 1)
  = Z.ones (set_bits c).
Proof.
  intros H. destruct (set_bits c =? 0) eqn:E.
  - apply Z.eqb_eq in E. now rewrite E.
  - now apply low_mask.
Qed.

Lemma testbit_wrap64 x n :
  0 <= n -> Z.testbit (wrap64 x) n = (n <? 64) && Z.testbit x n.
Proof.
  intros Hn. unfold wrap64. destruct (n <? 64) eqn:E.
  - apply Z.ltb_lt in E. rewrite Z.mod_pow2_bits_low by lia. reflexivity.
  - apply Z.ltb_ge in E. rewrite Z.mod_pow2_bits_high by lia. reflexivity.
Qed.

Lemma testbit_high a n : 0 <= a < 2 ^ 64 -> 64 <= n -> Z.testbit a n = false.
Proof.
  intros Ha Hn. rewrite <- (Z.mod_small a (2 ^ 64)) by lia.
  apply Z.mod_pow2_bits_high. lia.
Qed.

(** C4.  For every 64-bit address and every well-formed cache (the
    geometries [create_cache] builds, power-of-two ones among them),
    shifting the tag and the set index back into place and adding the
    low [block_bits] bits of the address gives the address back. *)
Theorem address_round_trip c a :
  wf c -> 0 <= a < 2 ^ 64 -> recombine c a = a.
Proof.
  intros Hwf Ha.
  pose proof (wf_block_bits c Hwf) as Hb.
  pose proof (wf_set_bits c Hwf) as Hs.
  pose proof (wf_bits c Hwf) as Hbits.
  unfold recombine, block_offset, get_set_index, get_tag, get_block_id.
  rewrite set_mask by lia. rewrite low_mask by lia. unfold shl64.
  apply Z.bits_inj'. intros n Hn.
  rewrite !Z.lor_spec. do 2 (rewrite testbit_wrap64 by lia).
  rewrite !Z.shiftl_spec by lia.
  rewrite (Z.land_spec a), (Z.testbit_ones_nonneg (block_bits c) n) by lia.
  destruct (Z.ltb_spec n 64) as [H64|H64].
  2:{ rewrite (testbit_high a n) by lia. cbn. reflexivity. }
  cbn [andb].
  destruct (Z.ltb_spec n (block_bits c)) as [H1|H1].
  - rewrite (Z.testbit_neg_r _ (n - block_bits c)) by lia.
    rewrite (Z.testbit_neg_r _ (n - (block_bits c + set_bits c))) by lia.
    cbn. now rewrite andb_true_r.
  - rewrite andb_false_r, orb_false_r.
    rewrite Z.land_spec, (Z.shiftr_spec a (block_bits c)) by lia.
    rewrite Z.testbit_ones_nonneg by lia.
    replace (n - block_bits c + block_bits c) with n by lia.
    destruct (Z.ltb_spec n (block_bits c + set_bits c)) as [H2|H2].
    + rewrite (Z.testbit_neg_r _ (n - (block_bits c + set_bits c))) by lia.
      replace (n - block_bits c <? set_bits c) with true
        by (symmetry; apply Z.ltb_lt; lia).
      cbn. now rewrite andb_true_r.
    + rewrite Z.shiftr_spec by lia.
      replace (n - (block_bits c + set_bits c) + (block_bits c + set_bits c))
        with n by lia.
      replace (n - block_bits c <? set_bits c) with false
        by (symmetry; apply Z.ltb_ge; lia).
      now rewrite andb_false_r, orb_false_r.
Qed.

Lemma address_round_trip_witness :
  wf direct_mapped /\ 0 <= 0x1234 < 2 ^ 64 /\
  recombine direct_mapped 0x1234 = 0x1234.
Proof.
  split; [exact direct_mapped_wf|]. split; [lia|].
  apply (address_round_trip direct_mapped 0x1234 direct_mapped_wf). lia.
Defined.

(** ** The slot selection of [load_block] *)

(** C10.  In a well-formed cache (at least one line per set) the scan of
    [load_block] ends with a replacement index between [0] and
    [set_lines - 1], whatever the address, so the insertion never uses
    the initial [-1] and [load_block] returns. *)
Theorem load_block_slot_in_range c a :
  wf c ->
  exists s r c',
    lines c !! Z.to_nat (get_set_index c a) = Some s /\
    select_slot s (Z.to_nat (set_lines c)) = Some r /\
    0 <= r < set_lines c /\
    load_block c a = Some c'.
Proof.
  intros Hwf.
  destruct (load_block_spec c a Hwf)
    as (s & k & Hs & [Hlen _] & Hk & Hsel & _ & Hload).
  exists s, (Z.of_nat k). eexists.
  split; [exact Hs|]. split; [exact Hsel|]. split; [lia|exact Hload].
Qed.

Lemma load_block_slot_in_range_witness :
  wf tie_cache /\
  exists s r c',
    lines tie_cache !! Z.to_nat (get_set_index tie_cache 64) = Some s /\
    select_slot s (Z.to_nat (set_lines tie_cache)) = Some r /\
    0 <= r < set_lines tie_cache /\
    load_block tie_cache 64 = Some c'.
Proof.
  split; [exact tie_cache_wf|].
  exact (load_block_slot_in_range tie_cache 64 tie_cache_wf).
Defined.


(** ** Scenario *)

(** C9.  Capacity 32, direct-mapped, block size 4, FIFO, no prefetch:
    the trace read 0x0, read 0x4, read 0x0 ends with 1 hit, 2 misses,
    2 memory reads and 0 memory writes; the hit is the third access,
    the first two being misses. *)
Theorem scenario_direct_mapped_fifo :
  stats <$> simulation 32 1 4 POLICY_FIFO 0 [(R, 0x0); (R, 0x4); (R, 0x0)]
    = Some (1, 2, 2, 0) /\
  stats <$> simulation 32 1 4 POLICY_FIFO 0 [(R, 0x0); (R, 0x4)]
    = Some (0, 2, 2, 0).
Proof. split; vm_compute; reflexivity. Qed.

(** ** Traffic of one access *)

Lemma outcome_on_hit p c g o a c' g' s k :
  lines c !! Z.to_nat (get_set_index c a) = Some s ->
  first_match 0 k (get_tag c a) s ->
  access_outcome p c g (o, a) c' g' ->
  hits c' = add64 (hits c) 1 /\ misses c' = misses c /\
  reads c' = reads c /\ writes c' = op_writes o (writes c).
Proof.
  intros Hs Hm H.
  inversion H as [a0 s0 k0 Hs0 Hm0|a0 s0 c1 g1 c2 g2 Hs0 Habs _ _
                 |a0 s0 k0 Hs0 Hm0|a0 s0 c1 g1 c2 g2 Hs0 Habs _ _]; subst.
  2,4: exfalso; assert (s0 = s) by congruence; subst s0;
       exact (first_match_not_absent _ _ _ Hm Habs).
  - pose proof (touch_stats (incr_hits c) (get_set_index c a) s0 k0) as E.
    unfold stats in E. cbn in E. injection E as -> -> -> ->. cbn. tauto.
  - pose proof (touch_stats (incr_writes (incr_hits c))
                  (get_set_index c a) s0 k0) as E.
    unfold stats in E. cbn in E. injection E as -> -> -> ->. cbn. tauto.
Qed.

Lemma outcome_on_miss p c g o a c' g' s :
  lines c !! Z.to_nat (get_set_index c a) = Some s ->
  absent_from 0 (get_tag c a) s ->
  access_outcome p c g (o, a) c' g' ->
  hits c' = hits c /\ misses c' = add64 (misses c) 1 /\
  writes c' = op_writes o (writes c) /\
  (reads c' = add64 (reads c) 1 \/
   (p <> 0 /\ reads c' = add64 (add64 (reads c) 1) 1)).
Proof.
  intros Hs Habs H.
  inversion H as [a0 s0 k0 Hs0 Hm0|a0 s0 c1 g1 c2 g2 Hs0 Habs0 Hins Htail
                 |a0 s0 k0 Hs0 Hm0|a0 s0 c1 g1 c2 g2 Hs0 Habs0 Hins Htail];
    subst.
  1,3: exfalso; assert (s0 = s) by congruence; subst s0;
       exact (first_match_not_absent _ _ _ Hm0 Habs).
  all: apply inserts_stats in Hins; unfold stats in Hins; cbn in Hins;
       injection Hins as E1 E2 E3 E4;
       destruct (miss_tail_stats _ _ _ _ _ _ Htail) as (-> & -> & -> & T4);
       cbn; rewrite E1, E2, E4;
       (split; [reflexivity|]); (split; [reflexivity|]);
       (split; [reflexivity|]);
       destruct T4 as [->|[Hp ->]]; cbn; rewrite E3; tauto.
Qed.

(** C6, as the specification states it, fails when prefetching is on: a
    write miss on the empty direct-mapped cache counts two memory reads
    (the fetch and the prefetch of the next block) and one memory
    write. *)
Lemma write_miss_with_prefetch_reads_twice :
  find_line direct_mapped 0 = Some (-1, 0) /\
  stats direct_mapped = (0, 0, 0, 0) /\
  stats <$> simulate_write direct_mapped 0 1 = Some (0, 1, 2, 1).
Proof. repeat split; vm_compute; reflexivity. Qed.

(** C6, amended.  On a well-formed cache both kinds of access return.
    A read hit changes neither [reads] nor [writes]; a write hit adds one
    to [writes] and nothing to [reads]; a write miss adds one to [writes]
    and one to [reads], and with prefetching enabled possibly a second
    read, the one of the prefetch, never more.  With prefetching disabled
    a write miss counts exactly one read. *)
Theorem traffic_per_access c a p :
  wf c ->
  exists line_idx set_idx cr cw,
    find_line c a = Some (line_idx, set_idx) /\
    simulate_read c a p = Some cr /\
    simulate_write c a p = Some cw /\
    (line_idx <> -1 ->
       reads cr = reads c /\ writes cr = writes c /\
       reads cw = reads c /\ writes cw = add64 (writes c) 1) /\
    (line_idx = -1 ->
       writes cw = add64 (writes c) 1 /\
       (reads cw = add64 (reads c) 1 \/
        (p <> 0 /\ reads cw = add64 (add64 (reads c) 1) 1))).
Proof.
  intros Hwf.
  destruct (simulate_outcome p c (R, a) Hwf) as (cr & gr & Hr & _ & Hor).
  destruct (simulate_outcome p c (W, a) Hwf) as (cw & gw & Hw & _ & How).
  cbn [simulate] in Hr, Hw.
  destruct (find_line_spec c a Hwf)
    as (s & Hs & Hrow & [(k & Hfind & Hm)|[Hfind Habs]]).
  - exists (Z.of_nat k), (get_set_index c a), cr, cw.
    repeat (split; [assumption|]). split; [|lia]. intros _.
    destruct (outcome_on_hit _ _ _ _ _ _ _ _ _ Hs Hm Hor) as (_ & _ & -> & ->).
    destruct (outcome_on_hit _ _ _ _ _ _ _ _ _ Hs Hm How) as (_ & _ & -> & ->).
    cbn. tauto.
  - exists (-1), (get_set_index c a), cr, cw.
    repeat (split; [assumption|]). split; [congruence|]. intros _.
    destruct (outcome_on_miss _ _ _ _ _ _ _ _ Hs Habs How) as (_ & _ & -> & Hrd).
    cbn. tauto.
Qed.

Lemma traffic_per_access_witness :
  wf direct_mapped /\
  exists line_idx set_idx cr cw,
    find_line direct_mapped 0 = Some (line_idx, set_idx) /\
    simulate_read direct_mapped 0 1 = Some cr /\
    simulate_write direct_mapped 0 1 = Some cw /\
    (line_idx <> -1 ->
       reads cr = reads direct_mapped /\ writes cr = writes direct_mapped /\
       reads cw = reads direct_mapped /\
       writes cw = add64 (writes direct_mapped) 1) /\
    (line_idx = -1 ->
       writes cw = add64 (writes direct_mapped) 1 /\
       (reads cw = add64 (reads direct_mapped) 1 \/
        (1 <> 0 /\ reads cw = add64 (add64 (reads direct_mapped) 1) 1))).
Proof.
  split; [exact direct_mapped_wf|].
  exact (traffic_per_access direct_mapped 0 1 direct_mapped_wf).
Defined.

(** ** Tag uniqueness *)

Lemma aged_valid_tag idx j l :
  valid (aged idx j l) = valid l /\ tag (aged idx j l) = tag l.
Proof.
  unfold aged. destruct (valid l =? 0); [tauto|].
  destruct (Z.of_nat j =? idx); cbn; tauto.
Qed.

Lemma bump_valid_tag l : valid (bump l) = valid l /\ tag (bump l) = tag l.
Proof. unfold bump. destruct (valid l =? 0); cbn; tauto. Qed.

Lemma unique_tags_aged idx s : unique_tags s -> unique_tags (imap (aged idx) s).
Proof.
  intros Hu i j li lj Hi Hj Hvi Hvj Ht.
  rewrite list_lookup_imap in Hi, Hj.
  destruct (s !! i) as [li0|] eqn:Ei; [|discriminate].
  destruct (s !! j) as [lj0|] eqn:Ej; [|discriminate].
  cbn in Hi, Hj. injection Hi as <-. injection Hj as <-.
  destruct (aged_valid_tag idx i li0) as [Vi Ti].
  destruct (aged_valid_tag idx j lj0) as [Vj Tj].
  rewrite Vi in Hvi. rewrite Vj in Hvj. rewrite Ti, Tj in Ht.
  exact (Hu i j li0 lj0 Ei Ej Hvi Hvj Ht).
Qed.

Lemma unique_tags_loaded s k tg :
  unique_tags s -> absent_from 0 tg s -> unique_tags (loaded s k tg).
Proof.
  intros Hu Habs i j li lj Hi Hj Hvi Hvj Ht.
  rewrite loaded_lookup in Hi, Hj.
  destruct (s !! i) as [li0|] eqn:Ei; [|discriminate].
  destruct (s !! j) as [lj0|] eqn:Ej; [|discriminate].
  cbn in Hi, Hj. injection Hi as <-. injection Hj as <-.
  assert (Hfresh : forall m lm, s !! m = Some lm -> valid (bump lm) <> 0 ->
                                tag (bump lm) = tg -> False).
  { intros m lm Hm Hv Htg. destruct (bump_valid_tag lm) as [V T].
    rewrite V in Hv. rewrite T in Htg.
    pose proof (Habs m lm (Nat.le_0_l _) Hm) as Hno.
    assert (matches tg lm = true) by (apply matches_true; auto).
    congruence. }
  destruct (decide (i = k)) as [Hik|Hik], (decide (j = k)) as [Hjk|Hjk].
  - congruence.
  - exfalso. cbn in Ht. exact (Hfresh j lj0 Ej Hvj (eq_sym Ht)).
  - exfalso. cbn in Ht. exact (Hfresh i li0 Ei Hvi Ht).
  - destruct (bump_valid_tag li0) as [Vi Ti].
    destruct (bump_valid_tag lj0) as [Vj Tj].
    rewrite Vi in Hvi. rewrite Vj in Hvj. rewrite Ti, Tj in Ht.
    exact (Hu i j li0 lj0 Ei Ej Hvi Hvj Ht).
Qed.

Lemma all_unique_insert c i s :
  all_unique c -> unique_tags s ->
  all_unique (with_lines c (<[i := s]> (lines c))).
Proof.
  intros Hall Hu i' s' Hs'. cbn [lines with_lines] in Hs'.
  destruct (decide (i' = i)) as [->|Hne].
  - destruct (decide (i < length (lines c))%nat).
    + rewrite list_lookup_insert_eq in Hs' by assumption.
      injection Hs' as <-. exact Hu.
    + rewrite list_insert_ge in Hs' by lia. exact (Hall _ _ Hs').
  - rewrite list_lookup_insert_ne in Hs' by congruence. exact (Hall _ _ Hs').
Qed.

Lemma all_unique_outcome p c g x c' g' :
  wf c -> all_unique c -> access_outcome p c g x c' g' -> all_unique c'.
Proof.
  apply (pieces_outcome (fun c _ => all_unique c)); try (intros; assumption).
  - intros c0 g0 set_idx s k tg Hwf Hall Hs Hm. unfold touch.
    destruct (policy c0 =? POLICY_LRU); [|exact Hall].
    apply all_unique_insert; [exact Hall|].
    apply unique_tags_aged. exact (Hall _ _ Hs).
  - intros c0 g0 a s c1 g1 Hwf Hall Hs Habs Hins.
    destruct Hins as [s0 k Hs0 Hrow Hk Hsel].
    assert (s0 = s) by congruence. subst s0.
    apply all_unique_insert; [exact Hall|].
    apply unique_tags_loaded; [exact (Hall _ _ Hs)|exact Habs].
Qed.

Lemma all_unique_fresh c :
  Forall (Forall (fun l => valid l = 0)) (lines c) -> all_unique c.
Proof.
  intros Hinv i s Hs j1 j2 l1 l2 H1 H2 Hv1 _ _. exfalso. apply Hv1.
  pose proof (proj1 (Forall_lookup _ _) Hinv _ _ Hs) as Hrow.
  exact (proj1 (Forall_lookup _ _) Hrow _ _ H1).
Qed.

(** C3.  For every geometry [create_cache] accepts, every policy, either
    prefetch setting and every trace of reads and writes, the simulation
    returns a cache in which no set holds two valid lines with the same
    tag; and the property is an invariant: one more access of either
    kind, with or without prefetching, returns a cache that has it
    too. *)
Theorem no_duplicate_valid_tags cs assoc bs pol p trace :
  valid_geometry cs assoc bs ->
  exists c, simulation cs assoc bs pol p trace = Some c /\
            all_unique c /\
            forall p' x, exists c', simulate p' c x = Some c' /\ all_unique c'.
Proof.
  intros Hgeo.
  destruct (create_cache_wf cs assoc bs pol Hgeo)
    as (c0 & Hc0 & Hwf0 & _ & _ & Hfresh).
  destruct (run_invariant (fun c _ => all_unique c) all_unique_outcome
              p trace c0 ghost0 Hwf0 (all_unique_fresh c0 Hfresh))
    as (c & g & Hrun & Hwf & Hall).
  exists c. unfold simulation. rewrite Hc0. cbn [mbind option_bind].
  split; [exact Hrun|]. split; [exact Hall|].
  intros p' x.
  destruct (simulate_outcome p' c x Hwf) as (c' & g' & Hsim & _ & Ho).
  exists c'. split; [exact Hsim|].
  exact (all_unique_outcome _ _ _ _ _ _ Hwf Hall Ho).
Qed.

Lemma no_duplicate_valid_tags_witness :
  valid_geometry 16 2 4 /\
  exists c,
    simulation 16 2 4 POLICY_LRU 1 [(R, 0); (W, 16); (R, 32); (R, 0)]
      = Some c /\
    all_unique c /\
    forall p' x, exists c', simulate p' c x = Some c' /\ all_unique c'.
Proof.
  assert (Hgeo : valid_geometry 16 2 4)
    by (unfold valid_geometry, INT_MAX; lia).
  split; [exact Hgeo|].
  exact (no_duplicate_valid_tags 16 2 4 POLICY_LRU 1
           [(R, 0); (W, 16); (R, 32); (R, 0)] Hgeo).
Defined.

(** ** Counters over a trace *)

Lemma count_writes_range trace :
  0 <= count_writes trace <= Z.of_nat (length trace).
Proof.
  induction trace as [|[[|] a] trace IH]; cbn [count_writes length]; lia.
Qed.

Lemma count_writes_snoc trace o a :
  count_writes (trace ++ [(o, a)]) =
  count_writes trace + match o with R => 0 | W => 1 end.
Proof.
  induction trace as [|[[|] b] trace IH]; cbn [count_writes app].
  - destruct o; reflexivity.
  - exact IH.
  - rewrite IH. lia.
Qed.

(** One access of a cache whose counters tally a trace short enough for
    64 bits: the counters tally the longer trace, and none went down. *)
Lemma tally_outcome p c g trace o a c' g' :
  tally trace c ->
  2 * (Z.of_nat (length trace) + 1) < 2 ^ 64 ->
  access_outcome p c g (o, a) c' g' ->
  tally (trace ++ [(o, a)]) c' /\
  hits c <= hits c' /\ misses c <= misses c' /\
  reads c <= reads c' /\ writes c <= writes c'.
Proof.
  intros (Hsum & Hh & Hm & Hw & Hr) Hlen H.
  pose proof (count_writes_range trace) as Hcw.
  destruct (access_outcome_stats _ _ _ _ _ _ _ H) as [Ew Ecase].
  assert (Ew' : writes c' = writes c + match o with R => 0 | W => 1 end).
  { rewrite Ew. destruct o; cbn [op_writes]; [lia|].
    apply add64_small. lia. }
  unfold tally. rewrite length_app, count_writes_snoc. cbn [length].
  destruct Ecase as [(Eh & Em & Er)|(Eh & Em & Er)].
  - rewrite add64_small in Eh by lia. destruct o; lia.
  - rewrite add64_small in Em by lia.
    assert (Er' : reads c' = reads c + 1 \/ reads c' = reads c + 2).
    { destruct Er as [Er|[_ Er]]; rewrite Er.
      - left. apply add64_small. lia.
      - right. rewrite (add64_small (reads c)) by lia.
        rewrite add64_small by lia. lia. }
    destruct o; lia.
Qed.

Lemma run_tally p : forall t2 t1 c,
  wf c -> tally t1 c ->
  2 * (Z.of_nat (length (t1 ++ t2)) + 1) < 2 ^ 64 ->
  exists c', run p c t2 = Some c' /\ wf c' /\ tally (t1 ++ t2) c'.
Proof.
  induction t2 as [|[o a] t2 IH]; intros t1 c Hwf Ht Hlen.
  - exists c. rewrite app_nil_r. auto.
  - destruct (simulate_outcome p c (o, a) Hwf) as (c1 & g1 & Hs & Hwf1 & Ho).
    cbn [run]. rewrite Hs. cbn [mbind option_bind].
    rewrite cons_middle, app_assoc in Hlen |- *.
    apply IH; [exact Hwf1| |exact Hlen].
    apply (tally_outcome p c ghost0 t1 o a c1 g1 Ht); [|exact Ho].
    rewrite !length_app in Hlen. cbn [length] in Hlen. lia.
Qed.

Lemma simulation_tally cs assoc bs pol p trace :
  valid_geometry cs assoc bs ->
  2 * (Z.of_nat (length trace) + 1) < 2 ^ 64 ->
  exists c, simulation cs assoc bs pol p trace = Some c /\ wf c /\
            tally trace c.
Proof.
  intros Hgeo Hlen.
  destruct (create_cache_wf cs assoc bs pol Hgeo)
    as (c0 & Hc0 & Hwf0 & _ & Hstats & _).
  unfold simulation. rewrite Hc0. cbn [mbind option_bind].
  apply (run_tally p trace [] c0 Hwf0); [|exact Hlen].
  unfold stats in Hstats. injection Hstats as Eh Em Er Ew.
  unfold tally. rewrite Eh, Em, Er, Ew. cbn. lia.
Qed.

(** C5.  For every accepted geometry, policy and prefetch setting, and
    every trace whose length the 64-bit counters can hold (twice the
    length of the trace and of the next access below 2^64, since an
    access can count two reads):
    after the trace [hits + misses] is the number of accesses processed,
    and after one more access it is one more; across that access none of
    the four counters decreases. *)
Theorem counters_track_accesses cs assoc bs pol p trace x :
  valid_geometry cs assoc bs ->
  2 * (Z.of_nat (length trace) + 1) < 2 ^ 64 ->
  exists c c',
    simulation cs assoc bs pol p trace = Some c /\
    simulate p c x = Some c' /\
    hits c + misses c = Z.of_nat (length trace) /\
    hits c' + misses c' = Z.of_nat (length trace) + 1 /\
    hits c <= hits c' /\ misses c <= misses c' /\
    reads c <= reads c' /\ writes c <= writes c'.
Proof.
  intros Hgeo Hlen.
  destruct (simulation_tally cs assoc bs pol p trace Hgeo)
    as (c & Hsim & Hwf & Ht); [lia|].
  destruct (simulate_outcome p c x Hwf) as (c' & g' & Hs & _ & Ho).
  exists c, c'. split; [exact Hsim|]. split; [exact Hs|].
  destruct x as [o a].
  destruct (tally_outcome p c ghost0 trace o a c' g' Ht) as (Ht' & Hmono);
    [lia|exact Ho|].
  destruct Ht as (Hsum & _). destruct Ht' as (Hsum' & _).
  rewrite length_app in Hsum'. cbn [length] in Hsum'.
  split; [exact Hsum|]. split; [lia|exact Hmono].
Qed.

Lemma counters_track_accesses_witness :
  valid_geometry 32 1 4 /\
  2 * (Z.of_nat (length [(R, 0); (W, 4); (R, 0)]) + 1) < 2 ^ 64 /\
  exists c c',
    simulation 32 1 4 POLICY_LRU 1 [(R, 0); (W, 4); (R, 0)] = Some c /\
    simulate 1 c (W, 64) = Some c' /\
    hits c + misses c = Z.of_nat (length [(R, 0); (W, 4); (R, 0)]) /\
    hits c' + misses c' = Z.of_nat (length [(R, 0); (W, 4); (R, 0)]) + 1 /\
    hits c <= hits c' /\ misses c <= misses c' /\
    reads c <= reads c' /\ writes c <= writes c'.
Proof.
  assert (Hgeo : valid_geometry 32 1 4)
    by (unfold valid_geometry, INT_MAX; lia).
  assert (Hlen : 2 * (Z.of_nat (length [(R, 0); (W, 4); (R, 0)]) + 1) < 2 ^ 64)
    by (cbn; lia).
  split; [exact Hgeo|]. split; [exact Hlen|].
  exact (counters_track_accesses 32 1 4 POLICY_LRU 1 [(R, 0); (W, 4); (R, 0)]
           (W, 64) Hgeo Hlen).
Defined.

(** ** Prefetching and the counters *)

(** C2, as the specification states it, fails.  With capacity 16, two
    ways, block size 4 and FIFO, the six reads below end with 0 hits,
    6 misses and 6 memory reads when prefetching is off, and with
    3 hits, 3 misses and 5 memory reads when it is on: prefetched blocks
    turn later misses into hits, and here they even save a memory
    read. *)
Lemma prefetch_changes_hits_and_misses :
  stats <$> simulation 16 2 4 POLICY_FIFO 0
              [(R, 12); (R, 0); (R, 16); (R, 8); (R, 4); (R, 0)]
    = Some (0, 6, 6, 0) /\
  stats <$> simulation 16 2 4 POLICY_FIFO 1
              [(R, 12); (R, 0); (R, 16); (R, 8); (R, 4); (R, 0)]
    = Some (3, 3, 5, 0).
Proof. split; vm_compute; reflexivity. Qed.

Lemma prefetch_next_counters c a :
  wf c ->
  exists c', prefetch_next c a = Some c' /\
    hits c' = hits c /\ misses c' = misses c /\ writes c' = writes c /\
    (reads c' = reads c \/ reads c' = add64 (reads c) 1).
Proof.
  intros Hwf.
  destruct (prefetch_next_stamped_outcome c ghost0 a Hwf) as (c' & g' & Hp & Ho).
  exists c'. rewrite <- (prefetch_next_stamped_erase c ghost0 a), Hp.
  split; [reflexivity|]. exact (prefetch_outcome_stats _ _ _ _ _ Ho).
Qed.

(** C2, amended.  For every accepted geometry and policy and every trace
    the counters can hold, the run with prefetching and the run without
    agree on [memory_writes] and on the sum [hits + misses], which is
    the number of accesses; [hits], [misses] and [memory_reads] taken
    alone may differ.  What prefetching never does is count a hit, a
    miss or a write of its own: a call of [prefetch_next] leaves those
    three counters unchanged and adds at most one memory read. *)
Theorem prefetch_effect_on_counters cs assoc bs pol trace :
  valid_geometry cs assoc bs ->
  2 * (Z.of_nat (length trace) + 1) < 2 ^ 64 ->
  exists c0 c1,
    simulation cs assoc bs pol 0 trace = Some c0 /\
    simulation cs assoc bs pol 1 trace = Some c1 /\
    writes c1 = writes c0 /\
    hits c1 + misses c1 = hits c0 + misses c0 /\
    hits c0 + misses c0 = Z.of_nat (length trace) /\
    forall a, exists c',
      prefetch_next c1 a = Some c' /\
      hits c' = hits c1 /\ misses c' = misses c1 /\ writes c' = writes c1 /\
      (reads c' = reads c1 \/ reads c' = add64 (reads c1) 1).
Proof.
  intros Hgeo Hlen.
  destruct (simulation_tally cs assoc bs pol 0 trace Hgeo Hlen)
    as (c0 & Hsim0 & Hwf0 & (Hsum0 & _ & _ & Hw0 & _)).
  destruct (simulation_tally cs assoc bs pol 1 trace Hgeo Hlen)
    as (c1 & Hsim1 & Hwf1 & (Hsum1 & _ & _ & Hw1 & _)).
  exists c0, c1. split; [exact Hsim0|]. split; [exact Hsim1|].
  split; [congruence|]. split; [congruence|]. split; [exact Hsum0|].
  intros a. exact (prefetch_next_counters c1 a Hwf1).
Qed.

Lemma prefetch_effect_on_counters_witness :
  valid_geometry 16 2 4 /\
  2 * (Z.of_nat (length [(R, 12); (R, 0); (W, 16); (R, 8)]) + 1) < 2 ^ 64 /\
  exists c0 c1,
    simulation 16 2 4 POLICY_FIFO 0 [(R, 12); (R, 0); (W, 16); (R, 8)]
      = Some c0 /\
    simulation 16 2 4 POLICY_FIFO 1 [(R, 12); (R, 0); (W, 16); (R, 8)]
      = Some c1 /\
    writes c1 = writes c0 /\
    hits c1 + misses c1 = hits c0 + misses c0 /\
    hits c0 + misses c0
      = Z.of_nat (length [(R, 12); (R, 0); (W, 16); (R, 8)]) /\
    forall a, exists c',
      prefetch_next c1 a = Some c' /\
      hits c' = hits c1 /\ misses c' = misses c1 /\ writes c' = writes c1 /\
      (reads c' = reads c1 \/ reads c' = add64 (reads c1) 1).
Proof.
  assert (Hgeo : valid_geometry 16 2 4)
    by (unfold valid_geometry, INT_MAX; lia).
  assert (Hlen : 2 * (Z.of_nat (length [(R, 12); (R, 0); (W, 16); (R, 8)]) + 1)
                 < 2 ^ 64) by (cbn; lia).
  split; [exact Hgeo|]. split; [exact Hlen|].
  exact (prefetch_effect_on_counters 16 2 4 POLICY_FIFO
           [(R, 12); (R, 0); (W, 16); (R, 8)] Hgeo Hlen).
Defined.

(** ** FIFO *)

Lemma mod_minus_one n T k :
  0 < n -> 0 <= k < n -> (T - 1 - k) mod n = n - 1 -> k = T mod n.
Proof.
  intros Hn Hk Hm.
  pose proof (Z.div_mod (T - 1 - k) n ltac:(lia)) as Hdm.
  rewrite Hm in Hdm.
  apply (Z.mod_unique T n ((T - 1 - k) / n + 1) k); [lia|lia].
Qed.

Lemma mod_of_own_residue n T : 0 < n -> (T - T mod n) mod n = 0.
Proof.
  intros Hn. rewrite Zminus_mod, Z.mod_mod by lia.
  rewrite Z.sub_diag. apply Z.mod_0_l. lia.
Qed.

Lemma mod_succ n x : 0 < n -> x mod n <> n - 1 -> (x + 1) mod n = x mod n + 1.
Proof.
  intros Hn Hne.
  pose proof (Z.mod_pos_bound x n Hn) as Hb.
  pose proof (Z.div_mod x n ltac:(lia)) as Hdm.
  symmetry. apply (Z.mod_unique (x + 1) n (x / n) (x mod n + 1)); lia.
Qed.

Lemma fifo_row_age_small n T s j l :
  0 < n -> fifo_row n T s -> s !! j = Some l -> valid l <> 0 ->
  0 <= age l < n.
Proof.
  intros Hn Hrow Hl Hv. destruct (Hrow j l Hl) as [Hvalid Hage].
  rewrite Hage by (now apply Hvalid). apply Z.mod_pos_bound. exact Hn.
Qed.

(** Under FIFO the scan selects the slot the round-robin order reaches
    next. *)
Lemma fifo_row_selected n T s k :
  0 < n -> 0 <= T -> length s = Z.to_nat n -> fifo_row n T s ->
  (k < length s)%nat -> selected k s ->
  Z.of_nat k = T mod n.
Proof.
  intros Hn HT Hlen Hrow Hk [(_ & (l & Hl & Hv) & Hbefore)|[Hall Hold]].
  - destruct (Hrow k l Hl) as [Hvalid _].
    assert (HkT : T <= Z.of_nat k) by (destruct (Z.lt_ge_cases (Z.of_nat k) T)
      as [Hlt|Hge]; [apply Hvalid in Hlt; contradiction|exact Hge]).
    assert (HTk : Z.of_nat k <= T).
    { destruct (Z.lt_ge_cases T (Z.of_nat k)) as [Hlt|Hge]; [|exact Hge].
      exfalso.
      destruct (lookup_lt_is_Some_2 s (Z.to_nat T)) as [lT HlT]; [lia|].
      assert (HvT : valid lT <> 0) by (apply (Hbefore (Z.to_nat T)); [lia|exact HlT]).
      apply (Hrow _ _ HlT) in HvT. lia. }
    assert (T = Z.of_nat k) by lia. subst T.
    symmetry. apply Z.mod_small. lia.
  - destruct Hold as (_ & lk & Hlk & Hmax & _).
    assert (HnT : n <= T).
    { destruct (lookup_lt_is_Some_2 s (Z.to_nat (n - 1))) as [l Hl]; [lia|].
      pose proof (Hall _ _ (Nat.le_0_l _) Hl) as Hv.
      apply (Hrow _ _ Hl) in Hv. lia. }
    pose proof (Z.mod_pos_bound T n Hn) as Hj0.
    destruct (lookup_lt_is_Some_2 s (Z.to_nat (T mod n))) as [l0 Hl0]; [lia|].
    destruct (Hrow _ _ Hl0) as [_ Hage0].
    rewrite Z2Nat.id in Hage0 by lia. specialize (Hage0 ltac:(lia)).
    assert (Hmax0 : age l0 = n - 1).
    { rewrite Hage0.
      pose proof (Z.div_mod T n ltac:(lia)) as Hdm.
      symmetry.
      apply (Z.mod_unique (T - 1 - T mod n) n (T / n - 1) (n - 1)); lia. }
    pose proof (Hmax _ _ (Nat.le_0_l _) Hl0) as Hle.
    destruct (Hrow _ _ Hlk) as [_ Hagek]. specialize (Hagek ltac:(lia)).
    pose proof (Z.mod_pos_bound (T - 1 - Z.of_nat k) n Hn) as Hbk.
    apply mod_minus_one; [exact Hn|lia|lia].
Qed.

Lemma fifo_row_loaded n T s k tg :
  0 < n <= INT_MAX -> 0 <= T -> length s = Z.to_nat n -> fifo_row n T s ->
  (k < length s)%nat -> Z.of_nat k = T mod n ->
  fifo_row n (T + 1) (loaded s k tg).
Proof.
  intros Hn HT Hlen Hrow Hk HkT j l Hl.
  unfold INT_MAX in Hn.
  pose proof (Z.mod_pos_bound T n ltac:(lia)) as Hb.
  pose proof (Z.mod_le T n HT ltac:(lia)) as HmodT.
  rewrite loaded_lookup in Hl.
  destruct (s !! j) as [l0|] eqn:Ej; [|discriminate].
  cbn in Hl. injection Hl as <-.
  destruct (decide (j = k)) as [->|Hjk].
  - cbn. split; [split; intros; lia|]. intros _.
    replace (T + 1 - 1 - Z.of_nat k) with (T - T mod n) by lia.
    symmetry. apply mod_of_own_residue. lia.
  - destruct (Hrow j l0 Ej) as [Hvalid Hage].
    pose proof (lookup_lt_Some _ _ _ Ej) as Hj.
    assert (HjT : Z.of_nat j <> T).
    { intros E. apply Hjk. apply Nat2Z.inj. rewrite HkT, <- E.
      symmetry. apply Z.mod_small. lia. }
    destruct (bump_valid_tag l0) as [V _]. rewrite V.
    split; [rewrite Hvalid; lia|]. intros HjT1.
    assert (HjT2 : Z.of_nat j < T) by lia.
    assert (Hv : valid l0 <> 0) by (now apply Hvalid).
    specialize (Hage HjT2).
    unfold bump. destruct (valid l0 =? 0) eqn:Ev;
      [apply Z.eqb_eq in Ev; contradiction|]. cbn [age set_age].
    pose proof (Z.mod_pos_bound (T - 1 - Z.of_nat j) n ltac:(lia)) as Hbj.
    rewrite add64_small by lia.
    replace (T + 1 - 1 - Z.of_nat j) with (T - 1 - Z.of_nat j + 1) by lia.
    rewrite mod_succ; [lia|lia|].
    intros E. apply Hjk. apply Nat2Z.inj. rewrite HkT.
    apply mod_minus_one; [lia|lia|exact E].
Qed.

Lemma stamp_slot_same g i k j :
  stamp (stamp_slot g i k) i j = if decide (j = k) then clock g else stamp g i j.
Proof.
  cbn. destruct (decide (j = k)) as [->|Hne].
  - now rewrite decide_True.
  - rewrite decide_False; [reflexivity|]. intros [_ H]. contradiction.
Qed.

Lemma stamp_slot_other g i k i' j :
  i' <> i -> stamp (stamp_slot g i k) i' j = stamp g i' j.
Proof.
  intros Hne. cbn. rewrite decide_False; [reflexivity|].
  intros [H _]. contradiction.
Qed.

Lemma bump_age l :
  valid l <> 0 -> 0 <= age l < 2 ^ 64 - 1 -> age (bump l) = age l + 1.
Proof.
  intros Hv Ha. unfold bump.
  destruct (valid l =? 0) eqn:E; [apply Z.eqb_eq in E; contradiction|].
  cbn. now apply add64_small.
Qed.

(** Filling slot [k] at the current clock keeps insertion order and age
    order in step, as long as no age wraps. *)
Lemma stamps_order_loaded g i s k tg :
  stamps_order g i s -> stamps_past g i s ->
  (forall j l, s !! j = Some l -> valid l <> 0 -> 0 <= age l < 2 ^ 64 - 1) ->
  stamps_order (stamp_slot g i k) i (loaded s k tg).
Proof.
  intros Hord Hpast Hsmall j1 j2 l1 l2 H1 H2 V1 V2.
  rewrite loaded_lookup in H1, H2.
  destruct (s !! j1) as [m1|] eqn:E1; [|discriminate].
  destruct (s !! j2) as [m2|] eqn:E2; [|discriminate].
  cbn in H1, H2. injection H1 as <-. injection H2 as <-.
  rewrite !stamp_slot_same.
  destruct (decide (j1 = k)) as [->|N1], (decide (j2 = k)) as [->|N2].
  - split; [split; cbn; lia|reflexivity].
  - destruct (bump_valid_tag m2) as [V _]. rewrite V in V2.
    pose proof (Hpast _ _ E2 V2) as Hlt.
    pose proof (Hsmall _ _ E2 V2) as Ha.
    rewrite (bump_age m2 V2 Ha). cbn [age]. split; [split; lia|lia].
  - destruct (bump_valid_tag m1) as [V _]. rewrite V in V1.
    pose proof (Hpast _ _ E1 V1) as Hlt.
    pose proof (Hsmall _ _ E1 V1) as Ha.
    rewrite (bump_age m1 V1 Ha). cbn [age]. split; [split; lia|lia].
  - destruct (bump_valid_tag m1) as [W1 _]. rewrite W1 in V1.
    destruct (bump_valid_tag m2) as [W2 _]. rewrite W2 in V2.
    rewrite (bump_age m1 V1 (Hsmall _ _ E1 V1)).
    rewrite (bump_age m2 V2 (Hsmall _ _ E2 V2)).
    destruct (Hord j1 j2 m1 m2 E1 E2 V1 V2) as [Hiff Hinj].
    split; [|exact Hinj]. rewrite Hiff. lia.
Qed.

Lemma stamps_past_loaded g i s k tg :
  stamps_past g i s -> stamps_past (stamp_slot g i k) i (loaded s k tg).
Proof.
  intros Hpast j l Hl Hv. rewrite loaded_lookup in Hl.
  destruct (s !! j) as [m|] eqn:E; [|discriminate].
  cbn in Hl. injection Hl as <-. rewrite stamp_slot_same. cbn [clock stamp_slot].
  destruct (decide (j = k)); [lia|].
  destruct (bump_valid_tag m) as [V _]. rewrite V in Hv.
  pose proof (Hpast _ _ E Hv). lia.
Qed.

Lemma stamps_order_other g i k i' s :
  i' <> i -> stamps_order g i' s -> stamps_order (stamp_slot g i k) i' s.
Proof.
  intros Hne Hord j1 j2 l1 l2 H1 H2 V1 V2.
  rewrite !stamp_slot_other by exact Hne. now apply Hord.
Qed.

Lemma stamps_past_other g i k i' s :
  i' <> i -> stamps_past g i' s -> stamps_past (stamp_slot g i k) i' s.
Proof.
  intros Hne Hpast j l Hl Hv. rewrite stamp_slot_other by exact Hne.
  cbn [clock stamp_slot]. pose proof (Hpast _ _ Hl Hv). lia.
Qed.

Lemma fifo_inv_inserts c g a c' g' :
  wf c -> fifo_inv c g -> inserts c g a c' g' -> fifo_inv c' g'.
Proof.
  intros Hwf [Hpol Hrows] Hins. destruct Hins as [s k Hs [Hlen Hok] Hk Hsel].
  pose proof (wf_set_lines c Hwf) as Hn.
  assert (Hpos : 0 < set_lines c) by lia.
  destruct (Hrows _ _ Hs) as ((T & HT & Hrow) & Hord & Hpast).
  pose proof (fifo_row_selected _ _ _ _ Hpos HT Hlen Hrow Hk Hsel) as HkT.
  split; [exact Hpol|]. intros i' s' Hs'. cbn [lines fill_set with_lines] in Hs'.
  cbn [set_lines fill_set with_lines].
  destruct (decide (i' = Z.to_nat (get_set_index c a))) as [->|Hne].
  - rewrite list_lookup_insert_eq in Hs' by (now apply lookup_lt_Some in Hs).
    injection Hs' as <-. split; [|split].
    + exists (T + 1). split; [lia|].
      now apply fifo_row_loaded.
    + apply stamps_order_loaded; [exact Hord|exact Hpast|].
      intros j l Hl Hv.
      pose proof (fifo_row_age_small _ _ _ _ _ Hpos Hrow Hl Hv).
      unfold INT_MAX in Hn. lia.
    + now apply stamps_past_loaded.
  - rewrite list_lookup_insert_ne in Hs' by congruence.
    destruct (Hrows _ _ Hs') as (HT' & Hord' & Hpast').
    split; [exact HT'|]. split.
    + now apply stamps_order_other.
    + now apply stamps_past_other.
Qed.

Lemma fifo_inv_outcome p c g x c' g' :
  wf c -> fifo_inv c g -> access_outcome p c g x c' g' -> fifo_inv c' g'.
Proof.
  apply (pieces_outcome fifo_inv); try (intros c0 g0 H; exact H).
  - intros c0 g0 set_idx s k tg Hwf HI Hs Hm. unfold touch.
    destruct HI as [Hpol Hrows].
    destruct (policy c0 =? POLICY_LRU) eqn:E;
      [apply Z.eqb_eq in E; contradiction|].
    split; assumption.
  - intros c0 g0 a s c1 g1 Hwf HI _ _ Hins.
    exact (fifo_inv_inserts _ _ _ _ _ Hwf HI Hins).
Qed.

Lemma fifo_inv_fresh c g :
  policy c <> POLICY_LRU ->
  Forall (Forall (fun l => valid l = 0)) (lines c) -> fifo_inv c g.
Proof.
  intros Hpol Hinv. split; [exact Hpol|]. intros i s Hs.
  pose proof (proj1 (Forall_lookup _ _) Hinv _ _ Hs) as Hrow.
  assert (Hno : forall j l, s !! j = Some l -> valid l = 0)
    by (intros j l Hl; exact (proj1 (Forall_lookup _ _) Hrow _ _ Hl)).
  split; [|split].
  - exists 0. split; [lia|]. intros j l Hl. rewrite (Hno _ _ Hl).
    split; [split; lia|lia].
  - intros j1 j2 l1 l2 H1 _ V1. now rewrite (Hno _ _ H1) in V1.
  - intros j l Hl V. now rewrite (Hno _ _ Hl) in V.
Qed.

(** Under FIFO a hit changes the hit counter (and the write counter) and
    nothing else. *)
Lemma fifo_hit_frame p c g o a line_idx set_idx :
  policy c <> POLICY_LRU ->
  find_line c a = Some (line_idx, set_idx) -> line_idx <> -1 ->
  exists c', simulate_stamped p (c, g) (o, a) = Some (c', g) /\
             simulate p c (o, a) = Some c' /\
             lines c' = lines c.
Proof.
  intros Hpol Hfind Hhit.
  assert (E1 : negb (line_idx =? -1) = true)
    by (apply negb_true_iff, Z.eqb_neq; exact Hhit).
  assert (E2 : negb (policy c =? POLICY_LRU) = true)
    by (apply negb_true_iff, Z.eqb_neq; exact Hpol).
  destruct o; cbn [simulate_stamped simulate fst snd];
    [unfold simulate_read_stamped, simulate_read
    |unfold simulate_write_stamped, simulate_write];
    rewrite Hfind; cbn [mbind option_bind]; rewrite E1;
    unfold update_lru_on_access; cbn [policy incr_hits incr_writes];
    rewrite E2; cbn [mbind option_bind];
    eexists; (split; [reflexivity|]); (split; reflexivity).
Qed.

(** C7.  Under FIFO, for every accepted geometry, prefetch setting and
    trace, the simulation returns, and in the cache it returns:
    - in every set the valid lines are ordered by age exactly as they
      are ordered by insertion time, an earlier insertion meaning a
      larger age, so the oldest-inserted valid line has the highest age;
    - in a set without invalid line the slot [load_block] would fill
      next is the line inserted before all the others;
    - any access that hits, read or write, returns a cache with the very
      same lines (valid bits, tags and ages) and leaves the insertion
      times as they are, so the two facts above are not affected by
      hits. *)
Theorem fifo_order_survives_hits cs assoc bs p trace :
  valid_geometry cs assoc bs ->
  exists c g,
    simulation cs assoc bs POLICY_FIFO p trace = Some c /\
    simulation_stamped cs assoc bs POLICY_FIFO p trace = Some (c, g) /\
    (forall i s, lines c !! i = Some s -> stamps_order g i s) /\
    (forall i s, lines c !! i = Some s -> all_valid_from 0 s ->
       exists k, select_slot s (Z.to_nat (set_lines c)) = Some (Z.of_nat k) /\
                 forall j, (j < length s)%nat -> j <> k ->
                           (stamp g i k < stamp g i j)%nat) /\
    (forall o a line_idx set_idx,
       find_line c a = Some (line_idx, set_idx) -> line_idx <> -1 ->
       exists c', simulate_stamped p (c, g) (o, a) = Some (c', g) /\
                  simulate p c (o, a) = Some c' /\
                  lines c' = lines c).
Proof.
  intros Hgeo.
  destruct (create_cache_wf cs assoc bs POLICY_FIFO Hgeo)
    as (c0 & Hc0 & Hwf0 & Hpol0 & _ & Hfresh).
  assert (Hpol : policy c0 <> POLICY_LRU)
    by (rewrite Hpol0; unfold POLICY_FIFO, POLICY_LRU; lia).
  destruct (run_stamped_invariant fifo_inv fifo_inv_outcome p trace c0 ghost0
              Hwf0 (fifo_inv_fresh c0 ghost0 Hpol Hfresh))
    as (c & g & Hrun & Hwf & [Hpolc Hrows]).
  exists c, g. unfold simulation, simulation_stamped.
  rewrite Hc0. cbn [mbind option_bind].
  split; [rewrite <- (run_stamped_erase p trace c0 ghost0), Hrun; reflexivity|].
  split; [exact Hrun|]. split; [|split].
  - intros i s Hs. exact (proj1 (proj2 (Hrows i s Hs))).
  - intros i s Hs Hall.
    destruct (Hrows i s Hs) as (_ & Hord & _).
    pose proof (proj1 (Forall_lookup _ _) (wf_rows c Hwf) _ _ Hs) as [Hlen Hok].
    pose proof (wf_set_lines c Hwf) as Hn.
    destruct (select_slot_spec s) as (k & Hsel & Hk & Hselected);
      [lia|exact Hok|].
    exists k. rewrite <- Hlen. split; [exact Hsel|].
    destruct Hselected as [(_ & (l & Hl & Hv) & _)|[_ (_ & lk & Hlk & Hmax & _)]].
    { exfalso. exact (Hall k l (Nat.le_0_l _) Hl Hv). }
    intros j Hj Hjk.
    destruct (lookup_lt_is_Some_2 s j Hj) as [lj Hlj].
    pose proof (Hall _ _ (Nat.le_0_l _) Hlj) as Vj.
    pose proof (Hall _ _ (Nat.le_0_l _) Hlk) as Vk.
    destruct (Hord j k lj lk Hlj Hlk Vj Vk) as [Hiff Hinj].
    pose proof (Hmax _ _ (Nat.le_0_l _) Hlj) as Hle.
    destruct (Nat.lt_trichotomy (stamp g i k) (stamp g i j)) as [Hlt|[Heq|Hgt]].
    + exact Hlt.
    + exfalso. apply Hjk. apply Hinj. congruence.
    + apply Hiff in Hgt. lia.
  - intros o a line_idx set_idx Hfind Hhit.
    exact (fifo_hit_frame p c g o a line_idx set_idx Hpolc Hfind Hhit).
Qed.

Lemma fifo_order_survives_hits_witness :
  valid_geometry 16 2 4 /\
  exists c g,
    simulation 16 2 4 POLICY_FIFO 1 [(R, 0); (R, 16); (W, 0); (R, 32)]
      = Some c /\
    simulation_stamped 16 2 4 POLICY_FIFO 1 [(R, 0); (R, 16); (W, 0); (R, 32)]
      = Some (c, g) /\
    (forall i s, lines c !! i = Some s -> stamps_order g i s) /\
    (forall i s, lines c !! i = Some s -> all_valid_from 0 s ->
       exists k, select_slot s (Z.to_nat (set_lines c)) = Some (Z.of_nat k) /\
                 forall j, (j < length s)%nat -> j <> k ->
                           (stamp g i k < stamp g i j)%nat) /\
    (forall o a line_idx set_idx,
       find_line c a = Some (line_idx, set_idx) -> line_idx <> -1 ->
       exists c', simulate_stamped 1 (c, g) (o, a) = Some (c', g) /\
                  simulate 1 c (o, a) = Some c' /\
                  lines c' = lines c).
Proof.
  assert (Hgeo : valid_geometry 16 2 4)
    by (unfold valid_geometry, INT_MAX; lia).
  split; [exact Hgeo|].
  exact (fifo_order_survives_hits 16 2 4 1
           [(R, 0); (R, 16); (W, 0); (R, 32)] Hgeo).
Defined.

(** ** LRU *)

(** When the scan selects the protected line, every line that was valid
    beside it at clock [T0] has been refilled since. *)
Lemma protects_victim i k T0 s1 m c g s :
  protects i k T0 s1 m c g ->
  lines c !! i = Some s -> selected k s ->
  forall j l1, j <> k -> s1 !! j = Some l1 -> valid l1 <> 0 ->
               (T0 <= stamp g i j)%nat.
Proof.
  intros (Hclock & s0 & Hs0 & Hsmall & Hstay & Hyoung & Hgone) Hs Hsel.
  assert (s0 = s) by congruence. subst s0.
  destruct (le_lt_dec T0 (stamp g i k)) as [Hk|Hk]; [exact (Hgone Hk)|].
  destruct (Hyoung Hk) as (lk & Hlk & Hvk & Hlt).
  intros j l1 Hj Hl1 Hv1.
  destruct (le_lt_dec T0 (stamp g i j)) as [Hge|Hold]; [exact Hge|].
  exfalso.
  destruct (Hstay j l1 Hj Hl1 Hv1) as [Hge|(l & Hl & Hv)]; [lia|].
  pose proof (Hlt j l Hj Hl Hv Hold) as Hyounger.
  destruct Hsel as [(_ & (l' & Hl' & Hv') & _)|[_ (_ & lk' & Hlk' & Hmax & _)]].
  - assert (l' = lk) by congruence. subst l'. contradiction.
  - assert (lk' = lk) by congruence. subst lk'.
    pose proof (Hmax j l (Nat.le_0_l _) Hl). lia.
Qed.

Lemma protects_inserts i k T0 s1 m c g b c' g' :
  wf c -> 0 < m ->
  protects i k T0 s1 m c g -> inserts c g b c' g' ->
  protects i k T0 s1 (m - 1) c' g'.
Proof.
  intros Hwf Hm HP Hins.
  destruct Hins as [s k' Hs Hrow Hk' Hsel].
  destruct (decide (i = Z.to_nat (get_set_index c b))) as [->|Hne].
  2:{ destruct HP as (Hclock & s0 & Hs0 & Hsmall & Hstay & Hyoung & Hgone).
      split; [cbn; lia|]. exists s0. cbn [lines fill_set with_lines].
      split; [now rewrite list_lookup_insert_ne by congruence|].
      split; [intros j l Hl; pose proof (Hsmall j l Hl); lia|].
      split; [|split].
      - intros j l1 Hj Hl1 Hv1. rewrite stamp_slot_other by exact Hne.
        exact (Hstay j l1 Hj Hl1 Hv1).
      - rewrite stamp_slot_other by exact Hne. intros Hk.
        destruct (Hyoung Hk) as (lk & Hlk & Hvk & Hlt).
        exists lk. split; [exact Hlk|]. split; [exact Hvk|].
        intros j l Hj Hl Hv. rewrite stamp_slot_other by exact Hne.
        exact (Hlt j l Hj Hl Hv).
      - rewrite stamp_slot_other by exact Hne. intros Hk j l1 Hj Hl1 Hv1.
        rewrite stamp_slot_other by exact Hne. exact (Hgone Hk j l1 Hj Hl1 Hv1). }
  pose proof (protects_victim _ _ _ _ _ _ _ s HP Hs) as Hvictim.
  destruct HP as (Hclock & s0 & Hs0 & Hsmall & Hstay & Hyoung & Hgone).
  assert (s0 = s) by congruence. subst s0.
  destruct Hrow as [Hlen Hok].
  assert (Hnonneg : forall j l, s !! j = Some l -> 0 <= age l).
  { intros j l Hl. pose proof (proj1 (Forall_lookup _ _) Hok _ _ Hl) as H.
    unfold line_ok in H. lia. }
  split; [cbn; lia|]. exists (loaded s k' (get_tag c b)).
  cbn [lines fill_set with_lines].
  split; [apply list_lookup_insert_eq; now apply lookup_lt_Some in Hs|].
  split; [|split; [|split]].
  - intros j l Hl. rewrite loaded_lookup in Hl.
    destruct (s !! j) as [l0|] eqn:E; [|discriminate].
    cbn in Hl. injection Hl as <-.
    pose proof (Hsmall _ _ E). pose proof (Hnonneg _ _ E).
    destruct (decide (j = k')); [cbn; lia|].
    unfold bump. destruct (valid l0 =? 0); [lia|]. cbn.
    rewrite add64_small by lia. lia.
  - intros j l1 Hj Hl1 Hv1. rewrite stamp_slot_same.
    destruct (decide (j = k')) as [->|Hjk']; [left; lia|].
    destruct (Hstay j l1 Hj Hl1 Hv1) as [Hge|(l & Hl & Hv)]; [left; exact Hge|].
    right. exists (bump l). rewrite loaded_lookup, Hl.
    cbn [fmap option_fmap option_map].
    rewrite decide_False by exact Hjk'. split; [reflexivity|].
    destruct (bump_valid_tag l) as [V _]. now rewrite V.
  - rewrite stamp_slot_same.
    destruct (decide (k = k')) as [<-|Hkk']; [intros; lia|]. intros Hk.
    destruct (Hyoung Hk) as (lk & Hlk & Hvk & Hlt).
    exists (bump lk). rewrite loaded_lookup, Hlk.
    cbn [fmap option_fmap option_map].
    rewrite decide_False by exact Hkk'. split; [reflexivity|].
    destruct (bump_valid_tag lk) as [V _]. split; [now rewrite V|].
    intros j l Hj Hl Hv. rewrite stamp_slot_same.
    destruct (decide (j = k')) as [->|Hjk']; [intros; lia|]. intros Hold.
    rewrite loaded_lookup in Hl.
    destruct (s !! j) as [l0|] eqn:E; [|discriminate].
    cbn in Hl. rewrite decide_False in Hl by exact Hjk'. injection Hl as <-.
    destruct (bump_valid_tag l0) as [V0 _]. rewrite V0 in Hv.
    pose proof (Hlt j l0 Hj E Hv Hold).
    pose proof (Hsmall _ _ E). pose proof (Hsmall _ _ Hlk).
    rewrite (bump_age lk Hvk), (bump_age l0 Hv);
      [lia|split; [apply (Hnonneg _ _ E)|lia]
      |split; [apply (Hnonneg _ _ Hlk)|lia]].
  - rewrite stamp_slot_same. intros Hk j l1 Hj Hl1 Hv1.
    rewrite stamp_slot_same.
    destruct (decide (j = k')) as [->|Hjk']; [lia|].
    destruct (decide (k = k')) as [<-|Hkk'].
    + exact (Hvictim Hsel j l1 Hj Hl1 Hv1).
    + exact (Hgone Hk j l1 Hj Hl1 Hv1).
Qed.

Lemma protects_loads i k T0 s1 : forall bs c g,
  wf c -> protects i k T0 s1 (Z.of_nat (length bs)) c g ->
  exists c2 g2, load_blocks_stamped (c, g) bs = Some (c2, g2) /\
                wf c2 /\ protects i k T0 s1 0 c2 g2.
Proof.
  induction bs as [|b bs IH]; intros c g Hwf HP.
  - exists c, g. auto.
  - destruct (load_block_stamped_inserts c g b Hwf) as (c1 & g1 & Hl & _ & Hins).
    cbn [load_blocks_stamped fst snd]. rewrite Hl. cbn [mbind option_bind].
    apply IH; [eapply inserts_wf; eassumption|].
    replace (Z.of_nat (length bs)) with (Z.of_nat (length (b :: bs)) - 1)
      by (cbn [length]; lia).
    eapply protects_inserts; [exact Hwf| |exact HP|exact Hins].
    cbn [length]. lia.
Qed.



Lemma aged_age_other idx j l :
  valid l <> 0 -> Z.of_nat j <> idx -> 0 <= age l < 2 ^ 64 - 1 ->
  age (aged idx j l) = age l + 1.
Proof.
  intros Hv Hj Ha. unfold aged.
  destruct (valid l =? 0) eqn:E; [apply Z.eqb_eq in E; contradiction|].
  destruct (Z.of_nat j =? idx) eqn:E'; [apply Z.eqb_eq in E'; contradiction|].
  cbn. now apply add64_small.
Qed.

Lemma aged_age_self j l :
  valid l <> 0 -> age (aged (Z.of_nat j) j l) = 0.
Proof.
  intros Hv. unfold aged.
  destruct (valid l =? 0) eqn:E; [apply Z.eqb_eq in E; contradiction|].
  now rewrite Z.eqb_refl.
Qed.

Lemma aged_age_le idx j l :
  0 <= age l < 2 ^ 64 - 1 -> 0 <= age (aged idx j l) <= age l + 1.
Proof.
  intros Ha. unfold aged. destruct (valid l =? 0); [lia|].
  destruct (Z.of_nat j =? idx); cbn; [lia|]. rewrite add64_small by lia. lia.
Qed.













(** A prefetch can take the line hit last in the middle of an access:
    after the hit of read 0x0 on [lru_pair], read 0x8 with prefetching
    calls [load_block] twice, first on line 1 and then, for the
    prefetch of 0xc, on line 0. *)
Example lru_prefetch_load_example :
  (c1 ← simulate 1 lru_pair (R, 0);
   r ← run_logged 1 (c1, ghost0, []) [(R, 8)];
   Some (selections r.2))
  = Some [(8, Some 1); (12, Some 0)].
Proof. vm_compute. reflexivity. Qed.


Lemma lru_pair_wf : wf lru_pair.
Proof. wf_by_computation. Defined.


(** * Further properties of the code *)

(** ** A write is a read that also counts a write *)

Lemma update_lru_on_access_incr_writes c set_idx line_idx :
  update_lru_on_access (incr_writes c) set_idx line_idx
  = incr_writes <$> update_lru_on_access c set_idx line_idx.
Proof.
  unfold update_lru_on_access. cbn [policy set_lines lines incr_writes].
  destruct (negb (policy c =? POLICY_LRU)); [reflexivity|].
  destruct (set_lines c <=? 0); [reflexivity|].
  destruct (lines c !! Z.to_nat set_idx) as [s|]; [|reflexivity].
  cbn [mbind option_bind].
  destruct (age_loop s line_idx (Z.to_nat (set_lines c)) 0) as [s'|];
    reflexivity.
Qed.

Lemma load_block_incr_writes c a :
  load_block (incr_writes c) a = incr_writes <$> load_block c a.
Proof.
  unfold load_block.
  change (get_set_index (incr_writes c) a) with (get_set_index c a).
  change (get_tag (incr_writes c) a) with (get_tag c a).
  cbn [set_lines lines incr_writes].
  destruct (lines c !! Z.to_nat (get_set_index c a)) as [s|]; [|reflexivity].
  cbn [mbind option_bind].
  destruct (select_slot s (Z.to_nat (set_lines c))) as [r|]; [|reflexivity].
  cbn [mbind option_bind].
  destruct (r <? 0); [reflexivity|].
  destruct (s !! Z.to_nat r) as [l|]; [|reflexivity].
  cbn [mbind option_bind].
  destruct (age_loop _ _ _ _); reflexivity.
Qed.

Lemma prefetch_next_incr_writes c a :
  prefetch_next (incr_writes c) a = incr_writes <$> prefetch_next c a.
Proof.
  unfold prefetch_next.
  change (get_block_id (incr_writes c) a) with (get_block_id c a).
  change (block_bits (incr_writes c)) with (block_bits c).
  change (find_line (incr_writes c)) with (find_line c).
  destruct (find_line c _) as [[line_idx set_idx]|]; [|reflexivity].
  cbn [mbind option_bind].
  destruct (line_idx =? -1); [|reflexivity].
  exact (load_block_incr_writes (incr_reads c) _).
Qed.

(** X1.  For every cache, address and prefetch flag, [simulate_write]
    returns exactly what [simulate_read] returns with [writes]
    incremented once (and is undefined exactly when [simulate_read]
    is): a write allocates, ages and prefetches like a read. *)
Theorem simulate_write_as_read c a p :
  simulate_write c a p = incr_writes <$> simulate_read c a p.
Proof.
  unfold simulate_write, simulate_read.
  destruct (find_line c a) as [[line_idx set_idx]|]; [|reflexivity].
  cbn [mbind option_bind].
  destruct (negb (line_idx =? -1)).
  - exact (update_lru_on_access_incr_writes (incr_hits c) set_idx line_idx).
  - destruct (load_block (incr_reads (incr_misses c)) a) as [c1|];
      [|reflexivity].
    cbn [mbind option_bind].
    destruct (negb (p =? 0)); [|reflexivity].
    exact (prefetch_next_incr_writes c1 a).
Qed.

(** ** Totals over a trace *)

Lemma run_reads_misses : forall t2 t1 c,
  wf c -> tally t1 c -> reads c = misses c ->
  2 * (Z.of_nat (length (t1 ++ t2)) + 1) < 2 ^ 64 ->
  exists c', run 0 c t2 = Some c' /\ reads c' = misses c'.
Proof.
  induction t2 as [|[o a] t2 IH]; intros t1 c Hwf Ht Heq Hlen.
  - exists c. auto.
  - destruct (simulate_outcome 0 c (o, a) Hwf) as (c1 & g1 & Hs & Hwf1 & Ho).
    cbn [run]. rewrite Hs. cbn [mbind option_bind].
    rewrite cons_middle, app_assoc in Hlen.
    assert (Hlen1 : 2 * (Z.of_nat (length t1) + 1) < 2 ^ 64)
      by (rewrite !length_app in Hlen; cbn [length] in Hlen; lia).
    destruct (tally_outcome 0 c ghost0 t1 o a c1 g1 Ht Hlen1 Ho) as [Ht1 _].
    apply (IH (t1 ++ [(o, a)]) c1 Hwf1 Ht1); [|exact Hlen].
    destruct (access_outcome_stats _ _ _ _ _ _ _ Ho)
      as [_ [(_ & -> & ->)|(_ & -> & [->|[Hp _]])]];
      [exact Heq|now rewrite Heq|contradiction].
Qed.

(** X2.  For every accepted geometry, policy and prefetch setting and
    every trace the counters can hold: [writes] is the number of write
    records of the trace, whether they hit or missed; [reads] lies
    between [misses] and twice [misses]; and without prefetching
    [reads] equals [misses]. *)
Theorem traffic_totals cs assoc bs pol p trace :
  valid_geometry cs assoc bs ->
  2 * (Z.of_nat (length trace) + 1) < 2 ^ 64 ->
  exists c,
    simulation cs assoc bs pol p trace = Some c /\
    writes c = count_writes trace /\
    misses c <= reads c <= 2 * misses c /\
    (p = 0 -> reads c = misses c).
Proof.
  intros Hgeo Hlen.
  destruct (simulation_tally cs assoc bs pol p trace Hgeo Hlen)
    as (c & Hsim & Hwf & (_ & _ & _ & Hw & Hr)).
  exists c. split; [exact Hsim|]. split; [exact Hw|]. split; [exact Hr|].
  intros ->.
  destruct (create_cache_wf cs assoc bs pol Hgeo)
    as (c0 & Hc0 & Hwf0 & _ & Hstats & _).
  unfold simulation in Hsim. rewrite Hc0 in Hsim.
  cbn [mbind option_bind] in Hsim.
  unfold stats in Hstats. injection Hstats as Eh Em Er Ew.
  destruct (run_reads_misses trace [] c0 Hwf0) as (c' & Hrun & Heq);
    [unfold tally; rewrite Eh, Em, Er, Ew; cbn; lia|congruence|exact Hlen|].
  cbn [app] in Hrun. congruence.
Qed.

Lemma traffic_totals_witness :
  valid_geometry 32 1 4 /\
  2 * (Z.of_nat (length [(W, 0); (R, 4); (W, 0)]) + 1) < 2 ^ 64 /\
  exists c,
    simulation 32 1 4 POLICY_FIFO 0 [(W, 0); (R, 4); (W, 0)] = Some c /\
    writes c = count_writes [(W, 0); (R, 4); (W, 0)] /\
    misses c <= reads c <= 2 * misses c /\
    (0 = 0 -> reads c = misses c).
Proof.
  assert (Hgeo : valid_geometry 32 1 4)
    by (unfold valid_geometry, INT_MAX; lia).
  assert (Hlen : 2 * (Z.of_nat (length [(W, 0); (R, 4); (W, 0)]) + 1) < 2 ^ 64)
    by (cbn; lia).
  split; [exact Hgeo|]. split; [exact Hlen|].
  exact (traffic_totals 32 1 4 POLICY_FIFO 0 [(W, 0); (R, 4); (W, 0)]
           Hgeo Hlen).
Defined.

(** ** Addresses, blocks and sets *)

Lemma get_tag_of_block c a :
  wf c -> get_tag c a = Z.shiftr (get_block_id c a) (set_bits c).
Proof.
  intros Hwf. unfold get_tag, get_block_id.
  rewrite Z.shiftr_shiftr by exact (wf_set_bits c Hwf). reflexivity.
Qed.

Lemma get_set_index_of_block c a :
  wf c -> get_set_index c a = get_block_id c a mod 2 ^ set_bits c.
Proof.
  intros Hwf. pose proof (wf_block_bits c Hwf). pose proof (wf_set_bits c Hwf).
  pose proof (wf_bits c Hwf).
  unfold get_set_index. rewrite set_mask by lia.
  apply Z.land_ones. lia.
Qed.

(** X3.  In a well-formed cache the set index of every address is a
    valid row index ([0 <= set_idx < sets_num]) and the row it selects
    has [set_lines] lines, so [lines[set_idx][i]] is in bounds for every
    loop index the code uses. *)
Theorem set_index_in_bounds c a :
  wf c ->
  0 <= get_set_index c a < sets_num c /\
  exists s, lines c !! Z.to_nat (get_set_index c a) = Some s /\
            Z.of_nat (length s) = set_lines c.
Proof.
  intros Hwf. split; [exact (get_set_index_range c a Hwf)|].
  destruct (lookup_set c a Hwf) as (s & Hs & Hlen & _).
  exists s. split; [exact Hs|]. pose proof (wf_set_lines c Hwf). lia.
Qed.

Lemma set_index_in_bounds_witness :
  wf direct_mapped /\
  0 <= get_set_index direct_mapped 0x1234
    < sets_num direct_mapped /\
  exists s,
    lines direct_mapped !! Z.to_nat (get_set_index direct_mapped 0x1234)
      = Some s /\
    Z.of_nat (length s) = set_lines direct_mapped.
Proof.
  split; [exact direct_mapped_wf|].
  exact (set_index_in_bounds direct_mapped 0x1234 direct_mapped_wf).
Defined.

Lemma block_identified_by_set_and_tag_iff c a a' :
  wf c ->
  (same_block c a a' <->
   get_set_index c a = get_set_index c a' /\ get_tag c a = get_tag c a').
Proof.
  intros Hwf. pose proof (wf_set_bits c Hwf) as Hs.
  rewrite !(get_tag_of_block c) by exact Hwf.
  rewrite !(get_set_index_of_block c) by exact Hwf.
  unfold same_block. split; [intros ->; split; reflexivity|].
  intros [Hmod Hdiv]. rewrite !Z.shiftr_div_pow2 in Hdiv by exact Hs.
  assert (Hp : 0 < 2 ^ set_bits c) by (apply Z.pow_pos_nonneg; lia).
  rewrite (Z.div_mod (get_block_id c a) (2 ^ set_bits c)) by lia.
  rewrite (Z.div_mod (get_block_id c a') (2 ^ set_bits c)) by lia.
  now rewrite Hmod, Hdiv.
Qed.

(** X4.  In a well-formed cache two addresses have the same set index
    and the same tag exactly when they lie in the same block: set index
    and tag together identify the block, and the block offset plays no
    part. *)
Theorem block_identified_by_set_and_tag c a a' :
  wf c ->
  (same_block c a a' <->
   get_set_index c a = get_set_index c a' /\ get_tag c a = get_tag c a').
Proof.
  intros Hwf. pose proof (wf_set_bits c Hwf) as Hs.
  rewrite !(get_tag_of_block c) by exact Hwf.
  rewrite !(get_set_index_of_block c) by exact Hwf.
  unfold same_block. split; [intros ->; split; reflexivity|].
  intros [Hmod Hdiv]. rewrite !Z.shiftr_div_pow2 in Hdiv by exact Hs.
  assert (Hp : 0 < 2 ^ set_bits c) by (apply Z.pow_pos_nonneg; lia).
  rewrite (Z.div_mod (get_block_id c a) (2 ^ set_bits c)) by lia.
  rewrite (Z.div_mod (get_block_id c a') (2 ^ set_bits c)) by lia.
  now rewrite Hmod, Hdiv.
Qed.

Lemma block_identified_by_set_and_tag_witness :
  wf direct_mapped /\
  (same_block direct_mapped 0x1234 0x1237 <->
   get_set_index direct_mapped 0x1234 = get_set_index direct_mapped 0x1237 /\
   get_tag direct_mapped 0x1234 = get_tag direct_mapped 0x1237).
Proof.
  split; [exact direct_mapped_wf|].
  exact (block_identified_by_set_and_tag direct_mapped 0x1234 0x1237
           direct_mapped_wf).
Defined.

Lemma find_line_same_block c a a' :
  wf c -> same_block c a a' -> find_line c a = find_line c a'.
Proof.
  intros Hwf Hsame.
  apply (block_identified_by_set_and_tag_iff c a a' Hwf) in Hsame.
  destruct Hsame as [Hset Htag]. unfold find_line. now rewrite Hset, Htag.
Qed.

Lemma shl64_as_mod x n :
  0 <= n <= 64 -> shl64 x n = (x mod 2 ^ (64 - n)) * 2 ^ n.
Proof.
  intros Hn. unfold shl64, wrap64. rewrite Z.shiftl_mul_pow2 by lia.
  replace (2 ^ 64) with (2 ^ (64 - n) * 2 ^ n)
    by (rewrite <- Z.pow_add_r by lia; f_equal; lia).
  assert (0 < 2 ^ n) by (apply Z.pow_pos_nonneg; lia).
  assert (0 < 2 ^ (64 - n)) by (apply Z.pow_pos_nonneg; lia).
  apply Z.mul_mod_distr_r; lia.
Qed.

Lemma next_block_as_product c a :
  wf c -> 0 <= a < 2 ^ 64 ->
  next_block c a
  = ((get_block_id c a + 1) mod 2 ^ (64 - block_bits c)) * 2 ^ block_bits c.
Proof.
  intros Hwf Ha. pose proof (wf_block_bits c Hwf) as Hb.
  pose proof (wf_set_bits c Hwf) as Hs. pose proof (wf_bits c Hwf) as Hbits.
  assert (Hp : 0 < 2 ^ block_bits c) by (apply Z.pow_pos_nonneg; lia).
  assert (Hq : 0 < 2 ^ (64 - block_bits c)) by (apply Z.pow_pos_nonneg; lia).
  unfold next_block. rewrite shl64_as_mod by lia. f_equal.
  unfold add64, wrap64.
  replace (2 ^ 64) with (2 ^ (64 - block_bits c) * 2 ^ block_bits c)
    by (rewrite <- Z.pow_add_r by lia; f_equal; lia).
  rewrite Z.rem_mul_r by lia.
  rewrite Z.mul_comm, Z.mod_add by lia. apply Z.mod_mod. lia.
Qed.

Lemma next_block_id c a :
  wf c -> 0 <= a < 2 ^ 64 ->
  get_block_id c (next_block c a)
  = (get_block_id c a + 1) mod 2 ^ (64 - block_bits c).
Proof.
  intros Hwf Ha. pose proof (wf_block_bits c Hwf) as Hb.
  assert (Hp : 0 < 2 ^ block_bits c) by (apply Z.pow_pos_nonneg; lia).
  unfold get_block_id at 1. rewrite Z.shiftr_div_pow2 by lia.
  rewrite (next_block_as_product c a Hwf Ha). apply Z.div_mul. lia.
Qed.

(** With at least two sets the following block belongs to another set. *)
Lemma next_block_other_set c a :
  wf c -> 0 <= a < 2 ^ 64 -> 1 <= set_bits c ->
  get_set_index c (next_block c a) <> get_set_index c a.
Proof.
  intros Hwf Ha Hsb. pose proof (wf_block_bits c Hwf) as Hb.
  pose proof (wf_bits c Hwf) as Hbits.
  rewrite !(get_set_index_of_block c) by exact Hwf.
  rewrite (next_block_id c a Hwf Ha).
  assert (Hn : 2 <= 2 ^ set_bits c).
  { change 2 with (2 ^ 1) at 1. apply Z.pow_le_mono_r; lia. }
  assert (Hq : 0 < 2 ^ (64 - block_bits c)) by (apply Z.pow_pos_nonneg; lia).
  rewrite Z.mod_mod_divide.
  2:{ exists (2 ^ (64 - block_bits c - set_bits c)).
      rewrite <- Z.pow_add_r by lia. f_equal. lia. }
  intros E.
  assert (H1 : (get_block_id c a + 1 - get_block_id c a) mod 2 ^ set_bits c = 0).
  { rewrite Zminus_mod, E, Z.sub_diag. apply Z.mod_0_l. lia. }
  replace (get_block_id c a + 1 - get_block_id c a) with 1 in H1 by lia.
  rewrite Z.mod_1_l in H1 by lia. discriminate.
Qed.

(** X5.  The address [prefetch_next] looks up is the first byte of the
    following block: its block offset is zero and its block id is the
    block id of the access plus one, wrapping to block 0 after the last
    block of the 64-bit address space. *)
Theorem next_block_is_following_block c a :
  wf c -> 0 <= a < 2 ^ 64 ->
  0 <= next_block c a < 2 ^ 64 /\
  block_offset c (next_block c a) = 0 /\
  get_block_id c (next_block c a)
    = (get_block_id c a + 1) mod 2 ^ (64 - block_bits c).
Proof.
  intros Hwf Ha. pose proof (wf_block_bits c Hwf) as Hb.
  pose proof (wf_set_bits c Hwf) as Hs. pose proof (wf_bits c Hwf) as Hbits.
  assert (Hp : 0 < 2 ^ block_bits c) by (apply Z.pow_pos_nonneg; lia).
  assert (Hq : 0 < 2 ^ (64 - block_bits c)) by (apply Z.pow_pos_nonneg; lia).
  assert (Hnext : next_block c a
            = ((get_block_id c a + 1) mod 2 ^ (64 - block_bits c))
              * 2 ^ block_bits c).
  { unfold next_block. rewrite shl64_as_mod by lia. f_equal.
    unfold add64, wrap64.
    replace (2 ^ 64) with (2 ^ (64 - block_bits c) * 2 ^ block_bits c)
      by (rewrite <- Z.pow_add_r by lia; f_equal; lia).
    rewrite Z.rem_mul_r by lia.
    rewrite Z.mul_comm, Z.mod_add by lia. apply Z.mod_mod. lia. }
  split; [unfold next_block; apply wrap64_range|]. split.
  - unfold block_offset. rewrite low_mask by lia.
    rewrite Z.land_ones by lia. rewrite Hnext. apply Z.mod_mul. lia.
  - unfold get_block_id at 1. rewrite Z.shiftr_div_pow2 by lia.
    rewrite Hnext. apply Z.div_mul. lia.
Qed.

Lemma next_block_is_following_block_witness :
  wf direct_mapped /\ 0 <= 0x1234 < 2 ^ 64 /\
  0 <= next_block direct_mapped 0x1234 < 2 ^ 64 /\
  block_offset direct_mapped (next_block direct_mapped 0x1234) = 0 /\
  get_block_id direct_mapped (next_block direct_mapped 0x1234)
    = (get_block_id direct_mapped 0x1234 + 1)
      mod 2 ^ (64 - block_bits direct_mapped).
Proof.
  split; [exact direct_mapped_wf|]. split; [lia|].
  apply (next_block_is_following_block direct_mapped 0x1234 direct_mapped_wf).
  lia.
Defined.

(** ** Powers of two and logarithms *)

(** X6.  On a 64-bit value [is_power_of_two] answers 1 exactly for the
    values [2^k] with [0 <= k < 64]; in particular it rejects 0. *)
Theorem is_power_of_two_spec x :
  0 <= x < 2 ^ 64 ->
  (is_power_of_two x = true <-> exists k, 0 <= k < 64 /\ x = 2 ^ k).
Proof.
  intros Hx. unfold is_power_of_two.
  rewrite andb_true_iff, negb_true_iff, Z.eqb_neq, Z.eqb_eq. split.
  - intros [Hne Hland].
    assert (Hpos : 0 < x) by lia.
    unfold sub64 in Hland. rewrite wrap64_small in Hland by lia.
    pose proof (Z.log2_spec x Hpos) as [Hlo Hhi].
    pose proof (Z.log2_nonneg x) as Hk.
    exists (Z.log2 x). split.
    + split; [exact Hk|]. apply Z.log2_lt_pow2; lia.
    + destruct (Z.eq_dec x (2 ^ Z.log2 x)) as [E|E]; [exact E|]. exfalso.
      assert (Hlog : Z.log2 (x - 1) = Z.log2 x)
        by (apply Z.log2_unique; [exact Hk|lia]).
      assert (Hbit : Z.testbit (Z.land x (x - 1)) (Z.log2 x) = true).
      { rewrite Z.land_spec, (Z.bit_log2 x Hpos).
        rewrite <- Hlog. rewrite Z.bit_log2; [reflexivity|].
        assert (0 < 2 ^ Z.log2 x) by (apply Z.pow_pos_nonneg; lia). lia. }
      rewrite Hland, Z.bits_0 in Hbit. discriminate.
  - intros (k & Hk & ->).
    assert (Hp : 0 < 2 ^ k) by (apply Z.pow_pos_nonneg; lia).
    split; [lia|]. unfold sub64. rewrite wrap64_small by lia.
    replace (2 ^ k - 1) with (Z.ones k) by (rewrite Z.ones_equiv; lia).
    rewrite Z.land_ones by lia. apply Z.mod_same. lia.
Qed.

Lemma is_power_of_two_spec_witness :
  0 <= 32 < 2 ^ 64 /\
  (is_power_of_two 32 = true <-> exists k, 0 <= k < 64 /\ 32 = 2 ^ k).
Proof.
  split; [lia|]. apply (is_power_of_two_spec 32). lia.
Defined.

(** X7.  On a 64-bit value [log2_int] returns the floor of the binary
    logarithm: 0 for the values 0 and 1, and otherwise the [n] with
    [2^n <= x < 2^(n+1)]; on a power of two [2^k] it returns [k]. *)
Theorem log2_int_floor x :
  0 <= x < 2 ^ 64 ->
  0 <= log2_int x < 64 /\
  (x <= 1 -> log2_int x = 0) /\
  (1 <= x -> 2 ^ log2_int x <= x < 2 ^ (log2_int x + 1)) /\
  (forall k, x = 2 ^ k -> 0 <= k -> log2_int x = k).
Proof.
  intros Hx. rewrite (log2_int_spec x Hx).
  split; [|split; [|split]].
  - split; [apply Z.log2_nonneg|].
    destruct (Z.eq_dec x 0) as [->|Hne]; [cbn; lia|].
    apply Z.log2_lt_pow2; lia.
  - intros Hle. assert (Hc : x = 0 \/ x = 1) by lia.
    destruct Hc as [-> | ->]; reflexivity.
  - intros Hge. rewrite Z.add_1_r. apply Z.log2_spec. lia.
  - intros k -> Hk. apply Z.log2_pow2. exact Hk.
Qed.

Lemma log2_int_floor_witness :
  0 <= 40 < 2 ^ 64 /\
  0 <= log2_int 40 < 64 /\
  (40 <= 1 -> log2_int 40 = 0) /\
  (1 <= 40 -> 2 ^ log2_int 40 <= 40 < 2 ^ (log2_int 40 + 1)) /\
  (forall k, 40 = 2 ^ k -> 0 <= k -> log2_int 40 = k).
Proof.
  split; [lia|]. apply (log2_int_floor 40). lia.
Defined.

(** ** Construction *)

Lemma pow2_quot m n : 0 <= n <= m -> Z.quot (2 ^ m) (2 ^ n) = 2 ^ (m - n).
Proof.
  intros H. assert (0 < 2 ^ n) by (apply Z.pow_pos_nonneg; lia).
  assert (0 < 2 ^ m) by (apply Z.pow_pos_nonneg; lia).
  rewrite Z.quot_div_nonneg by lia.
  replace (2 ^ m) with (2 ^ (m - n) * 2 ^ n)
    by (rewrite <- Z.pow_add_r by lia; f_equal; lia).
  apply Z.div_mul. lia.
Qed.

Lemma create_cache_fields cs assoc bs pol c :
  create_cache cs assoc bs pol = Some c ->
  set_lines c = assoc /\ block_size c = bs /\ policy c = pol /\
  sets_num c = Z.quot cs (assoc * bs) /\
  block_bits c = log2_int (wrap64 bs) /\
  set_bits c = log2_int (wrap64 (sets_num c)) /\
  lines c = replicate (Z.to_nat (sets_num c))
              (replicate (Z.to_nat assoc) empty_line).
Proof.
  unfold create_cache.
  destruct ((assoc * bs =? 0) || negb (in_int (assoc * bs))); [discriminate|].
  destruct (negb (in_int (Z.quot cs (assoc * bs)))); [discriminate|].
  intros H. injection H as <-. cbn. repeat split; reflexivity.
Qed.

(** X8.  With a cache size, an associativity and a block size that are
    non-negative [int] values accepted by [is_power_of_two] and that
    leave room for at least one set, [create_cache] returns a
    well-formed cache whose bit widths are exact
    ([block_size = 2^block_bits], [sets_num = 2^set_bits]), whose lines
    add up to the whole capacity, whose lines are all invalid and whose
    counters are zero; and every set is in use: set [i] is the set of
    the address [i << block_bits]. *)
Theorem create_cache_power_of_two cs assoc bs pol :
  0 <= cs <= INT_MAX -> 0 <= assoc -> 0 <= bs ->
  is_power_of_two cs = true -> is_power_of_two assoc = true ->
  is_power_of_two bs = true ->
  assoc * bs <= cs ->
  exists c,
    create_cache cs assoc bs pol = Some c /\ wf c /\
    set_lines c = assoc /\ block_size c = bs /\ policy c = pol /\
    block_size c = 2 ^ block_bits c /\
    sets_num c = 2 ^ set_bits c /\
    sets_num c * set_lines c * block_size c = cs /\
    stats c = (0, 0, 0, 0) /\
    Forall (Forall (fun l => valid l = 0)) (lines c) /\
    forall i, 0 <= i < sets_num c ->
              get_set_index c (Z.shiftl i (block_bits c)) = i.
Proof.
  intros Hcs Ha0 Hb0 Pcs Passoc Pbs Hle.
  unfold INT_MAX in Hcs.
  assert (Hlt : forall k, 0 <= k -> 2 ^ k <= cs -> 2 ^ k < 2 ^ 64).
  { intros k Hk Hkle. lia. }
  assert (Hpos : forall x, 0 <= x -> is_power_of_two x = true -> 0 < x).
  { intros x Hx H. unfold is_power_of_two in H.
    apply andb_true_iff in H. destruct H as [Hne _].
    apply negb_true_iff, Z.eqb_neq in Hne. lia. }
  pose proof (Hpos _ Ha0 Passoc) as Hap. pose proof (Hpos _ Hb0 Pbs) as Hbp.
  assert (Hale : assoc <= cs) by nia. assert (Hble : bs <= cs) by nia.
  apply is_power_of_two_spec in Pcs; [|lia].
  apply is_power_of_two_spec in Passoc; [|lia].
  apply is_power_of_two_spec in Pbs; [|lia].
  destruct Pcs as (m & Hm & ->). destruct Passoc as (i & Hi & ->).
  destruct Pbs as (j & Hj & ->).
  rewrite <- Z.pow_add_r in Hle by lia.
  assert (Hij : i + j <= m) by (apply (Z.pow_le_mono_r_iff 2); lia).
  assert (Hgeo : valid_geometry (2 ^ m) (2 ^ i) (2 ^ j)).
  { unfold valid_geometry, INT_MAX.
    rewrite <- Z.pow_add_r by lia. repeat split; lia. }
  destruct (create_cache_wf _ _ _ pol Hgeo)
    as (c & Hc & Hwf & _ & Hstats & Hfresh).
  destruct (create_cache_fields _ _ _ _ _ Hc)
    as (El & Eb & Ep & En & Ebb & Esb & _).
  rewrite <- Z.pow_add_r in En by lia.
  rewrite pow2_quot in En by lia.
  assert (Hmm : 2 ^ (m - (i + j)) <= 2 ^ m)
    by (apply Z.pow_le_mono_r; lia).
  assert (Hjm : 2 ^ j <= 2 ^ m) by (apply Z.pow_le_mono_r; lia).
  assert (Ebb' : block_bits c = j).
  { rewrite Ebb, wrap64_small by lia.
    rewrite log2_int_spec by lia. apply Z.log2_pow2. lia. }
  assert (Esb' : set_bits c = m - (i + j)).
  { rewrite Esb, En, wrap64_small by lia.
    rewrite log2_int_spec by lia. apply Z.log2_pow2. lia. }
  exists c. split; [exact Hc|]. split; [exact Hwf|].
  split; [exact El|]. split; [exact Eb|]. split; [exact Ep|].
  split; [now rewrite Eb, Ebb'|]. split; [now rewrite En, Esb'|].
  split.
  { rewrite En, El, Eb, <- !Z.pow_add_r by lia. f_equal. lia. }
  split; [exact Hstats|]. split; [exact Hfresh|].
  intros k Hk. rewrite (get_set_index_of_block c _ Hwf).
  unfold get_block_id. rewrite Z.shiftr_shiftl_l by lia.
  rewrite Z.sub_diag, Z.shiftl_0_r.
  apply Z.mod_small. rewrite Esb', <- En. exact Hk.
Qed.

Lemma create_cache_power_of_two_witness :
  0 <= 32 <= INT_MAX /\ 0 <= 2 /\ 0 <= 4 /\
  is_power_of_two 32 = true /\ is_power_of_two 2 = true /\
  is_power_of_two 4 = true /\ 2 * 4 <= 32 /\
  exists c,
    create_cache 32 2 4 POLICY_LRU = Some c /\ wf c /\
    set_lines c = 2 /\ block_size c = 4 /\ policy c = POLICY_LRU /\
    block_size c = 2 ^ block_bits c /\
    sets_num c = 2 ^ set_bits c /\
    sets_num c * set_lines c * block_size c = 32 /\
    stats c = (0, 0, 0, 0) /\
    Forall (Forall (fun l => valid l = 0)) (lines c) /\
    forall i, 0 <= i < sets_num c ->
              get_set_index c (Z.shiftl i (block_bits c)) = i.
Proof.
  assert (H1 : 0 <= 32 <= INT_MAX) by (unfold INT_MAX; lia).
  split; [exact H1|]. split; [lia|]. split; [lia|].
  split; [reflexivity|]. split; [reflexivity|]. split; [reflexivity|].
  split; [lia|].
  exact (create_cache_power_of_two 32 2 4 POLICY_LRU H1 ltac:(lia) ltac:(lia)
           eq_refl eq_refl eq_refl ltac:(lia)).
Defined.

(** X9.  When the associativity times the block size exceeds the cache
    size (a combination [main] does not reject), [create_cache] returns
    a cache with no set at all (its allocation of zero bytes taken to
    succeed, as every allocation is here), and every access to it, read
    or write, with or without prefetching, is undefined: [find_line]
    reads a row of an empty array. *)
Theorem no_set_no_access cs assoc bs pol :
  0 < assoc -> 0 < bs -> assoc * bs <= INT_MAX -> 0 <= cs < assoc * bs ->
  exists c,
    create_cache cs assoc bs pol = Some c /\
    sets_num c = 0 /\ lines c = [] /\
    forall p x, simulate p c x = None.
Proof.
  intros Ha Hb Hmax Hcs. unfold INT_MAX in Hmax.
  assert (Hd : 0 < assoc * bs) by nia.
  assert (Hq : Z.quot cs (assoc * bs) = 0) by (apply Z.quot_small; lia).
  assert (E1 : (assoc * bs =? 0) || negb (in_int (assoc * bs)) = false).
  { apply orb_false_iff. split; [apply Z.eqb_neq; lia|].
    apply negb_false_iff. unfold in_int, INT_MIN, INT_MAX.
    apply andb_true_iff. split; apply Z.leb_le; lia. }
  exists (mkCache 0 assoc bs (log2_int (wrap64 bs)) (log2_int (wrap64 0))
                  pol [] 0 0 0 0).
  split; [unfold create_cache; rewrite E1, Hq; reflexivity|].
  split; [reflexivity|]. split; [reflexivity|].
  intros p [[|] a]; cbn [simulate]; unfold simulate_read, simulate_write,
    find_line; cbn [lines set_lines];
    destruct (Z.to_nat assoc) as [|n] eqn:En; try lia;
    cbn [find_line_loop]; unfold line_at;
    rewrite lookup_nil; reflexivity.
Qed.

Lemma no_set_no_access_witness :
  0 < 1 /\ 0 < 8 /\ 1 * 8 <= INT_MAX /\ 0 <= 4 < 1 * 8 /\
  exists c,
    create_cache 4 1 8 POLICY_FIFO = Some c /\
    sets_num c = 0 /\ lines c = [] /\
    forall p x, simulate p c x = None.
Proof.
  assert (H : 1 * 8 <= INT_MAX) by (unfold INT_MAX; lia).
  split; [lia|]. split; [lia|]. split; [exact H|]. split; [lia|].
  exact (no_set_no_access 4 1 8 POLICY_FIFO ltac:(lia) ltac:(lia) H
           ltac:(lia)).
Defined.

(** ** Lookup *)

Lemma first_match_present c a s k :
  lines c !! Z.to_nat (get_set_index c a) = Some s ->
  first_match 0 k (get_tag c a) s -> present c a.
Proof.
  intros Hs (_ & (l & Hl & Hm) & _). apply matches_true in Hm.
  exists s, k, l. tauto.
Qed.

Lemma present_not_absent c a s :
  lines c !! Z.to_nat (get_set_index c a) = Some s ->
  present c a -> absent_from 0 (get_tag c a) s -> False.
Proof.
  intros Hs (s' & j & l & Hs' & Hl & Hv & Ht) Habs.
  assert (s' = s) by congruence. subst s'.
  pose proof (Habs j l (Nat.le_0_l _) Hl) as Hno.
  assert (matches (get_tag c a) l = true) by (apply matches_true; auto).
  congruence.
Qed.

(** X10.  On a well-formed cache [find_line] returns, stores the set
    index of the address, and answers either [-1] or the index of a
    line of the set, below [set_lines].  It answers [-1] exactly when no
    valid line of the set holds the tag; otherwise the line it names is
    valid, holds the tag, and is the first such line of the set. *)
Theorem find_line_result c a :
  wf c ->
  exists line_idx s,
    find_line c a = Some (line_idx, get_set_index c a) /\
    lines c !! Z.to_nat (get_set_index c a) = Some s /\
    -1 <= line_idx < set_lines c /\
    (line_idx = -1 <-> ~ present c a) /\
    (line_idx <> -1 ->
       exists l, s !! Z.to_nat line_idx = Some l /\
                 valid l <> 0 /\ tag l = get_tag c a /\
                 forall j l', (j < Z.to_nat line_idx)%nat ->
                              s !! j = Some l' ->
                              ~ (valid l' <> 0 /\ tag l' = get_tag c a)).
Proof.
  intros Hwf.
  destruct (find_line_spec c a Hwf)
    as (s & Hs & [Hlen _] & [(k & Hfind & Hm)|[Hfind Habs]]).
  - exists (Z.of_nat k), s. split; [exact Hfind|]. split; [exact Hs|].
    pose proof Hm as (_ & (l & Hl & Hml) & Hbefore).
    pose proof (lookup_lt_Some _ _ _ Hl) as Hk.
    pose proof (wf_set_lines c Hwf).
    split; [lia|]. split.
    + split; [lia|]. intros Hno. exfalso. apply Hno.
      exact (first_match_present c a s k Hs Hm).
    + intros _. exists l. rewrite Nat2Z.id. apply matches_true in Hml.
      split; [exact Hl|]. split; [tauto|]. split; [tauto|].
      intros j l' Hj Hl' Hboth. apply matches_true in Hboth.
      rewrite (Hbefore j l' ltac:(lia) Hl') in Hboth. discriminate.
  - exists (-1), s. split; [exact Hfind|]. split; [exact Hs|].
    pose proof (wf_set_lines c Hwf).
    split; [lia|]. split; [|congruence].
    split; [|reflexivity]. intros _ Hp.
    exact (present_not_absent c a s Hs Hp Habs).
Qed.

Lemma find_line_result_witness :
  wf lru_pair /\
  exists line_idx s,
    find_line lru_pair 4 = Some (line_idx, get_set_index lru_pair 4) /\
    lines lru_pair !! Z.to_nat (get_set_index lru_pair 4) = Some s /\
    -1 <= line_idx < set_lines lru_pair /\
    (line_idx = -1 <-> ~ present lru_pair 4) /\
    (line_idx <> -1 ->
       exists l, s !! Z.to_nat line_idx = Some l /\
                 valid l <> 0 /\ tag l = get_tag lru_pair 4 /\
                 forall j l', (j < Z.to_nat line_idx)%nat ->
                              s !! j = Some l' ->
                              ~ (valid l' <> 0 /\
                                 tag l' = get_tag lru_pair 4)).
Proof.
  split; [exact lru_pair_wf|].
  exact (find_line_result lru_pair 4 lru_pair_wf).
Defined.

(** X11.  On a well-formed cache the answer of [find_line] depends on
    the block of the address only: two addresses of the same block get
    the same line index and the same set index. *)
Theorem find_line_by_block c a a' :
  wf c -> same_block c a a' -> find_line c a = find_line c a'.
Proof.
  intros Hwf Hsame.
  apply (block_identified_by_set_and_tag_iff c a a' Hwf) in Hsame.
  destruct Hsame as [Hset Htag]. unfold find_line. now rewrite Hset, Htag.
Qed.

Lemma find_line_by_block_witness :
  wf lru_pair /\ same_block lru_pair 4 7 /\
  find_line lru_pair 4 = find_line lru_pair 7.
Proof.
  split; [exact lru_pair_wf|]. split; [reflexivity|].
  exact (find_line_by_block lru_pair 4 7 lru_pair_wf eq_refl).
Defined.

(** ** Insertion *)

Lemma invalid_first_unique k1 k2 s :
  invalid_first 0 k1 s -> invalid_first 0 k2 s -> k1 = k2.
Proof.
  intros (_ & (l1 & Hl1 & Hv1) & Hb1) (_ & (l2 & Hl2 & Hv2) & Hb2).
  destruct (Nat.lt_trichotomy k1 k2) as [Hlt|[Heq|Hgt]]; [|exact Heq|].
  - exfalso. exact (Hb2 k1 l1 ltac:(lia) Hl1 Hv1).
  - exfalso. exact (Hb1 k2 l2 ltac:(lia) Hl2 Hv2).
Qed.

(** X12.  When the target set has an invalid line, [load_block] fills
    the invalid line of lowest index and evicts nothing: that line
    becomes valid with the new tag and age 0, every other line keeps its
    valid bit and its tag (a valid one is aged by one), the other sets
    and the four counters are unchanged. *)
Theorem load_block_fills_first_invalid c a s k :
  wf c ->
  lines c !! Z.to_nat (get_set_index c a) = Some s ->
  invalid_first 0 k s ->
  exists c' s',
    load_block c a = Some c' /\
    lines c' !! Z.to_nat (get_set_index c a) = Some s' /\
    s' !! k = Some (mkLine 1 (get_tag c a) 0) /\
    (forall j l, j <> k -> s !! j = Some l ->
       exists l', s' !! j = Some l' /\ valid l' = valid l /\
                  tag l' = tag l /\
                  age l' = if valid l =? 0 then age l
                           else add64 (age l) 1) /\
    (forall i, i <> Z.to_nat (get_set_index c a) ->
               lines c' !! i = lines c !! i) /\
    stats c' = stats c.
Proof.
  intros Hwf Hs Hinv.
  destruct (load_block_spec c a Hwf)
    as (s0 & k' & Hs0 & Hrow & Hk' & _ & Hselected & Hload).
  assert (s0 = s) by congruence. subst s0.
  assert (k' = k).
  { destruct Hselected as [Hinv'|[Hall _]].
    - exact (invalid_first_unique _ _ _ Hinv' Hinv).
    - exfalso. destruct Hinv as (_ & (l & Hl & Hv) & _).
      exact (Hall k l (Nat.le_0_l _) Hl Hv). }
  subst k'.
  eexists. exists (loaded s k (get_tag c a)).
  split; [exact Hload|]. cbn [lines with_lines].
  split; [apply list_lookup_insert_eq; now apply lookup_lt_Some in Hs|].
  destruct (lookup_lt_is_Some_2 s k Hk') as [lk Hlk].
  split; [|split; [|split]].
  - rewrite loaded_lookup, Hlk. cbn. now rewrite decide_True.
  - intros j l Hj Hl. exists (bump l). rewrite loaded_lookup, Hl. cbn.
    rewrite decide_False by exact Hj. split; [reflexivity|].
    unfold bump. destruct (valid l =? 0); cbn; auto.
  - intros i Hi. now apply list_lookup_insert_ne.
  - reflexivity.
Qed.

Lemma load_block_fills_first_invalid_witness :
  wf direct_mapped /\
  lines direct_mapped !! Z.to_nat (get_set_index direct_mapped 4)
    = Some [empty_line] /\
  invalid_first 0 0 [empty_line] /\
  exists c' s',
    load_block direct_mapped 4 = Some c' /\
    lines c' !! Z.to_nat (get_set_index direct_mapped 4) = Some s' /\
    s' !! 0%nat = Some (mkLine 1 (get_tag direct_mapped 4) 0) /\
    (forall j l, j <> 0%nat -> [empty_line] !! j = Some l ->
       exists l', s' !! j = Some l' /\ valid l' = valid l /\
                  tag l' = tag l /\
                  age l' = if valid l =? 0 then age l
                           else add64 (age l) 1) /\
    (forall i, i <> Z.to_nat (get_set_index direct_mapped 4) ->
               lines c' !! i = lines direct_mapped !! i) /\
    stats c' = stats direct_mapped.
Proof.
  assert (Hinv : invalid_first 0 0 [empty_line]).
  { split; [lia|]. split; [exists empty_line; split; reflexivity|].
    intros j l Hj. lia. }
  split; [exact direct_mapped_wf|]. split; [reflexivity|].
  split; [exact Hinv|].
  exact (load_block_fills_first_invalid direct_mapped 4 [empty_line] 0
           direct_mapped_wf eq_refl Hinv).
Defined.

Lemma loaded_present c a s k :
  lines c !! Z.to_nat (get_set_index c a) = Some s ->
  (k < length s)%nat ->
  present (fill_set c a s k) a.
Proof.
  intros Hs Hk. destruct (lookup_lt_is_Some_2 s k Hk) as [lk Hlk].
  exists (loaded s k (get_tag c a)), k, (mkLine 1 (get_tag c a) 0).
  cbn [lines fill_set with_lines].
  change (get_set_index (fill_set c a s k) a) with (get_set_index c a).
  split; [apply list_lookup_insert_eq; now apply lookup_lt_Some in Hs|].
  split; [rewrite loaded_lookup, Hlk; cbn; now rewrite decide_True|].
  split; [cbn; lia|reflexivity].
Qed.

(** X13.  On a well-formed cache [load_block] returns, and in the cache
    it returns the block of the address is present: a lookup of any
    address of that block hits.  No line that was valid becomes invalid,
    the other sets are untouched, and so are the counters, the geometry
    and the policy. *)
Theorem load_block_makes_present c a :
  wf c ->
  exists c',
    load_block c a = Some c' /\ wf c' /\
    (forall a', same_block c a a' ->
       exists k, find_line c' a' = Some (Z.of_nat k, get_set_index c a)) /\
    (forall i s j l, lines c !! i = Some s -> s !! j = Some l ->
       valid l <> 0 ->
       exists s' l', lines c' !! i = Some s' /\ s' !! j = Some l' /\
                     valid l' <> 0) /\
    (forall i, i <> Z.to_nat (get_set_index c a) ->
               lines c' !! i = lines c !! i) /\
    stats c' = stats c /\
    (sets_num c', set_lines c', block_size c', block_bits c', set_bits c',
     policy c')
    = (sets_num c, set_lines c, block_size c, block_bits c, set_bits c,
       policy c).
Proof.
  intros Hwf.
  destruct (load_block_spec c a Hwf)
    as (s & k & Hs & Hrow & Hk & _ & Hselected & Hload).
  assert (Hwf' : wf (fill_set c a s k))
    by (apply wf_with_lines; [exact Hwf|now apply loaded_row_ok]).
  exists (fill_set c a s k). split; [exact Hload|]. split; [exact Hwf'|].
  split; [|split; [|split; [|split; reflexivity]]].
  - intros a' Hsame.
    assert (Hsame' : same_block (fill_set c a s k) a a') by exact Hsame.
    rewrite <- (find_line_same_block _ a a' Hwf' Hsame').
    destruct (find_line_spec (fill_set c a s k) a Hwf')
      as (s' & Hs' & _ & [(k' & Hfind & _)|[_ Habs]]).
    + exists k'. exact Hfind.
    + exfalso.
      exact (present_not_absent _ a s' Hs' (loaded_present c a s k Hs Hk) Habs).
  - intros i s0 j l Hs0 Hl Hv. cbn [lines fill_set with_lines].
    destruct (decide (i = Z.to_nat (get_set_index c a))) as [->|Hne].
    + assert (s0 = s) by congruence. subst s0.
      exists (loaded s k (get_tag c a)).
      rewrite list_lookup_insert_eq by (now apply lookup_lt_Some in Hs).
      rewrite loaded_lookup, Hl. cbn.
      eexists. split; [reflexivity|]. split; [reflexivity|].
      destruct (decide (j = k)); [cbn; lia|].
      destruct (bump_valid_tag l) as [V _]. now rewrite V.
    + exists s0, l. rewrite list_lookup_insert_ne by congruence. auto.
  - intros i Hi. cbn [lines fill_set with_lines].
    now apply list_lookup_insert_ne.
Qed.

Lemma load_block_makes_present_witness :
  wf tie_cache /\
  exists c',
    load_block tie_cache 64 = Some c' /\ wf c' /\
    (forall a', same_block tie_cache 64 a' ->
       exists k, find_line c' a'
                 = Some (Z.of_nat k, get_set_index tie_cache 64)) /\
    (forall i s j l, lines tie_cache !! i = Some s -> s !! j = Some l ->
       valid l <> 0 ->
       exists s' l', lines c' !! i = Some s' /\ s' !! j = Some l' /\
                     valid l' <> 0) /\
    (forall i, i <> Z.to_nat (get_set_index tie_cache 64) ->
               lines c' !! i = lines tie_cache !! i) /\
    stats c' = stats tie_cache /\
    (sets_num c', set_lines c', block_size c', block_bits c', set_bits c',
     policy c')
    = (sets_num tie_cache, set_lines tie_cache, block_size tie_cache,
       block_bits tie_cache, set_bits tie_cache, policy tie_cache).
Proof.
  split; [exact tie_cache_wf|].
  exact (load_block_makes_present tie_cache 64 tie_cache_wf).
Defined.

(** ** Aging on a hit *)

(** X14.  [update_lru_on_access] on a row of a well-formed cache
    returns, and never changes a valid bit, a tag, the length of the
    row, another set or a counter.  Under FIFO (any policy other than
    LRU) it changes nothing at all; under LRU an invalid line keeps its
    age, the line [line_idx] gets age 0 and every other valid line of
    the row gets its age plus one (modulo 2^64). *)
Theorem update_lru_on_access_effect c set_idx line_idx s :
  wf c ->
  lines c !! Z.to_nat set_idx = Some s ->
  exists c' s',
    update_lru_on_access c set_idx line_idx = Some c' /\
    lines c' !! Z.to_nat set_idx = Some s' /\
    length s' = length s /\
    (forall j l, s !! j = Some l ->
       exists l', s' !! j = Some l' /\ valid l' = valid l /\
                  tag l' = tag l /\
                  age l' = if (policy c =? POLICY_LRU) && negb (valid l =? 0)
                           then (if Z.of_nat j =? line_idx then 0
                                 else add64 (age l) 1)
                           else age l) /\
    (forall i, i <> Z.to_nat set_idx -> lines c' !! i = lines c !! i) /\
    stats c' = stats c /\
    (policy c <> POLICY_LRU -> c' = c).
Proof.
  intros Hwf Hs. rewrite (update_lru_on_access_spec c _ _ s Hwf Hs).
  destruct (policy c =? POLICY_LRU) eqn:E.
  - eexists. exists (imap (aged line_idx) s). split; [reflexivity|].
    cbn [lines with_lines].
    split; [apply list_lookup_insert_eq; now apply lookup_lt_Some in Hs|].
    split; [apply length_imap|]. split; [|split; [|split]].
    + intros j l Hl. exists (aged line_idx j l).
      rewrite list_lookup_imap, Hl. split; [reflexivity|].
      destruct (aged_valid_tag line_idx j l) as [V T].
      split; [exact V|]. split; [exact T|].
      unfold aged. cbn [andb]. destruct (valid l =? 0); cbn [negb];
        [reflexivity|]. destruct (Z.of_nat j =? line_idx); reflexivity.
    + intros i Hi. now apply list_lookup_insert_ne.
    + reflexivity.
    + intros Hne. apply Z.eqb_eq in E. contradiction.
  - exists c, s. split; [reflexivity|]. split; [exact Hs|].
    split; [reflexivity|]. split; [|auto].
    intros j l Hl. exists l. cbn [andb]. auto.
Qed.

Lemma update_lru_on_access_effect_witness :
  wf lru_pair /\
  lines lru_pair !! Z.to_nat 0 = Some [mkLine 1 0 1; mkLine 1 1 0] /\
  exists c' s',
    update_lru_on_access lru_pair 0 0 = Some c' /\
    lines c' !! Z.to_nat 0 = Some s' /\
    length s' = length [mkLine 1 0 1; mkLine 1 1 0] /\
    (forall j l, [mkLine 1 0 1; mkLine 1 1 0] !! j = Some l ->
       exists l', s' !! j = Some l' /\ valid l' = valid l /\
                  tag l' = tag l /\
                  age l' = if (policy lru_pair =? POLICY_LRU)
                              && negb (valid l =? 0)
                           then (if Z.of_nat j =? 0 then 0
                                 else add64 (age l) 1)
                           else age l) /\
    (forall i, i <> Z.to_nat 0 -> lines c' !! i = lines lru_pair !! i) /\
    stats c' = stats lru_pair /\
    (policy lru_pair <> POLICY_LRU -> c' = lru_pair).
Proof.
  split; [exact lru_pair_wf|]. split; [reflexivity|].
  exact (update_lru_on_access_effect lru_pair 0 0 _ lru_pair_wf eq_refl).
Defined.

(** ** Presence after an access *)

Lemma present_with_lines_other c a i s' :
  present c a -> i <> Z.to_nat (get_set_index c a) ->
  present (with_lines c (<[i := s']> (lines c))) a.
Proof.
  intros (s & j & l & Hs & Hl & Hv & Ht) Hne. exists s, j, l.
  change (get_set_index (with_lines c (<[i := s']> (lines c))) a)
    with (get_set_index c a).
  cbn [lines with_lines].
  rewrite list_lookup_insert_ne by exact Hne. auto.
Qed.

Lemma present_with_lines_same c a s s' j l :
  lines c !! Z.to_nat (get_set_index c a) = Some s ->
  s' !! j = Some l -> valid l <> 0 -> tag l = get_tag c a ->
  present (with_lines c (<[Z.to_nat (get_set_index c a) := s']> (lines c))) a.
Proof.
  intros Hs Hl Hv Ht. exists s', j, l.
  change (get_set_index (with_lines c _) a) with (get_set_index c a).
  cbn [lines with_lines].
  rewrite list_lookup_insert_eq by (now apply lookup_lt_Some in Hs). auto.
Qed.

Lemma present_touch c a set_idx s k :
  present c a -> lines c !! Z.to_nat set_idx = Some s ->
  present (touch c set_idx s k) a.
Proof.
  intros Hp Hs. unfold touch. destruct (policy c =? POLICY_LRU); [|exact Hp].
  destruct (decide (Z.to_nat set_idx = Z.to_nat (get_set_index c a)))
    as [E|E]; [|now apply present_with_lines_other].
  destruct Hp as (s0 & j & l & Hs0 & Hl & Hv & Ht).
  rewrite E in Hs |- *. assert (s0 = s) by congruence. subst s0.
  apply (present_with_lines_same c a s _ j (aged (Z.of_nat k) j l) Hs).
  - now rewrite list_lookup_imap, Hl.
  - destruct (aged_valid_tag (Z.of_nat k) j l) as [V _]. now rewrite V.
  - destruct (aged_valid_tag (Z.of_nat k) j l) as [_ T]. now rewrite T.
Qed.

Lemma present_inserts_self c g a c' g' : inserts c g a c' g' -> present c' a.
Proof. intros [s k Hs _ Hk _]. exact (loaded_present c a s k Hs Hk). Qed.

Lemma inserts_same_geometry c g a c' g' :
  inserts c g a c' g' ->
  block_bits c' = block_bits c /\ set_bits c' = set_bits c /\
  set_lines c' = set_lines c /\ policy c' = policy c.
Proof. intros []. cbn. auto. Qed.

(** An insertion into another set, or into a set of at least two lines
    right after the block of [a] went into it, leaves the block of [a]
    in the cache. *)
Lemma present_survives_insert d g b d' g' a s k :
  wf d ->
  lines d !! Z.to_nat (get_set_index d a) = Some (loaded s k (get_tag d a)) ->
  (k < length s)%nat ->
  (get_set_index d b <> get_set_index d a \/
   ((2 <= length s)%nat /\
    forall j l, s !! j = Some l -> 0 <= age l < 2 ^ 64 - 1)) ->
  inserts d g b d' g' -> present d' a.
Proof.
  intros Hwf Hrow Hk Hcase Hins.
  destruct (lookup_lt_is_Some_2 s k Hk) as [lk Hlk].
  assert (Hat : loaded s k (get_tag d a) !! k = Some (mkLine 1 (get_tag d a) 0))
    by (rewrite loaded_lookup, Hlk; cbn; now rewrite decide_True).
  assert (Hp : present d a).
  { exists (loaded s k (get_tag d a)), k, (mkLine 1 (get_tag d a) 0).
    split; [exact Hrow|]. split; [exact Hat|]. cbn. split; [lia|reflexivity]. }
  destruct Hins as [s1 k' Hs1 Hrow1 Hk' Hsel].
  destruct (Z.eq_dec (get_set_index d b) (get_set_index d a)) as [E|E].
  2:{ apply present_with_lines_other; [exact Hp|].
      pose proof (get_set_index_range d a Hwf).
      pose proof (get_set_index_range d b Hwf). lia. }
  destruct Hcase as [Hne|[Htwo Hsmall]]; [contradiction|].
  unfold fill_set. rewrite E in Hs1 |- *.
  assert (s1 = loaded s k (get_tag d a)) by congruence. subst s1.
  assert (Hkk : k' <> k).
  { intros ->.
    destruct Hsel as [(_ & (l & Hl & Hv) & _)|[Hall (_ & l0 & Hl0 & Hmax & _)]].
    - rewrite Hat in Hl. injection Hl as <-. cbn in Hv. lia.
    - rewrite Hat in Hl0. injection Hl0 as <-. cbn [age] in Hmax.
      assert (Hj : exists j, j <> k /\ (j < length s)%nat).
      { destruct k as [|k]; [exists 1%nat|exists 0%nat]; lia. }
      destruct Hj as (j & Hjk & Hj).
      destruct (lookup_lt_is_Some_2 s j Hj) as [lj Hlj].
      assert (Hbj : loaded s k (get_tag d a) !! j = Some (bump lj))
        by (rewrite loaded_lookup, Hlj; cbn; now rewrite decide_False).
      pose proof (Hall j _ (Nat.le_0_l _) Hbj) as Hvj.
      destruct (bump_valid_tag lj) as [V _]. rewrite V in Hvj.
      pose proof (Hmax j _ (Nat.le_0_l _) Hbj) as Hle.
      rewrite (bump_age lj Hvj (Hsmall _ _ Hlj)) in Hle.
      pose proof (Hsmall _ _ Hlj). lia. }
  apply (present_with_lines_same d a _ _ k (bump (mkLine 1 (get_tag d a) 0))
           Hrow).
  - rewrite loaded_lookup, Hat. cbn [fmap option_fmap option_map].
    now rewrite decide_False by (intros H; apply Hkk; auto).
  - cbn. lia.
  - reflexivity.
Qed.

Lemma present_same_block c a a' :
  wf c -> same_block c a a' -> present c a -> present c a'.
Proof.
  intros Hwf Hsame (s & j & l & Hs & Hl & Hv & Ht).
  apply (block_identified_by_set_and_tag_iff c a a' Hwf) in Hsame.
  destruct Hsame as [Hset Htag]. exists s, j, l.
  rewrite <- Hset, <- Htag. auto.
Qed.

(** An access to a block that is present is a hit. *)
Lemma present_access_hits p c o a :
  wf c -> present c a ->
  exists c', simulate p c (o, a) = Some c' /\ wf c' /\
             hits c' = add64 (hits c) 1 /\ misses c' = misses c /\
             reads c' = reads c /\ writes c' = op_writes o (writes c).
Proof.
  intros Hwf Hp.
  destruct (simulate_outcome p c (o, a) Hwf) as (c' & g' & Hs & Hwf' & Ho).
  exists c'. split; [exact Hs|]. split; [exact Hwf'|].
  destruct (find_line_spec c a Hwf)
    as (s & Hrow & _ & [(k & _ & Hm)|[_ Habs]]).
  - exact (outcome_on_hit _ _ _ _ _ _ _ _ _ Hrow Hm Ho).
  - exfalso. exact (present_not_absent c a s Hrow Hp Habs).
Qed.

Lemma access_outcome_geometry p c g x c' g' :
  access_outcome p c g x c' g' ->
  block_bits c' = block_bits c /\ set_bits c' = set_bits c /\
  set_lines c' = set_lines c /\ policy c' = policy c.
Proof.
  assert (Ht : forall d i s k,
            block_bits (touch d i s k) = block_bits d /\
            set_bits (touch d i s k) = set_bits d /\
            set_lines (touch d i s k) = set_lines d /\
            policy (touch d i s k) = policy d).
  { intros d i s k. unfold touch.
    destruct (policy d =? POLICY_LRU); cbn; auto. }
  assert (Hpre : forall d gd a d' gd',
            prefetch_outcome d gd a d' gd' ->
            block_bits d' = block_bits d /\ set_bits d' = set_bits d /\
            set_lines d' = set_lines d /\ policy d' = policy d).
  { intros d gd a d' gd' [s k _ _|s d1 g1 _ _ Hins]; [auto|].
    exact (inserts_same_geometry _ _ _ _ _ Hins). }
  assert (Htail : forall q d gd a d' gd',
            miss_tail q d gd a d' gd' ->
            block_bits d' = block_bits d /\ set_bits d' = set_bits d /\
            set_lines d' = set_lines d /\ policy d' = policy d).
  { intros q d gd a d' gd' [_|d1 g1 _ H]; [auto|]. exact (Hpre _ _ _ _ _ H). }
  intros H.
  destruct H as [a s k _ _|a s c1 g1 c2 g2 _ _ Hins Htl
                |a s k _ _|a s c1 g1 c2 g2 _ _ Hins Htl].
  - exact (Ht (incr_hits c) _ s k).
  - destruct (inserts_same_geometry _ _ _ _ _ Hins) as (A & B & C & D).
    destruct (Htail _ _ _ _ _ _ Htl) as (A' & B' & C' & D').
    cbn in A, B, C, D. repeat split; congruence.
  - exact (Ht (incr_writes (incr_hits c)) _ s k).
  - destruct (inserts_same_geometry _ _ _ _ _ Hins) as (A & B & C & D).
    destruct (Htail _ _ _ _ _ _ Htl) as (A' & B' & C' & D').
    cbn in A, B, C, D, A', B', C', D'. repeat split; congruence.
Qed.

Lemma present_after_tail p d g a d' g' s k :
  wf d -> 0 <= a < 2 ^ 64 ->
  lines d !! Z.to_nat (get_set_index d a) = Some (loaded s k (get_tag d a)) ->
  (k < length s)%nat ->
  (p = 0 \/ 1 <= set_bits d \/
   ((2 <= length s)%nat /\
    forall j l, s !! j = Some l -> 0 <= age l < 2 ^ 64 - 1)) ->
  miss_tail p d g a d' g' -> present d' a.
Proof.
  intros Hwf Ha Hrow Hk Hcase Htail.
  destruct (lookup_lt_is_Some_2 s k Hk) as [lk Hlk].
  assert (Hp : present d a).
  { exists (loaded s k (get_tag d a)), k, (mkLine 1 (get_tag d a) 0).
    split; [exact Hrow|].
    split; [rewrite loaded_lookup, Hlk; cbn; now rewrite decide_True|].
    cbn. split; [lia|reflexivity]. }
  destruct Htail as [_|d1 g1 Hp0 Hpre]; [exact Hp|].
  destruct Hpre as [s1 k1 _ _|s1 d2 g2 _ _ Hins]; [exact Hp|].
  apply (present_survives_insert (incr_reads d) g (next_block d a) d2 g2 a s k);
    [auto with wfdb|exact Hrow|exact Hk| |exact Hins].
  destruct Hcase as [H0|[Hsb|Htwo]]; [contradiction| |right; exact Htwo].
  left. exact (next_block_other_set d a Hwf Ha Hsb).
Qed.

(** X15.  After an access to a well-formed cache the block of the
    address is in the cache, and the next access to any address of that
    block is a hit, provided the prefetch cannot push it out: prefetching
    is off, or the cache has at least two sets (the following block then
    belongs to another set), or the set has at least two lines with ages
    below the 64-bit limit (the line just filled is then the youngest of
    its set). *)
Theorem accessed_block_stays p c o a :
  wf c -> 0 <= a < 2 ^ 64 ->
  (p = 0 \/ 1 <= set_bits c \/
   (2 <= set_lines c /\
    forall s j l, lines c !! Z.to_nat (get_set_index c a) = Some s ->
                  s !! j = Some l -> age l < 2 ^ 64 - 1)) ->
  exists c',
    simulate p c (o, a) = Some c' /\ wf c' /\ present c' a /\
    forall o' a', same_block c a a' ->
      exists c'', simulate p c' (o', a') = Some c'' /\
                  hits c'' = add64 (hits c') 1 /\ misses c'' = misses c'.
Proof.
  intros Hwf Ha Hcase.
  destruct (simulate_outcome p c (o, a) Hwf) as (c' & g' & Hs & Hwf' & Ho).
  exists c'. split; [exact Hs|]. split; [exact Hwf'|].
  assert (Hp : present c' a).
  { assert (Hmiss : forall d s c1 g1 c2 g2,
              wf d -> lines d = lines c -> block_bits d = block_bits c ->
              set_bits d = set_bits c -> set_lines d = set_lines c ->
              lines c !! Z.to_nat (get_set_index c a) = Some s ->
              inserts d ghost0 a c1 g1 ->
              (forall e, lines e = lines c1 -> block_bits e = block_bits c ->
                         set_bits e = set_bits c -> wf e ->
                         miss_tail p e g1 a c2 g2 -> present c2 a)).
    { intros d s c1 g1 c2 g2 Hwfd Hl Hbb Hsb Hsl Hrow Hins e He Hbe Hse Hwfe Htl.
      assert (Hidx : forall x, get_set_index d x = get_set_index c x)
        by (intros x; unfold get_set_index, get_block_id; now rewrite Hbb, Hsb).
      assert (Htag : forall x, get_tag d x = get_tag c x)
        by (intros x; unfold get_tag; now rewrite Hbb, Hsb).
      assert (Hidxe : forall x, get_set_index e x = get_set_index c x)
        by (intros x; unfold get_set_index, get_block_id; now rewrite Hbe, Hse).
      assert (Htage : forall x, get_tag e x = get_tag c x)
        by (intros x; unfold get_tag; now rewrite Hbe, Hse).
      destruct Hins as [s0 k Hs0 [Hlen0 Hok0] Hk _].
      rewrite Hl, Hidx in Hs0. assert (s0 = s) by congruence. subst s0.
      apply (present_after_tail p e
               (stamp_slot ghost0 (Z.to_nat (get_set_index d a)) k)
               a c2 g2 s k Hwfe Ha);
        [|exact Hk| |exact Htl].
      - rewrite He. cbn [lines fill_set with_lines].
        rewrite Hidx, Hidxe, Htag, Htage, Hl.
        apply list_lookup_insert_eq. now apply lookup_lt_Some in Hrow.
      - destruct Hcase as [H0|[Hsbits|[Htwo Hsmall]]];
          [left; exact H0|right; left; now rewrite Hse|].
        right. right. split; [rewrite Hlen0, Hsl; lia|].
        intros j l Hlj. pose proof (Hsmall s j l Hrow Hlj).
        pose proof (proj1 (Forall_lookup _ _) Hok0 _ _ Hlj) as Hr.
        unfold line_ok in Hr. lia. }
    inversion Ho as [a0 s k Hrow Hm|a0 s c1 g1 c2 g2 Hrow Habs Hins Htl
                    |a0 s k Hrow Hm|a0 s c1 g1 c2 g2 Hrow Habs Hins Htl];
      subst.
    - apply present_touch; [|exact Hrow].
      exact (first_match_present c a s k Hrow Hm).
    - destruct (inserts_same_geometry _ _ _ _ _ Hins) as (A & B & _).
      apply (Hmiss (incr_reads (incr_misses c)) s c1 g1 c' g'
               ltac:(auto with wfdb) eq_refl eq_refl eq_refl eq_refl
               Hrow Hins c1 eq_refl A B
               ltac:(eapply inserts_wf; [|exact Hins]; auto with wfdb) Htl).
    - apply present_touch; [|exact Hrow].
      exact (first_match_present c a s k Hrow Hm).
    - destruct (inserts_same_geometry _ _ _ _ _ Hins) as (A & B & _).
      apply (Hmiss (incr_reads (incr_misses c)) s c1 g1 c' g'
               ltac:(auto with wfdb) eq_refl eq_refl eq_refl eq_refl
               Hrow Hins (incr_writes c1) eq_refl A B
               ltac:(apply wf_incr_writes; eapply inserts_wf; [|exact Hins];
                     auto with wfdb) Htl). }
  split; [exact Hp|]. intros o' a' Hsame.
  destruct (access_outcome_geometry _ _ _ _ _ _ Ho) as (Hbb & _).
  assert (Hsame' : same_block c' a a')
    by (unfold same_block, get_block_id in *; now rewrite Hbb).
  destruct (present_access_hits p c' o' a' Hwf'
              (present_same_block c' a a' Hwf' Hsame' Hp))
    as (c'' & Hs'' & _ & Hh & Hm & _).
  exists c''. auto.
Qed.

Lemma accessed_block_stays_witness :
  wf direct_mapped /\ 0 <= 0x24 < 2 ^ 64 /\
  (1 = 0 \/ 1 <= set_bits direct_mapped \/
   (2 <= set_lines direct_mapped /\
    forall s j l,
      lines direct_mapped !! Z.to_nat (get_set_index direct_mapped 0x24)
        = Some s ->
      s !! j = Some l -> age l < 2 ^ 64 - 1)) /\
  exists c',
    simulate 1 direct_mapped (R, 0x24) = Some c' /\ wf c' /\
    present c' 0x24 /\
    forall o' a', same_block direct_mapped 0x24 a' ->
      exists c'', simulate 1 c' (o', a') = Some c'' /\
                  hits c'' = add64 (hits c') 1 /\ misses c'' = misses c'.
Proof.
  assert (Hcase : 1 = 0 \/ 1 <= set_bits direct_mapped \/
    (2 <= set_lines direct_mapped /\
     forall s j l,
       lines direct_mapped !! Z.to_nat (get_set_index direct_mapped 0x24)
         = Some s ->
       s !! j = Some l -> age l < 2 ^ 64 - 1))
    by (right; left; cbn; lia).
  split; [exact direct_mapped_wf|]. split; [lia|]. split; [exact Hcase|].
  exact (accessed_block_stays 1 direct_mapped R 0x24 direct_mapped_wf
           ltac:(lia) Hcase).
Defined.

(** ** Prefetching into a cache of one line *)

Lemma one_line_set d x : set_bits d = 0 -> get_set_index d x = 0.
Proof.
  intros H. unfold get_set_index. rewrite H. cbn. apply Z.land_0_r.
Qed.

Lemma one_line_insert d g b d' g' :
  wf d -> set_bits d = 0 -> set_lines d = 1 ->
  inserts d g b d' g' ->
  lines d' !! 0%nat = Some [mkLine 1 (get_tag d b) 0] /\
  stats d' = stats d /\ block_bits d' = block_bits d /\
  set_bits d' = 0 /\ set_lines d' = 1.
Proof.
  intros Hwf Hsb Hsl [s k Hs [Hlen _] Hk _].
  rewrite Hsl in Hlen. change (Z.to_nat 1) with 1%nat in Hlen.
  destruct s as [|l0 [|l1 s]]; cbn [length] in Hlen; try lia.
  cbn [length] in Hk. assert (k = 0%nat) by lia. subst k.
  unfold fill_set. cbn [lines with_lines stats hits misses reads writes
                         block_bits set_bits set_lines].
  rewrite (one_line_set d b Hsb) in *. change (Z.to_nat 0) with 0%nat in *.
  split; [|auto].
  rewrite list_lookup_insert_eq by (now apply lookup_lt_Some in Hs).
  reflexivity.
Qed.

Lemma one_line_present d x t :
  set_bits d = 0 -> lines d !! 0%nat = Some [mkLine 1 t 0] ->
  (present d x <-> get_tag d x = t).
Proof.
  intros Hsb Hrow. split.
  - intros (s & j & l & Hs & Hl & _ & Ht).
    rewrite (one_line_set d x Hsb) in Hs. change (Z.to_nat 0) with 0%nat in Hs.
    assert (s = [mkLine 1 t 0]) by congruence. subst s.
    destruct j as [|j]; cbn in Hl; [|discriminate].
    injection Hl as <-. cbn in Ht. congruence.
  - intros Ht. exists [mkLine 1 t 0], 0%nat, (mkLine 1 t 0).
    rewrite (one_line_set d x Hsb). change (Z.to_nat 0) with 0%nat.
    split; [exact Hrow|]. split; [reflexivity|]. cbn. split; [lia|congruence].
Qed.

Lemma next_block_other_tag c a :
  wf c -> 0 <= a < 2 ^ 64 -> set_bits c = 0 ->
  get_tag c (next_block c a) <> get_tag c a.
Proof.
  intros Hwf Ha Hsb. pose proof (wf_block_bits c Hwf) as Hb.
  pose proof (wf_bits c Hwf) as Hbits.
  rewrite !(get_tag_of_block c) by exact Hwf. rewrite Hsb, !Z.shiftr_0_r.
  rewrite (next_block_id c a Hwf Ha).
  assert (Hp : 0 < 2 ^ block_bits c) by (apply Z.pow_pos_nonneg; lia).
  assert (HM : 2 <= 2 ^ (64 - block_bits c)).
  { change 2 with (2 ^ 1) at 1. apply Z.pow_le_mono_r; lia. }
  assert (Hblk : 0 <= get_block_id c a < 2 ^ (64 - block_bits c)).
  { unfold get_block_id. rewrite Z.shiftr_div_pow2 by lia. split.
    - apply Z.div_pos; lia.
    - apply Z.div_lt_upper_bound; [lia|].
      rewrite <- Z.pow_add_r by lia.
      replace (block_bits c + (64 - block_bits c)) with 64 by lia. lia. }
  destruct (Z.eq_dec (get_block_id c a + 1) (2 ^ (64 - block_bits c)))
    as [E|E].
  - rewrite E, Z.mod_same by lia. lia.
  - rewrite Z.mod_small by lia. lia.
Qed.

(** X16.  In a well-formed cache of a single line (one set of one line)
    with prefetching on, an access that misses ends with the following
    block in the cache and the accessed block gone: the prefetch
    overwrites the line the access has just filled.  The access counts
    one miss and two memory reads, and an access to the same address
    right after it misses again. *)
Theorem one_line_prefetch_evicts p c o a :
  wf c -> 0 <= a < 2 ^ 64 ->
  set_bits c = 0 -> set_lines c = 1 -> p <> 0 ->
  ~ present c a ->
  exists c',
    simulate p c (o, a) = Some c' /\ wf c' /\
    ~ present c' a /\ present c' (next_block c a) /\
    misses c' = add64 (misses c) 1 /\
    reads c' = add64 (add64 (reads c) 1) 1 /\
    find_line c' a = Some (-1, 0).
Proof.
  intros Hwf Ha Hsb Hsl Hp Hno.
  destruct (simulate_outcome p c (o, a) Hwf) as (c' & g' & Hs & Hwf' & Ho).
  exists c'. split; [exact Hs|]. split; [exact Hwf'|].
  assert (Htags := next_block_other_tag c a Hwf Ha Hsb).
  assert (Hcore : forall c1 g1 e,
            inserts (incr_reads (incr_misses c)) ghost0 a c1 g1 ->
            (e = c1 \/ e = incr_writes c1) ->
            miss_tail p e g1 a c' g' ->
            ~ present c' a /\ present c' (next_block c a) /\
            misses c' = add64 (misses c) 1 /\
            reads c' = add64 (add64 (reads c) 1) 1 /\ set_bits c' = 0).
  { intros c1 g1 e Hins He Htl.
    destruct (one_line_insert (incr_reads (incr_misses c)) _ _ _ _
                ltac:(auto with wfdb) Hsb Hsl Hins)
      as (Hrow1 & Hst1 & Hbb1 & Hsb1 & Hsl1).
    assert (Hwf1 : wf c1) by (eapply inserts_wf; [|exact Hins]; auto with wfdb).
    assert (Hwfe : wf e) by (destruct He as [-> | ->]; auto with wfdb).
    assert (Hrowe : lines e !! 0%nat = Some [mkLine 1 (get_tag c a) 0])
      by (destruct He as [-> | ->]; exact Hrow1).
    assert (Hbbe : block_bits e = block_bits c)
      by (destruct He as [-> | ->]; exact Hbb1).
    assert (Hsbe : set_bits e = 0) by (destruct He as [-> | ->]; exact Hsb1).
    assert (Hsle : set_lines e = 1) by (destruct He as [-> | ->]; exact Hsl1).
    assert (Hste : misses e = add64 (misses c) 1 /\
                   reads e = add64 (reads c) 1).
    { unfold stats in Hst1. cbn in Hst1. injection Hst1 as _ Em Er _.
      destruct He as [-> | ->]; cbn; auto. }
    assert (Hnext : next_block e a = next_block c a)
      by (unfold next_block, get_block_id; now rewrite Hbbe).
    assert (Htage : forall x, get_tag e x = get_tag c x)
      by (intros x; unfold get_tag; now rewrite Hbbe, Hsbe, Hsb).
    destruct Htl as [H0|c2 g2 _ Hpre]; [contradiction|].
    destruct Hpre as [s1 k1 Hs1 Hm1|s1 c2 g2 Hs1 _ Hins2].
    - exfalso. apply Htags. rewrite <- Htage, <- Hnext.
      apply (one_line_present e _ _ Hsbe Hrowe).
      exact (first_match_present e _ s1 k1 Hs1 Hm1).
    - destruct (one_line_insert (incr_reads e) _ _ _ _
                  ltac:(auto with wfdb) Hsbe Hsle Hins2)
        as (Hrow2 & Hst2 & Hbb2 & Hsb2 & _).
      cbn [get_tag block_bits set_bits incr_reads] in Hrow2.
      change (get_tag (incr_reads e) (next_block e a))
        with (get_tag e (next_block e a)) in Hrow2.
      rewrite Htage, Hnext in Hrow2.
      assert (Htag2 : forall x, get_tag c2 x = get_tag c x).
      { intros x. unfold get_tag. cbn in Hbb2. now rewrite Hbb2, Hsb2, Hbbe, Hsb. }
      split; [|split; [|split; [|split]]].
      + intros Hpa. apply (one_line_present c2 _ _ Hsb2 Hrow2) in Hpa.
        rewrite Htag2 in Hpa. congruence.
      + apply (one_line_present c2 _ _ Hsb2 Hrow2). apply Htag2.
      + unfold stats in Hst2. cbn in Hst2. injection Hst2 as _ Em _ _.
        rewrite Em. tauto.
      + unfold stats in Hst2. cbn in Hst2. injection Hst2 as _ _ Er _.
        rewrite Er. destruct Hste as [_ ->]. reflexivity.
      + exact Hsb2. }
  assert (Hall : ~ present c' a /\ present c' (next_block c a) /\
                 misses c' = add64 (misses c) 1 /\
                 reads c' = add64 (add64 (reads c) 1) 1 /\ set_bits c' = 0).
  { inversion Ho as [a0 s k Hrow Hm|a0 s c1 g1 c2 g2 Hrow Habs Hins Htl
                    |a0 s k Hrow Hm|a0 s c1 g1 c2 g2 Hrow Habs Hins Htl];
      subst.
    - exfalso. apply Hno. exact (first_match_present c a s k Hrow Hm).
    - exact (Hcore c1 g1 c1 Hins (or_introl eq_refl) Htl).
    - exfalso. apply Hno. exact (first_match_present c a s k Hrow Hm).
    - exact (Hcore c1 g1 (incr_writes c1) Hins (or_intror eq_refl) Htl). }
  destruct Hall as (Hgone & Hnextp & Hm & Hr & Hsb').
  split; [exact Hgone|]. split; [exact Hnextp|]. split; [exact Hm|].
  split; [exact Hr|].
  destruct (find_line_spec c' a Hwf')
    as (s & Hrow & _ & [(k & _ & Hmatch)|[Hfind _]]).
  - exfalso. apply Hgone. exact (first_match_present c' a s k Hrow Hmatch).
  - now rewrite (one_line_set c' a Hsb') in Hfind.
Qed.

Lemma one_line_wf : wf one_line.
Proof. wf_by_computation. Defined.

Lemma one_line_prefetch_evicts_witness :
  wf one_line /\ 0 <= 8 < 2 ^ 64 /\
  set_bits one_line = 0 /\ set_lines one_line = 1 /\ 1 <> 0 /\
  ~ present one_line 8 /\
  exists c',
    simulate 1 one_line (R, 8) = Some c' /\ wf c' /\
    ~ present c' 8 /\ present c' (next_block one_line 8) /\
    misses c' = add64 (misses one_line) 1 /\
    reads c' = add64 (add64 (reads one_line) 1) 1 /\
    find_line c' 8 = Some (-1, 0).
Proof.
  assert (Hno : ~ present one_line 8).
  { intros (s & j & l & Hs & Hl & Hv & _). cbn in Hs. injection Hs as <-.
    destruct j as [|j]; cbn in Hl; [|discriminate].
    injection Hl as <-. cbn in Hv. lia. }
  split; [exact one_line_wf|]. split; [lia|]. split; [reflexivity|].
  split; [reflexivity|]. split; [lia|]. split; [exact Hno|].
  exact (one_line_prefetch_evicts 1 one_line R 8 one_line_wf ltac:(lia)
           eq_refl eq_refl ltac:(lia) Hno).
Defined.

(** ** Prefetch *)

(** X17.  On a well-formed cache [prefetch_next] returns, and afterwards
    a lookup of the following block hits.  When that block was already
    in the cache nothing changes, not even a counter; when it was not,
    exactly one memory read is counted, only the set of the following
    block changes, and the other three counters stay as they were. *)
Theorem prefetch_next_makes_present c a :
  wf c ->
  exists c',
    prefetch_next c a = Some c' /\ wf c' /\
    (exists k, find_line c' (next_block c a)
               = Some (Z.of_nat k, get_set_index c (next_block c a))) /\
    (present c (next_block c a) -> c' = c) /\
    (~ present c (next_block c a) ->
       stats c' = (hits c, misses c, add64 (reads c) 1, writes c)) /\
    (forall i, i <> Z.to_nat (get_set_index c (next_block c a)) ->
               lines c' !! i = lines c !! i).
Proof.
  intros Hwf. unfold prefetch_next. fold (next_block c a).
  destruct (find_line_spec c (next_block c a) Hwf)
    as (s & Hs & Hrow & [(k & Hfind & Hm)|[Hfind Habs]]);
    rewrite Hfind; cbn [mbind option_bind].
  - assert (E : (Z.of_nat k =? -1) = false) by (apply Z.eqb_neq; lia).
    rewrite E. exists c. split; [reflexivity|]. split; [exact Hwf|].
    split; [exists k; exact Hfind|]. split; [reflexivity|].
    split; [|reflexivity].
    intros Hno. exfalso. apply Hno.
    exact (first_match_present c _ s k Hs Hm).
  - rewrite Z.eqb_refl.
    destruct (load_block_spec (incr_reads c) (next_block c a))
      as (s0 & k & Hs0 & Hrow0 & Hk & _ & _ & Hload); [auto with wfdb|].
    assert (Hwf' : wf (fill_set (incr_reads c) (next_block c a) s0 k)).
    { apply (wf_with_lines (incr_reads c)); [auto with wfdb|].
      now apply loaded_row_ok. }
    eexists. split; [exact Hload|]. split; [exact Hwf'|].
    split; [|split; [|split]].
    + destruct (find_line_spec _ (next_block c a) Hwf')
        as (s' & Hs' & _ & [(k' & Hfind' & _)|[_ Habs']]).
      * exists k'. exact Hfind'.
      * exfalso.
        exact (present_not_absent _ _ s' Hs'
                 (loaded_present (incr_reads c) _ s0 k Hs0 Hk) Habs').
    + intros Hp. exfalso. exact (present_not_absent c _ s Hs Hp Habs).
    + intros _. reflexivity.
    + intros i Hi. cbn [lines with_lines]. now apply list_lookup_insert_ne.
Qed.

Lemma prefetch_next_makes_present_witness :
  wf direct_mapped /\
  exists c',
    prefetch_next direct_mapped 0 = Some c' /\ wf c' /\
    (exists k, find_line c' (next_block direct_mapped 0)
               = Some (Z.of_nat k,
                       get_set_index direct_mapped
                         (next_block direct_mapped 0))) /\
    (present direct_mapped (next_block direct_mapped 0) ->
       c' = direct_mapped) /\
    (~ present direct_mapped (next_block direct_mapped 0) ->
       stats c' = (hits direct_mapped, misses direct_mapped,
                   add64 (reads direct_mapped) 1, writes direct_mapped)) /\
    (forall i,
       i <> Z.to_nat (get_set_index direct_mapped
                        (next_block direct_mapped 0)) ->
       lines c' !! i = lines direct_mapped !! i).
Proof.
  split; [exact direct_mapped_wf|].
  exact (prefetch_next_makes_present direct_mapped 0 direct_mapped_wf).
Defined.

(** ** Sets fill up in index order *)

Lemma valid_prefix_aged m idx s :
  valid_prefix m s -> valid_prefix m (imap (aged idx) s).
Proof.
  intros [Hm Hv]. split; [now rewrite length_imap|].
  intros j l Hl. rewrite list_lookup_imap in Hl.
  destruct (s !! j) as [l0|] eqn:E; [|discriminate].
  cbn in Hl. injection Hl as <-.
  destruct (aged_valid_tag idx j l0) as [V _]. rewrite V. exact (Hv j l0 E).
Qed.

Lemma valid_prefix_loaded m s k tg :
  valid_prefix m s -> (k < length s)%nat -> selected k s ->
  exists m', valid_prefix m' (loaded s k tg).
Proof.
  intros [Hm Hv] Hk Hsel.
  assert (Hcase : (k = m /\ (m < length s)%nat) \/ (k < m)%nat).
  { destruct Hsel as [(_ & (l & Hl & Hinv) & Hbefore)|[Hall _]].
    - left. destruct (Nat.lt_trichotomy k m) as [Hlt|[Heq|Hgt]].
      + exfalso. apply (Hv k l Hl) in Hlt. contradiction.
      + split; [exact Heq|]. apply lookup_lt_Some in Hl. lia.
      + exfalso. destruct (lookup_lt_is_Some_2 s m) as [lm Hlm]; [lia|].
        pose proof (Hbefore m lm ltac:(lia) Hlm) as Hvm.
        apply (Hv m lm Hlm) in Hvm. lia.
    - right. destruct (lookup_lt_is_Some_2 s k Hk) as [lk Hlk].
      apply (Hv k lk Hlk). exact (Hall k lk (Nat.le_0_l _) Hlk). }
  exists (if decide (k = m) then S m else m).
  split.
  { unfold loaded. rewrite length_imap.
    destruct (decide (k = m)); lia. }
  intros j l Hl. rewrite loaded_lookup in Hl.
  destruct (s !! j) as [l0|] eqn:E; [|discriminate].
  cbn in Hl. injection Hl as <-.
  destruct (decide (j = k)) as [->|Hjk].
  - cbn. destruct (decide (k = m)); split; intros; lia.
  - destruct (bump_valid_tag l0) as [V _]. rewrite V, (Hv j l0 E).
    destruct (decide (k = m)); split; intros; lia.
Qed.

Lemma all_prefixes_outcome p c g x c' g' :
  wf c -> all_prefixes c -> access_outcome p c g x c' g' -> all_prefixes c'.
Proof.
  assert (Hins : forall d i s',
            all_prefixes d -> (exists m, valid_prefix m s') ->
            all_prefixes (with_lines d (<[i := s']> (lines d)))).
  { intros d i s' Hall Hs' i' s0 Hs0. cbn [lines with_lines] in Hs0.
    destruct (decide (i' = i)) as [->|Hne].
    - destruct (decide (i < length (lines d))%nat).
      + rewrite list_lookup_insert_eq in Hs0 by assumption.
        injection Hs0 as <-. exact Hs'.
      + rewrite list_insert_ge in Hs0 by lia. exact (Hall _ _ Hs0).
    - rewrite list_lookup_insert_ne in Hs0 by congruence.
      exact (Hall _ _ Hs0). }
  apply (pieces_outcome (fun c _ => all_prefixes c)); try (intros; assumption).
  - intros c0 g0 set_idx s k tg Hwf Hall Hs Hm. unfold touch.
    destruct (policy c0 =? POLICY_LRU); [|exact Hall].
    apply Hins; [exact Hall|].
    destruct (Hall _ _ Hs) as [m Hpre]. exists m.
    now apply valid_prefix_aged.
  - intros c0 g0 a s c1 g1 Hwf Hall Hs Habs Hi.
    destruct Hi as [s0 k Hs0 Hrow Hk Hsel].
    apply Hins; [exact Hall|].
    destruct (Hall _ _ Hs0) as [m Hpre].
    exact (valid_prefix_loaded m s0 k _ Hpre Hk Hsel).
Qed.

(** X18.  In every cache the simulation reaches, for every accepted
    geometry, policy, prefetch setting and trace, the valid lines of
    each set are exactly its first lines: sets fill up in index order,
    a line never becomes invalid again, and so [load_block] overwrites
    a valid line only in a set that is full. *)
Theorem sets_fill_in_index_order cs assoc bs pol p trace :
  valid_geometry cs assoc bs ->
  exists c,
    simulation cs assoc bs pol p trace = Some c /\
    forall i s, lines c !! i = Some s ->
      exists m, (m <= length s)%nat /\
                forall j l, s !! j = Some l ->
                            (valid l <> 0 <-> (j < m)%nat).
Proof.
  intros Hgeo.
  destruct (create_cache_wf cs assoc bs pol Hgeo)
    as (c0 & Hc0 & Hwf0 & _ & _ & Hfresh).
  assert (H0 : all_prefixes c0).
  { intros i s Hs. exists 0%nat. split; [lia|]. intros j l Hl.
    pose proof (proj1 (Forall_lookup _ _) Hfresh _ _ Hs) as Hrow.
    pose proof (proj1 (Forall_lookup _ _) Hrow _ _ Hl) as Hv. cbn in Hv.
    split; [intros; contradiction|lia]. }
  destruct (run_invariant (fun c _ => all_prefixes c) all_prefixes_outcome
              p trace c0 ghost0 Hwf0 H0) as (c & g & Hrun & _ & Hall).
  exists c. unfold simulation. rewrite Hc0. cbn [mbind option_bind].
  split; [exact Hrun|]. exact Hall.
Qed.

Lemma sets_fill_in_index_order_witness :
  valid_geometry 16 4 4 /\
  exists c,
    simulation 16 4 4 POLICY_LRU 1 [(R, 0); (W, 16); (R, 0)] = Some c /\
    forall i s, lines c !! i = Some s ->
      exists m, (m <= length s)%nat /\
                forall j l, s !! j = Some l ->
                            (valid l <> 0 <-> (j < m)%nat).
Proof.
  assert (Hgeo : valid_geometry 16 4 4)
    by (unfold valid_geometry, INT_MAX; lia).
  split; [exact Hgeo|].
  exact (sets_fill_in_index_order 16 4 4 POLICY_LRU 1
           [(R, 0); (W, 16); (R, 0)] Hgeo).
Defined.

(** ** Ages stay distinct *)

Lemma distinct_ages_aged k s :
  distinct_ages s ->
  (forall j l, s !! j = Some l -> 0 <= age l < 2 ^ 64 - 1) ->
  distinct_ages (imap (aged (Z.of_nat k)) s).
Proof.
  intros Hd Hsmall j1 j2 l1 l2 H1 H2 V1 V2 Hage.
  rewrite list_lookup_imap in H1, H2.
  destruct (s !! j1) as [m1|] eqn:E1; [|discriminate].
  destruct (s !! j2) as [m2|] eqn:E2; [|discriminate].
  cbn in H1, H2. injection H1 as <-. injection H2 as <-.
  destruct (aged_valid_tag (Z.of_nat k) j1 m1) as [W1 _]. rewrite W1 in V1.
  destruct (aged_valid_tag (Z.of_nat k) j2 m2) as [W2 _]. rewrite W2 in V2.
  pose proof (Hsmall _ _ E1) as R1. pose proof (Hsmall _ _ E2) as R2.
  destruct (decide (j1 = k)) as [->|N1], (decide (j2 = k)) as [->|N2].
  - reflexivity.
  - rewrite (aged_age_self k m1 V1) in Hage.
    rewrite (aged_age_other _ j2 m2 V2) in Hage by (lia || exact R2). lia.
  - rewrite (aged_age_self k m2 V2) in Hage.
    rewrite (aged_age_other _ j1 m1 V1) in Hage by (lia || exact R1). lia.
  - rewrite (aged_age_other _ j1 m1 V1) in Hage by (lia || exact R1).
    rewrite (aged_age_other _ j2 m2 V2) in Hage by (lia || exact R2).
    apply (Hd j1 j2 m1 m2 E1 E2 V1 V2). lia.
Qed.

Lemma distinct_ages_loaded k tg s :
  distinct_ages s ->
  (forall j l, s !! j = Some l -> 0 <= age l < 2 ^ 64 - 1) ->
  distinct_ages (loaded s k tg).
Proof.
  intros Hd Hsmall j1 j2 l1 l2 H1 H2 V1 V2 Hage.
  rewrite loaded_lookup in H1, H2.
  destruct (s !! j1) as [m1|] eqn:E1; [|discriminate].
  destruct (s !! j2) as [m2|] eqn:E2; [|discriminate].
  cbn in H1, H2. injection H1 as <-. injection H2 as <-.
  pose proof (Hsmall _ _ E1) as R1. pose proof (Hsmall _ _ E2) as R2.
  destruct (decide (j1 = k)) as [->|N1], (decide (j2 = k)) as [->|N2].
  - reflexivity.
  - destruct (bump_valid_tag m2) as [W2 _]. rewrite W2 in V2.
    rewrite (bump_age m2 V2 R2) in Hage. cbn in Hage. lia.
  - destruct (bump_valid_tag m1) as [W1 _]. rewrite W1 in V1.
    rewrite (bump_age m1 V1 R1) in Hage. cbn in Hage. lia.
  - destruct (bump_valid_tag m1) as [W1 _]. rewrite W1 in V1.
    destruct (bump_valid_tag m2) as [W2 _]. rewrite W2 in V2.
    rewrite (bump_age m1 V1 R1), (bump_age m2 V2 R2) in Hage.
    apply (Hd j1 j2 m1 m2 E1 E2 V1 V2). lia.
Qed.

Lemma spread_weaken m m' c : m' <= m -> spread m c -> spread m' c.
Proof.
  intros Hle H i s Hs. destruct (H i s Hs) as [Hd Hb].
  split; [exact Hd|]. intros j l Hl. pose proof (Hb j l Hl). lia.
Qed.

(** Replacing one row by a row one step older. *)
Lemma spread_update m d i s s' :
  wf d -> spread m d -> lines d !! i = Some s ->
  distinct_ages s' ->
  (forall j l', s' !! j = Some l' ->
     exists l, s !! j = Some l /\ age l' <= age l + 1) ->
  spread (m - 1) (with_lines d (<[i := s']> (lines d))).
Proof.
  intros Hwf Hsp Hs Hd' Hold i' s0 Hs0. cbn [lines with_lines] in Hs0.
  destruct (decide (i' = i)) as [->|Hne].
  - rewrite list_lookup_insert_eq in Hs0 by (now apply lookup_lt_Some in Hs).
    injection Hs0 as <-. split; [exact Hd'|].
    intros j l' Hl'. destruct (Hold j l' Hl') as (l & Hl & Hle).
    destruct (Hsp i s Hs) as [_ Hb]. pose proof (Hb j l Hl). lia.
  - rewrite list_lookup_insert_ne in Hs0 by congruence.
    destruct (Hsp i' s0 Hs0) as [Hd Hb]. split; [exact Hd|].
    intros j l Hl. pose proof (Hb j l Hl). lia.
Qed.

Lemma spread_row_small m d i s :
  wf d -> 0 < m -> spread m d -> lines d !! i = Some s ->
  forall j l, s !! j = Some l -> 0 <= age l < 2 ^ 64 - 1.
Proof.
  intros Hwf Hm Hsp Hs j l Hl.
  pose proof (proj1 (Forall_lookup _ _) (wf_rows d Hwf) _ _ Hs) as [_ Hok].
  pose proof (proj1 (Forall_lookup _ _) Hok _ _ Hl) as Hr. unfold line_ok in Hr.
  destruct (Hsp i s Hs) as [_ Hb]. pose proof (Hb j l Hl). lia.
Qed.

Lemma spread_inserts m c g a c' g' :
  wf c -> 0 < m -> spread m c -> inserts c g a c' g' -> spread (m - 1) c'.
Proof.
  intros Hwf Hm Hsp [s k Hs Hrow Hk Hsel].
  pose proof (spread_row_small m c _ s Hwf Hm Hsp Hs) as Hsmall.
  apply (spread_update m c _ s); [exact Hwf|exact Hsp|exact Hs| |].
  - apply distinct_ages_loaded; [exact (proj1 (Hsp _ _ Hs))|exact Hsmall].
  - intros j l' Hl'. rewrite loaded_lookup in Hl'.
    destruct (s !! j) as [l|] eqn:E; [|discriminate].
    cbn in Hl'. injection Hl' as <-. exists l. split; [reflexivity|].
    pose proof (Hsmall _ _ E).
    destruct (decide (j = k)); [cbn; lia|].
    unfold bump. destruct (valid l =? 0); [lia|]. cbn.
    rewrite add64_small by lia. lia.
Qed.

Lemma spread_touch m c set_idx s k :
  wf c -> 0 < m -> spread m c ->
  lines c !! Z.to_nat set_idx = Some s ->
  spread (m - 1) (touch c set_idx s k).
Proof.
  intros Hwf Hm Hsp Hs. unfold touch.
  destruct (policy c =? POLICY_LRU);
    [|apply (spread_weaken m); [lia|exact Hsp]].
  pose proof (spread_row_small m c _ s Hwf Hm Hsp Hs) as Hsmall.
  apply (spread_update m c _ s); [exact Hwf|exact Hsp|exact Hs| |].
  - apply distinct_ages_aged; [exact (proj1 (Hsp _ _ Hs))|exact Hsmall].
  - intros j l' Hl'. rewrite list_lookup_imap in Hl'.
    destruct (s !! j) as [l|] eqn:E; [|discriminate].
    cbn in Hl'. injection Hl' as <-. exists l. split; [reflexivity|].
    pose proof (aged_age_le (Z.of_nat k) j l (Hsmall _ _ E)). lia.
Qed.

Lemma spread_tail m p c g a c' g' :
  wf c -> 0 < m -> spread m c -> miss_tail p c g a c' g' ->
  spread (m - 1) c'.
Proof.
  intros Hwf Hm Hsp [_|c1 g1 _ Hpre];
    [apply (spread_weaken m); [lia|exact Hsp]|].
  destruct Hpre as [s k _ _|s c2 g2 _ _ Hins];
    [apply (spread_weaken m); [lia|exact Hsp]|].
  apply (spread_inserts m (incr_reads c) g (next_block c a) c2 g2);
    [auto with wfdb|exact Hm|exact Hsp|exact Hins].
Qed.

Lemma spread_outcome m p c g x c' g' :
  wf c -> 1 < m -> spread m c -> access_outcome p c g x c' g' ->
  spread (m - 2) c'.
Proof.
  intros Hwf Hm Hsp H.
  destruct H as [a s k Hs _|a s c1 g1 c2 g2 _ _ Hins Htl
                |a s k Hs _|a s c1 g1 c2 g2 _ _ Hins Htl].
  - apply (spread_weaken (m - 1)); [lia|].
    apply (spread_touch m (incr_hits c)); auto with wfdb. lia.
  - replace (m - 2) with (m - 1 - 1) by lia.
    apply (spread_tail (m - 1) p c1 g1 a c2 g2);
      [eapply inserts_wf; [|exact Hins]; auto with wfdb|lia| |exact Htl].
    apply (spread_inserts m (incr_reads (incr_misses c)) g a c1 g1);
      [auto with wfdb|lia|exact Hsp|exact Hins].
  - apply (spread_weaken (m - 1)); [lia|].
    apply (spread_touch m (incr_writes (incr_hits c))); auto with wfdb. lia.
  - replace (m - 2) with (m - 1 - 1) by lia.
    apply (spread_tail (m - 1) p (incr_writes c1) g1 a c2 g2);
      [apply wf_incr_writes; eapply inserts_wf; [|exact Hins]; auto with wfdb
      |lia| |exact Htl].
    apply (spread_inserts m (incr_reads (incr_misses c)) g a c1 g1);
      [auto with wfdb|lia|exact Hsp|exact Hins].
Qed.

Lemma spread_run p : forall trace c,
  wf c -> spread (2 * Z.of_nat (length trace)) c ->
  exists c', run p c trace = Some c' /\ wf c' /\ spread 0 c'.
Proof.
  induction trace as [|x trace IH]; intros c Hwf Hsp.
  - exists c. auto.
  - destruct (simulate_outcome p c x Hwf) as (c1 & g1 & Hs & Hwf1 & Ho).
    cbn [run]. rewrite Hs. cbn [mbind option_bind].
    apply IH; [exact Hwf1|].
    cbn [length] in Hsp. rewrite Nat2Z.inj_succ in Hsp.
    replace (2 * Z.of_nat (length trace))
      with (2 * Z.succ (Z.of_nat (length trace)) - 2) by lia.
    apply (spread_outcome _ p c ghost0 x c1 g1); [exact Hwf|lia|exact Hsp
                                                  |exact Ho].
Qed.

(** X19.  For every accepted geometry, policy and prefetch setting and
    every trace short enough for no age to wrap (twice its length below
    2^64 - 1), the simulation reaches a cache in which no two valid
    lines of a set have the same age.  In a full set the scan of
    [load_block] therefore selects the one line that is strictly older
    than all the others: its tie-break never comes into play. *)
Theorem ages_stay_distinct cs assoc bs pol p trace :
  valid_geometry cs assoc bs ->
  2 * Z.of_nat (length trace) < 2 ^ 64 - 1 ->
  exists c,
    simulation cs assoc bs pol p trace = Some c /\
    (forall i s, lines c !! i = Some s -> distinct_ages s) /\
    (forall i s, lines c !! i = Some s -> all_valid_from 0 s ->
       exists k lk,
         select_slot s (Z.to_nat (set_lines c)) = Some (Z.of_nat k) /\
         s !! k = Some lk /\
         forall j l, j <> k -> s !! j = Some l -> age l < age lk).
Proof.
  intros Hgeo Hlen.
  destruct (create_cache_wf cs assoc bs pol Hgeo)
    as (c0 & Hc0 & Hwf0 & _ & _ & Hfresh).
  assert (H0 : spread (2 * Z.of_nat (length trace)) c0).
  { intros i s Hs.
    pose proof (proj1 (Forall_lookup _ _) Hfresh _ _ Hs) as Hrow.
    split.
    - intros j1 j2 l1 l2 H1 _ V1. exfalso. apply V1.
      exact (proj1 (Forall_lookup _ _) Hrow _ _ H1).
    - intros j l Hl.
      pose proof (proj1 (Forall_lookup _ _) (wf_rows c0 Hwf0) _ _ Hs)
        as [Hlen0 _].
      destruct (create_cache_fields _ _ _ _ _ Hc0) as (_ & _ & _ & _ & _ & _ & El).
      rewrite El in Hs. apply lookup_replicate in Hs. destruct Hs as [-> _].
      apply lookup_replicate in Hl. destruct Hl as [-> _]. cbn. lia. }
  destruct (spread_run p trace c0 Hwf0 H0) as (c & Hrun & Hwf & Hsp).
  exists c. unfold simulation. rewrite Hc0. cbn [mbind option_bind].
  split; [exact Hrun|]. split; [intros i s Hs; exact (proj1 (Hsp i s Hs))|].
  intros i s Hs Hall.
  pose proof (proj1 (Forall_lookup _ _) (wf_rows c Hwf) _ _ Hs) as [Hlens Hok].
  pose proof (wf_set_lines c Hwf) as Hn.
  destruct (select_slot_spec s) as (k & Hsel & Hk & Hselected);
    [lia|exact Hok|].
  destruct Hselected as [(_ & (l & Hl & Hv) & _)|[_ (_ & lk & Hlk & Hmax & _)]].
  { exfalso. exact (Hall k l (Nat.le_0_l _) Hl Hv). }
  exists k, lk. rewrite <- Hlens. split; [exact Hsel|]. split; [exact Hlk|].
  intros j l Hj Hl.
  pose proof (Hmax j l (Nat.le_0_l _) Hl) as Hle.
  destruct (Z.eq_dec (age l) (age lk)) as [E|E]; [|lia].
  exfalso. apply Hj.
  exact (proj1 (Hsp i s Hs) j k l lk Hl Hlk
           (Hall j l (Nat.le_0_l _) Hl) (Hall k lk (Nat.le_0_l _) Hlk) E).
Qed.

Lemma ages_stay_distinct_witness :
  valid_geometry 8 2 4 /\
  2 * Z.of_nat (length [(R, 0); (R, 4); (W, 0); (R, 8)]) < 2 ^ 64 - 1 /\
  exists c,
    simulation 8 2 4 POLICY_LRU 1 [(R, 0); (R, 4); (W, 0); (R, 8)]
      = Some c /\
    (forall i s, lines c !! i = Some s -> distinct_ages s) /\
    (forall i s, lines c !! i = Some s -> all_valid_from 0 s ->
       exists k lk,
         select_slot s (Z.to_nat (set_lines c)) = Some (Z.of_nat k) /\
         s !! k = Some lk /\
         forall j l, j <> k -> s !! j = Some l -> age l < age lk).
Proof.
  assert (Hgeo : valid_geometry 8 2 4)
    by (unfold valid_geometry, INT_MAX; lia).
  assert (Hlen : 2 * Z.of_nat (length [(R, 0); (R, 4); (W, 0); (R, 8)])
                 < 2 ^ 64 - 1) by (cbn; lia).
  split; [exact Hgeo|]. split; [exact Hlen|].
  exact (ages_stay_distinct 8 2 4 POLICY_LRU 1
           [(R, 0); (R, 4); (W, 0); (R, 8)] Hgeo Hlen).
Defined.

(** ** The command line and the replay loop of [main] *)

Lemma atoi_in_int s v : atoi s = Some v -> in_int v = true.
Proof.
  unfold atoi.
  destruct (match skip_spaces s with
            | String "-"%char rest => (true, rest)
            | String "+"%char rest => (false, rest)
            | _ => (false, skip_spaces s)
            end) as [negative s2].
  destruct (in_int _) eqn:E; [|discriminate].
  intros H. injection H as <-. exact E.
Qed.

(** An [int] that [is_power_of_two] accepts after its conversion to
    [unsigned long] is a positive power of two: the conversion sends
    the negative values above [2^63]. *)
Lemma int_power_of_two x :
  in_int x = true -> is_power_of_two (wrap64 x) = true ->
  exists k, 0 <= k < 31 /\ x = 2 ^ k.
Proof.
  unfold in_int, INT_MIN, INT_MAX, is_power_of_two.
  rewrite !andb_true_iff, negb_true_iff, Z.eqb_neq, Z.eqb_eq.
  rewrite !Z.leb_le. intros [Hlo Hhi] [Hne Hland].
  assert (Hw : 0 <= wrap64 x < 2 ^ 64) by (apply Z.mod_pos_bound; lia).
  set (y := wrap64 x) in *.
  assert (Hpos : 0 < y) by lia.
  unfold sub64 in Hland. rewrite wrap64_small in Hland by lia.
  pose proof (Z.log2_spec y Hpos) as [Hl Hh].
  pose proof (Z.log2_nonneg y) as Hk.
  assert (Ey : y = 2 ^ Z.log2 y).
  { destruct (Z.eq_dec y (2 ^ Z.log2 y)) as [E|E]; [exact E|]. exfalso.
    assert (Hlog : Z.log2 (y - 1) = Z.log2 y)
      by (apply Z.log2_unique; [exact Hk|lia]).
    assert (Hbit : Z.testbit (Z.land y (y - 1)) (Z.log2 y) = true).
    { rewrite Z.land_spec, (Z.bit_log2 y Hpos).
      rewrite <- Hlog. rewrite Z.bit_log2; [reflexivity|].
      assert (0 < 2 ^ Z.log2 y) by (apply Z.pow_pos_nonneg; lia). lia. }
    rewrite Hland, Z.bits_0 in Hbit. discriminate. }
  assert (Hk64 : Z.log2 y < 64) by (apply Z.log2_lt_pow2; lia).
  assert (Hy63 : y <= 2 ^ 63).
  { rewrite Ey. apply Z.pow_le_mono_r; lia. }
  assert (Hx : 0 <= x).
  { destruct (Z_lt_le_dec x 0) as [Hn|Hn]; [exfalso|exact Hn].
    assert (E : y = x + 2 ^ 64).
    { subst y. unfold wrap64. symmetry.
      apply (Z.mod_unique x (2 ^ 64) (-1)); lia. }
    lia. }
  assert (E : y = x) by (subst y; apply wrap64_small; lia).
  exists (Z.log2 y). split; [|rewrite <- E; exact Ey].
  split; [exact Hk|]. apply Z.log2_lt_pow2; [lia|]. lia.
Qed.

Lemma pow2_quot_small m n : 0 <= m < n -> Z.quot (2 ^ m) (2 ^ n) = 0.
Proof.
  intros H. assert (0 < 2 ^ m) by (apply Z.pow_pos_nonneg; lia).
  apply Z.quot_small. split; [lia|]. apply Z.pow_lt_mono_r; lia.
Qed.

(** What [main_configuration] has checked when it accepts. *)
Lemma main_configuration_inv argv cfg :
  main_configuration argv = Some (inr cfg) ->
  exists prog arg1 assoc_str policy_str arg4 file,
    argv = [prog; arg1; assoc_str; policy_str; arg4; file] /\
    atoi arg1 = Some (cfg_cache_size cfg) /\
    atoi arg4 = Some (cfg_block_size cfg) /\
    is_power_of_two (wrap64 (cfg_cache_size cfg)) = true /\
    is_power_of_two (wrap64 (cfg_block_size cfg)) = true /\
    (policy_str = "fifo"%string /\ cfg_policy cfg = POLICY_FIFO \/
     policy_str = "lru"%string /\ cfg_policy cfg = POLICY_LRU) /\
    (assoc_str = "direct"%string /\ cfg_associativity cfg = 1 \/
     assoc_str = "assoc"%string /\
       cfg_associativity cfg
       = Z.quot (cfg_cache_size cfg) (cfg_block_size cfg) \/
     assoc_str <> "assoc"%string /\
       in_int (cfg_associativity cfg) = true /\
       is_power_of_two (wrap64 (cfg_associativity cfg)) = true).
Proof.
  unfold main_configuration.
  destruct argv as [|prog [|arg1 [|assoc_str [|policy_str [|arg4 [|file [|? ?]]]]]]];
    try discriminate.
  destruct (atoi arg1) as [cs|] eqn:E1; [|discriminate].
  destruct (atoi arg4) as [bs|] eqn:E4; [|discriminate].
  cbn [mbind option_bind].
  destruct (is_power_of_two (wrap64 cs)) eqn:Pc; [|discriminate].
  destruct (is_power_of_two (wrap64 bs)) eqn:Pb; [|discriminate].
  cbn [negb orb].
  intros H. exists prog, arg1, assoc_str, policy_str, arg4, file.
  assert (Hpol : exists pol,
    (policy_str = "fifo"%string /\ pol = POLICY_FIFO \/
     policy_str = "lru"%string /\ pol = POLICY_LRU) /\
    (if String.eqb assoc_str "direct" then
       Some (inr (mkConfig cs 1 pol bs))
     else if String.eqb assoc_str "assoc" then
       if bs =? 0 then None
       else Some (inr (mkConfig cs (Z.quot cs bs) pol bs))
     else if String.prefix "assoc:" assoc_str then
       associativity ← atoi (substring 6 (String.length assoc_str - 6)
                               assoc_str);
       if negb (is_power_of_two (wrap64 associativity))
       then Some (inl AssociativityNotPowerOfTwo)
       else Some (inr (mkConfig cs associativity pol bs))
     else Some (inl InvalidAssociativity)) = Some (@inr Failure Config cfg)).
  { destruct (String.eqb policy_str "fifo") eqn:Ef.
    - apply String.eqb_eq in Ef. exists POLICY_FIFO. split; [auto|exact H].
    - destruct (String.eqb policy_str "lru") eqn:El; [|discriminate].
      apply String.eqb_eq in El. exists POLICY_LRU. split; [auto|exact H]. }
  clear H. destruct Hpol as (pol & Hpol & H).
  destruct (String.eqb assoc_str "direct") eqn:Ed.
  { apply String.eqb_eq in Ed. injection H as <-. cbn.
    repeat split; auto. }
  destruct (String.eqb assoc_str "assoc") eqn:Ea.
  { apply String.eqb_eq in Ea.
    destruct (bs =? 0); [discriminate|]. injection H as <-. cbn.
    repeat split; auto. }
  apply String.eqb_neq in Ea.
  destruct (String.prefix "assoc:" assoc_str); [|discriminate].
  destruct (atoi (substring _ _ _)) as [n|] eqn:En; [|discriminate].
  cbn [mbind option_bind] in H.
  destruct (is_power_of_two (wrap64 n)) eqn:Pn; cbn [negb] in H;
    [|discriminate].
  injection H as <-. cbn.
  repeat split; auto. right. right.
  repeat split; auto. eapply atoi_in_int; exact En.
Qed.

Lemma main_replay_split trace_lines : forall c0 c1,
  main_replay trace_lines c0 c1
  = (r0 ← run 0 c0 (accesses trace_lines);
     r1 ← run 1 c1 (accesses trace_lines);
     Some (r0, r1)).
Proof.
  assert (Hstep : forall (s0 s1 : option Cache) rest,
    (forall c0 c1, main_replay rest c0 c1
       = (r0 ← run 0 c0 (accesses rest);
          r1 ← run 1 c1 (accesses rest); Some (r0, r1))) ->
    (c0 ← s0; c1 ← s1; main_replay rest c0 c1)
    = (r0 ← (c0 ← s0; run 0 c0 (accesses rest));
       r1 ← (c1 ← s1; run 1 c1 (accesses rest)); Some (r0, r1))).
  { intros s0 s1 rest IH.
    destruct s0 as [c0|]; [|reflexivity].
    destruct s1 as [c1|]; cbn [mbind option_bind].
    - apply IH.
    - destruct (run 0 c0 (accesses rest)); reflexivity. }
  induction trace_lines as [|l rest IH]; intros c0 c1; [reflexivity|].
  destruct l as [|pc op address|]; cbn [main_replay accesses].
  - reflexivity.
  - destruct (Ascii.eqb op "R").
    { cbn [run simulate]. apply Hstep, IH. }
    destruct (Ascii.eqb op "W").
    { cbn [run simulate]. apply Hstep, IH. }
    apply IH.
  - apply IH.
Qed.

Lemma run_total p trace c :
  wf c -> exists c', run p c trace = Some c' /\ wf c'.
Proof.
  intros Hwf.
  destruct (run_invariant (fun _ _ => True) (fun _ _ _ _ _ _ _ _ _ => I)
              p trace c ghost0 Hwf I) as (c' & g' & Hr & Hwf' & _).
  exists c'. auto.
Qed.

(** X20.  The loop of [main] drives the two caches in lock step, and the
    outcome is that of two separate replays, one without and one with
    prefetching, of the same accesses: the records of the trace file
    before the first [#eof] line whose operation is [R] or [W].  Lines
    that [sscanf] cannot read and records with another operation
    character are skipped, everything after [#eof] is ignored. *)
Theorem main_replay_as_two_runs trace_lines c0 c1 :
  main_replay trace_lines c0 c1
  = (r0 ← run 0 c0 (accesses trace_lines);
     r1 ← run 1 c1 (accesses trace_lines);
     Some (r0, r1)).
Proof.
  revert c0 c1. exact (main_replay_split trace_lines).
Qed.

(** X21.  When [main] gets past its argument checks, the cache size and
    the block size are powers of two below [2^31] (a negative or zero
    number is rejected), the policy is FIFO or LRU, and the
    associativity is 0 or a power of two.  It is 0 exactly for
    [assoc] with a block size above the cache size; nothing checks
    that associativity times block size fits the cache size. *)
Theorem main_configuration_accepted argv cfg :
  main_configuration argv = Some (inr cfg) ->
  (exists i, 0 <= i < 31 /\ cfg_cache_size cfg = 2 ^ i) /\
  (exists j, 0 <= j < 31 /\ cfg_block_size cfg = 2 ^ j) /\
  (cfg_policy cfg = POLICY_FIFO \/ cfg_policy cfg = POLICY_LRU) /\
  (cfg_associativity cfg = 0 \/
   exists k, 0 <= k < 31 /\ cfg_associativity cfg = 2 ^ k) /\
  (cfg_associativity cfg = 0 <->
   argv !! 2%nat = Some "assoc"%string /\
   cfg_cache_size cfg < cfg_block_size cfg).
Proof.
  intros H.
  destruct (main_configuration_inv argv cfg H)
    as (prog & arg1 & assoc_str & policy_str & arg4 & file & -> &
        E1 & E4 & Pc & Pb & Hpol & Hassoc).
  destruct (int_power_of_two _ (atoi_in_int _ _ E1) Pc) as (i & Hi & Ec).
  destruct (int_power_of_two _ (atoi_in_int _ _ E4) Pb) as (j & Hj & Eb).
  split; [exists i; auto|]. split; [exists j; auto|].
  split; [destruct Hpol as [[_ ->]|[_ ->]]; auto|].
  cbn [lookup list_lookup].
  assert (Hi0 : 0 < 2 ^ i) by (apply Z.pow_pos_nonneg; lia).
  assert (Hj0 : 0 < 2 ^ j) by (apply Z.pow_pos_nonneg; lia).
  destruct Hassoc as [[-> Ha]|[[-> Ha]|(Hne & Hin & Pa)]].
  - split.
    + right. exists 0. split; [lia|]. rewrite Ha. reflexivity.
    + rewrite Ha. split; [discriminate|]. intros [Hs _]. discriminate.
  - rewrite Ha, Ec, Eb. destruct (Z_lt_le_dec i j) as [Hlt|Hle].
    + rewrite pow2_quot_small by lia. split; [auto|].
      split; [intros _|reflexivity]. split; [reflexivity|].
      apply Z.pow_lt_mono_r; lia.
    + rewrite pow2_quot by lia.
      assert (0 < 2 ^ (i - j)) by (apply Z.pow_pos_nonneg; lia).
      split.
      * right. exists (i - j). split; [lia|reflexivity].
      * split; [lia|]. intros [_ Hlt].
        assert (2 ^ j <= 2 ^ i) by (apply Z.pow_le_mono_r; lia). lia.
  - destruct (int_power_of_two _ Hin Pa) as (k & Hk & Ek).
    assert (0 < 2 ^ k) by (apply Z.pow_pos_nonneg; lia).
    split; [right; exists k; auto|].
    split; [lia|]. intros [Hs _]. congruence.
Qed.

Lemma main_configuration_accepted_witness :
  let argv := ["cachesim"; "32"; "assoc:2"; "lru"; "4"; "trace.txt"]%string in
  let cfg := mkConfig 32 2 POLICY_LRU 4 in
  main_configuration argv = Some (inr cfg) /\
  (exists i, 0 <= i < 31 /\ cfg_cache_size cfg = 2 ^ i) /\
  (exists j, 0 <= j < 31 /\ cfg_block_size cfg = 2 ^ j) /\
  (cfg_policy cfg = POLICY_FIFO \/ cfg_policy cfg = POLICY_LRU) /\
  (cfg_associativity cfg = 0 \/
   exists k, 0 <= k < 31 /\ cfg_associativity cfg = 2 ^ k) /\
  (cfg_associativity cfg = 0 <->
   argv !! 2%nat = Some "assoc"%string /\
   cfg_cache_size cfg < cfg_block_size cfg).
Proof.
  split; [reflexivity|].
  apply (main_configuration_accepted
           ["cachesim"; "32"; "assoc:2"; "lru"; "4"; "trace.txt"]%string
           (mkConfig 32 2 POLICY_LRU 4)).
  reflexivity.
Defined.

(** X22.  When [main] accepts its arguments and the lines of one set fit
    the cache (associativity times block size is at most the cache
    size), it runs to the end on every trace file that opens: no step
    leaves defined behaviour, and the two caches it reports are the
    results of the simulation without and with prefetching over the
    accesses of the file. *)
Theorem main_runs_both_simulations argv cfg trace_lines :
  main_configuration argv = Some (inr cfg) ->
  0 < cfg_associativity cfg ->
  cfg_associativity cfg * cfg_block_size cfg <= cfg_cache_size cfg ->
  exists c0 c1,
    main argv (Some trace_lines) = Some (inr (c0, c1)) /\
    simulation (cfg_cache_size cfg) (cfg_associativity cfg)
      (cfg_block_size cfg) (cfg_policy cfg) 0 (accesses trace_lines)
    = Some c0 /\
    simulation (cfg_cache_size cfg) (cfg_associativity cfg)
      (cfg_block_size cfg) (cfg_policy cfg) 1 (accesses trace_lines)
    = Some c1 /\
    wf c0 /\ wf c1.
Proof.
  intros H Ha Hfit.
  destruct (main_configuration_inv argv cfg H)
    as (prog & arg1 & assoc_str & policy_str & arg4 & file & _ &
        E1 & E4 & Pc & Pb & _ & _).
  pose proof (atoi_in_int _ _ E1) as Hin.
  destruct (int_power_of_two _ (atoi_in_int _ _ E4) Pb) as (j & Hj & Eb).
  assert (Hj0 : 0 < 2 ^ j) by (apply Z.pow_pos_nonneg; lia).
  assert (Hgeo : valid_geometry (cfg_cache_size cfg) (cfg_associativity cfg)
                   (cfg_block_size cfg)).
  { unfold valid_geometry. split; [exact Ha|]. split; [lia|].
    split; [exact Hfit|]. unfold in_int in Hin.
    apply andb_true_iff in Hin as [_ Hin]. apply Z.leb_le in Hin. exact Hin. }
  destruct (create_cache_wf _ _ _ (cfg_policy cfg) Hgeo)
    as (c & Hc & Hwf & _).
  destruct (run_total 0 (accesses trace_lines) c Hwf) as (c0 & Hr0 & Hwf0).
  destruct (run_total 1 (accesses trace_lines) c Hwf) as (c1 & Hr1 & Hwf1).
  exists c0, c1. unfold main, simulation. rewrite H.
  cbn [mbind option_bind]. rewrite Hc.
  cbn [mbind option_bind]. rewrite main_replay_split, Hr0, Hr1.
  cbn [mbind option_bind]. auto.
Qed.

Lemma main_runs_both_simulations_witness :
  let argv := ["cachesim"; "32"; "assoc:2"; "lru"; "4"; "trace.txt"]%string in
  let cfg := mkConfig 32 2 POLICY_LRU 4 in
  let trace_lines :=
    [Parsed 4194304 "R" 16; Unparsed; Parsed 4194308 "W" 20;
     Parsed 4194312 "X" 64; EofLine; Parsed 4194316 "R" 128] in
  main_configuration argv = Some (inr cfg) /\
  0 < cfg_associativity cfg /\
  cfg_associativity cfg * cfg_block_size cfg <= cfg_cache_size cfg /\
  exists c0 c1,
    main argv (Some trace_lines) = Some (inr (c0, c1)) /\
    simulation (cfg_cache_size cfg) (cfg_associativity cfg)
      (cfg_block_size cfg) (cfg_policy cfg) 0 (accesses trace_lines)
    = Some c0 /\
    simulation (cfg_cache_size cfg) (cfg_associativity cfg)
      (cfg_block_size cfg) (cfg_policy cfg) 1 (accesses trace_lines)
    = Some c1 /\
    wf c0 /\ wf c1.
Proof.
  split; [reflexivity|]. split; [reflexivity|].
  split; [cbn; lia|].
  apply (main_runs_both_simulations
           ["cachesim"; "32"; "assoc:2"; "lru"; "4"; "trace.txt"]%string
           (mkConfig 32 2 POLICY_LRU 4)
           [Parsed 4194304 "R" 16; Unparsed; Parsed 4194308 "W" 20;
            Parsed 4194312 "X" 64; EofLine; Parsed 4194316 "R" 128]).
  - reflexivity.
  - reflexivity.
  - cbn. lia.
Defined.

(** X23.  Asking for a fully associative cache ([assoc]) with a block
    size above the cache size passes every check of [main], which then
    computes the associativity 0 and divides by zero in
    [create_cache]: the program has no defined behaviour, whatever the
    trace file. *)
Theorem main_assoc_block_above_cache prog arg1 policy_str arg4 file
    cache_size block_size trace_lines :
  atoi arg1 = Some cache_size -> atoi arg4 = Some block_size ->
  is_power_of_two (wrap64 cache_size) = true ->
  is_power_of_two (wrap64 block_size) = true ->
  policy_str = "fifo"%string \/ policy_str = "lru"%string ->
  cache_size < block_size ->
  (exists cfg,
     main_configuration [prog; arg1; "assoc"%string; policy_str; arg4; file]
     = Some (inr cfg) /\ cfg_associativity cfg = 0) /\
  main [prog; arg1; "assoc"%string; policy_str; arg4; file] trace_lines
  = None.
Proof.
  intros E1 E4 Pc Pb Hpol Hlt.
  destruct (int_power_of_two _ (atoi_in_int _ _ E1) Pc) as (i & Hi & Ec).
  destruct (int_power_of_two _ (atoi_in_int _ _ E4) Pb) as (j & Hj & Eb).
  assert (Hi0 : 0 < 2 ^ i) by (apply Z.pow_pos_nonneg; lia).
  assert (Hq : Z.quot cache_size block_size = 0)
    by (apply Z.quot_small; lia).
  assert (Hb : (block_size =? 0) = false) by (apply Z.eqb_neq; lia).
  assert (Hcfg : exists pol,
    main_configuration [prog; arg1; "assoc"%string; policy_str; arg4; file]
    = Some (inr (mkConfig cache_size 0 pol block_size))).
  { unfold main_configuration. rewrite E1, E4. cbn [mbind option_bind].
    rewrite Pc, Pb. cbn [negb orb].
    destruct Hpol as [-> | ->].
    - exists POLICY_FIFO. cbn. rewrite Hb, Hq. reflexivity.
    - exists POLICY_LRU. cbn. rewrite Hb, Hq. reflexivity. }
  destruct Hcfg as (pol & Hcfg). split.
  - eexists. split; [exact Hcfg|reflexivity].
  - unfold main. rewrite Hcfg. reflexivity.
Qed.

Lemma main_assoc_block_above_cache_witness :
  atoi "4" = Some 4 /\ atoi "8" = Some 8 /\
  is_power_of_two (wrap64 4) = true /\
  is_power_of_two (wrap64 8) = true /\
  ("fifo"%string = "fifo"%string \/ "fifo"%string = "lru"%string) /\
  4 < 8 /\
  (exists cfg,
     main_configuration ["cachesim"; "4"; "assoc"; "fifo"; "8"; "t"]%string
     = Some (inr cfg) /\ cfg_associativity cfg = 0) /\
  main ["cachesim"; "4"; "assoc"; "fifo"; "8"; "t"]%string (Some [])
  = None.
Proof.
  split; [reflexivity|]. split; [reflexivity|]. split; [reflexivity|].
  split; [reflexivity|]. split; [left; reflexivity|]. split; [lia|].
  apply (main_assoc_block_above_cache "cachesim" "4" "fifo" "8" "t" 4 8
           (Some [])).
  - reflexivity.
  - reflexivity.
  - reflexivity.
  - reflexivity.
  - left. reflexivity.
  - lia.
Defined.

(** ** Eviction in the caches a run reaches *)





(** The calls of [load_block] of one run, with the slot each selects:
    one set of two lines under LRU with prefetching; the last two calls,
    the miss of read 0x8 and its prefetch, find the set full. *)
Example logged_run_example :
  (r ← simulation_logged 8 2 4 POLICY_LRU 1 [(R, 0); (R, 4); (W, 0); (R, 8)];
   Some (selections r.2))
  = Some [(0, Some 0); (4, Some 1); (8, Some 1); (12, Some 0)].
Proof. vm_compute. reflexivity. Qed.


